(** * PaperLink: similarity index, concept graph and query orchestrator

    A shallow embedding of [backend/app/graph_builder.py],
    [backend/app/embedding.py] and [backend/app/rag.py], with the chunking
    and ingestion of [backend/app/pdf_loader.py] and the graph endpoints of
    [backend/app/main.py].

    Conventions of the embedding.
    - A Python [str] is the list of its code points ([pystr]); slices and
      [len] count code points, as in Python.
    - A Python [dict] is an association list in insertion order, without
      repeated keys: [dict_set] overwrites in place or appends, so every
      iteration order of the source (nodes, neighbours, edges) is kept.
    - The attribute dictionary of an edge is one Python object stored under
      both [_adj[u][v]] and [_adj[v][u]]; the graph therefore holds
      references into a store of edge dictionaries ([edge_dicts]).
    - A [float] weight or score is the rational it denotes ([Q]); NaN and
      the infinities are outside the model.
    - An exception is a value of [exn]; a call that may raise returns a
      [result]. *)

From Stdlib Require Import QArith Qround Qabs.
From Stdlib Require Import Lqa.
From stdpp Require Import base list strings option sorting pretty.


(** ** Python values *)

Definition pystr := list N.

(** The code points of an ASCII literal. *)
Definition lit (s : string) : pystr :=
  (λ c, N.of_nat (Ascii.nat_of_ascii c)) <$> String.list_ascii_of_string s.

Inductive exn :=
  | KeyError
  | IndexError
  | AssertionError
  | NetworkXError
  | JSONDecodeError
  | TypeError.

Inductive result (A : Type) :=
  | Ok (a : A)
  | Raise (e : exn).
Arguments Ok {A} a.
Arguments Raise {A} e.

#[export] Instance result_ret : MRet result := λ A a, Ok a.
#[export] Instance result_bind : MBind result := λ A B k m,
  match m with
  | Ok a => k a
  | Raise e => Raise e
  end.

(** ** Insertion-ordered dictionaries *)

Section dict.
Context {K V : Type} `{EqDecision K}.

Definition keys (d : list (K * V)) : list K := fst <$> d.

Fixpoint dict_get (k : K) (d : list (K * V)) : option V :=
  match d with
  | [] => None
  | (k', v) :: d' => if decide (k = k') then Some v else dict_get k d'
  end.

Definition dict_has (k : K) (d : list (K * V)) : bool :=
  match dict_get k d with Some _ => true | None => false end.

(** [d[k] = v] *)
Fixpoint dict_set (k : K) (v : V) (d : list (K * V)) : list (K * V) :=
  match d with
  | [] => [(k, v)]
  | (k', v') :: d' =>
      if decide (k = k') then (k', v) :: d' else (k', v') :: dict_set k v d'
  end.

(** [f] applied in place to the value stored at [k], if any. *)
Fixpoint dict_alter (f : V → V) (k : K) (d : list (K * V)) : list (K * V) :=
  match d with
  | [] => []
  | (k', v') :: d' =>
      if decide (k = k') then (k', f v') :: d' else (k', v') :: dict_alter f k d'
  end.

Lemma dict_has_true k d : dict_has k d = true ↔ is_Some (dict_get k d).
Proof.
  unfold dict_has. destruct (dict_get k d); split; intros H; eauto.
  - discriminate.
  - by destruct H.
Qed.

Lemma dict_has_false k d : dict_has k d = false ↔ dict_get k d = None.
Proof. unfold dict_has. by destruct (dict_get k d). Qed.

Lemma dict_get_None k d : dict_get k d = None ↔ k ∉ keys d.
Proof.
  induction d as [|[k' v] d IH]; simpl.
  - split; [intros _; apply not_elem_of_nil | done].
  - rewrite not_elem_of_cons. destruct (decide (k = k')); split.
    + discriminate.
    + intros [? _]; contradiction.
    + intros; split; [done | by apply IH].
    + intros [_ ?]; by apply IH.
Qed.

Lemma dict_get_Some_keys k v d : dict_get k d = Some v → k ∈ keys d.
Proof.
  intros H. destruct (decide (k ∈ keys d)) as [|Hn]; [done|].
  apply dict_get_None in Hn. congruence.
Qed.

Lemma dict_get_is_Some k d : is_Some (dict_get k d) ↔ k ∈ keys d.
Proof.
  split.
  - intros [v Hv]. by eapply dict_get_Some_keys.
  - intros Hin. destruct (dict_get k d) eqn:E; [eauto|].
    apply dict_get_None in E. contradiction.
Qed.

Lemma dict_get_elem_of k v d : dict_get k d = Some v → (k, v) ∈ d.
Proof.
  induction d as [|[k' v'] d IH]; simpl; [done|].
  destruct (decide (k = k')) as [->|].
  - intros [= ->]. apply elem_of_cons; by left.
  - intros H. apply elem_of_cons; right; by apply IH.
Qed.

Lemma elem_of_dict_get k v d : NoDup (keys d) → (k, v) ∈ d → dict_get k d = Some v.
Proof.
  induction d as [|[k' v'] d IH]; simpl.
  - intros _ H. by apply elem_of_nil in H.
  - intros Hnd H. apply list.NoDup_cons in Hnd as [Hk Hnd].
    apply elem_of_cons in H as [[= -> ->]|H].
    + by rewrite decide_True.
    + destruct (decide (k = k')) as [->|]; [|by apply IH].
      exfalso. apply Hk. change k' with (fst (k', v)).
      by apply list_elem_of_fmap_2.
Qed.

Lemma dict_get_set_eq k v d : dict_get k (dict_set k v d) = Some v.
Proof.
  induction d as [|[k' v'] d IH]; simpl.
  - by rewrite decide_True.
  - destruct (decide (k = k')) as [->|Hne]; simpl.
    + by rewrite decide_True.
    + by rewrite decide_False.
Qed.

Lemma dict_get_set_ne k k0 v d : k0 ≠ k → dict_get k0 (dict_set k v d) = dict_get k0 d.
Proof.
  intros Hne. induction d as [|[k' v'] d IH]; simpl.
  - by rewrite decide_False.
  - destruct (decide (k = k')) as [->|Hk]; simpl.
    + by rewrite !decide_False.
    + destruct (decide (k0 = k')); [done | apply IH].
Qed.

Lemma keys_dict_set_in k v d : k ∈ keys d → keys (dict_set k v d) = keys d.
Proof.
  induction d as [|[k' v'] d IH]; simpl.
  - intros H. by apply elem_of_nil in H.
  - intros H. destruct (decide (k = k')) as [->|Hk]; simpl; [done|].
    apply elem_of_cons in H as [?|H]; [done|]. f_equal. by apply IH.
Qed.

Lemma keys_dict_set_notin k v d : k ∉ keys d → keys (dict_set k v d) = keys d ++ [k].
Proof.
  induction d as [|[k' v'] d IH]; simpl; [done|].
  intros H. apply not_elem_of_cons in H as [Hk H].
  rewrite decide_False by done. simpl. f_equal. by apply IH.
Qed.

Lemma dict_set_notin k v d : k ∉ keys d → dict_set k v d = d ++ [(k, v)].
Proof.
  induction d as [|[k' v'] d IH]; simpl; [done|].
  intros H. apply not_elem_of_cons in H as [Hk H].
  rewrite decide_False by done. f_equal. by apply IH.
Qed.

Lemma elem_of_keys_dict_set k0 k v d : k0 ∈ keys (dict_set k v d) ↔ k0 = k ∨ k0 ∈ keys d.
Proof.
  destruct (decide (k ∈ keys d)) as [Hin|Hn].
  - rewrite keys_dict_set_in by done. split; [by right|].
    intros [->|?]; done.
  - rewrite keys_dict_set_notin by done.
    rewrite elem_of_app, list_elem_of_singleton. tauto.
Qed.

Lemma NoDup_keys_dict_set k v d : NoDup (keys d) → NoDup (keys (dict_set k v d)).
Proof.
  intros Hnd. destruct (decide (k ∈ keys d)) as [Hin|Hn].
  - by rewrite keys_dict_set_in.
  - rewrite keys_dict_set_notin by done. apply list.NoDup_app. split_and!; [done| |].
    + intros x Hx Hx'. apply list_elem_of_singleton in Hx' as ->. contradiction.
    + apply NoDup_singleton.
Qed.

Lemma keys_dict_alter f k d : keys (dict_alter f k d) = keys d.
Proof.
  induction d as [|[k' v'] d IH]; simpl; [done|].
  destruct (decide (k = k')); simpl; [done|]. by f_equal.
Qed.

Lemma dict_get_alter_eq f k d : dict_get k (dict_alter f k d) = f <$> dict_get k d.
Proof.
  induction d as [|[k' v'] d IH]; simpl; [done|].
  destruct (decide (k = k')) as [->|Hk]; simpl.
  - by rewrite decide_True.
  - by rewrite decide_False.
Qed.

Lemma dict_get_alter_ne f k k0 d : k0 ≠ k → dict_get k0 (dict_alter f k d) = dict_get k0 d.
Proof.
  intros Hne. induction d as [|[k' v'] d IH]; simpl; [done|].
  destruct (decide (k = k')) as [->|Hk]; simpl.
  - by rewrite !decide_False.
  - destruct (decide (k0 = k')); [done | apply IH].
Qed.

Lemma dict_get_app k d1 d2 :
  dict_get k (d1 ++ d2) = match dict_get k d1 with Some v => Some v | None => dict_get k d2 end.
Proof.
  induction d1 as [|[k' v'] d1 IH]; simpl; [done|].
  by destruct (decide (k = k')).
Qed.
End dict.


(** ** The graph: [networkx.Graph] as [KnowledgeGraph] uses it *)

(** The attribute dictionary of a node is only ever read with
    [.get('label')] and [.get('type')]: a missing key and a key bound to
    [None] are the same [None] here. *)
Record node_attr := {
  label : option pystr;
  type : option pystr
}.

(** The attribute dictionary of an edge: [relation] is read with [.get],
    [weight] is always present. *)
Record edge_attr := {
  relation : option pystr;
  weight : Q
}.

(** [_node] and [_adj] are the two dictionaries of [networkx.Graph]; the
    inner dictionary [_adj[u]] maps a neighbour to a reference into
    [edge_dicts], the attribute dictionaries of the edges. *)
Record Graph := {
  _node : list (pystr * node_attr);
  _adj : list (pystr * list (pystr * nat));
  edge_dicts : list edge_attr
}.

(** [nx.Graph()] *)
Definition empty_graph : Graph :=
  {| _node := []; _adj := []; edge_dicts := [] |}.

(** [G.nodes], in iteration order *)
Definition nodes (G : Graph) : list pystr := keys (_node G).

(** [G.has_node(n)] *)
Definition has_node (G : Graph) (n : pystr) : bool := dict_has n (_node G).

Definition adj_ref (adj : list (pystr * list (pystr * nat))) (u v : pystr) : option nat :=
  match dict_get u adj with
  | Some nbrs => dict_get v nbrs
  | None => None
  end.

(** The reference stored at [_adj[u][v]]. *)
Definition edge_ref (G : Graph) (u v : pystr) : option nat := adj_ref (_adj G) u v.

(** [G.has_edge(u, v)]: [v in self._adj[u]], [False] on [KeyError]. *)
Definition has_edge (G : Graph) (u v : pystr) : bool :=
  match dict_get u (_adj G) with
  | Some nbrs => dict_has v nbrs
  | None => false
  end.

(** [G[u][v]], when the edge is there. *)
Definition edge_data (G : Graph) (u v : pystr) : option edge_attr :=
  match edge_ref G u v with
  | Some r => edge_dicts G !! r
  | None => None
  end.

(** [G.neighbors(n)]: the keys of [_adj[n]]; [NetworkXError] when [n] is
    not a node. *)
Definition neighbors (G : Graph) (n : pystr) : result (list pystr) :=
  match dict_get n (_adj G) with
  | Some nbrs => Ok (keys nbrs)
  | None => Raise NetworkXError
  end.

(** [G.add_node(n, label=.., type=..)] *)
Definition add_node (G : Graph) (n : pystr) (a : node_attr) : Graph :=
  if has_node G n then
    {| _node := dict_set n a (_node G); _adj := _adj G; edge_dicts := edge_dicts G |}
  else
    {| _node := dict_set n a (_node G);
       _adj := dict_set n [] (_adj G);
       edge_dicts := edge_dicts G |}.

(** The first lines of [add_edge]: an endpoint that is not a node yet gets
    an empty attribute dictionary and an empty adjacency. *)
Definition touch_node (G : Graph) (n : pystr) : Graph :=
  if has_node G n then G
  else
    {| _node := dict_set n {| label := None; type := None |} (_node G);
       _adj := dict_set n [] (_adj G);
       edge_dicts := edge_dicts G |}.

(** [G.add_edge(u, v, relation=.., weight=..)]:
    [datadict = self._adj[u].get(v, {})], [datadict.update(attr)], then the
    same object is stored at [_adj[u][v]] and [_adj[v][u]]. *)
Definition add_edge (G : Graph) (u v : pystr) (a : edge_attr) : Graph :=
  let G1 := touch_node (touch_node G u) v in
  let '(r, dicts) :=
    match edge_ref G1 u v with
    | Some r => (r, <[r := a]> (edge_dicts G1))
    | None => (length (edge_dicts G1), edge_dicts G1 ++ [a])
    end in
  {| _node := _node G1;
     _adj := dict_alter (dict_set u r) v (dict_alter (dict_set v r) u (_adj G1));
     edge_dicts := dicts |}.

(** [d['weight'] += w] on an edge dictionary *)
Definition add_weight (w : Q) (d : edge_attr) : edge_attr :=
  {| relation := relation d; weight := (weight d + w)%Q |}.

(** [KnowledgeGraph._add_edge(s, t, relation, weight)] *)
Definition _add_edge (G : Graph) (s t : pystr) (rel : pystr) (w : Q) : Graph :=
  if has_edge G s t then
    match edge_ref G s t with
    | Some r =>
        {| _node := _node G; _adj := _adj G;
           edge_dicts := alter (add_weight w) r (edge_dicts G) |}
    | None => G
    end
  else add_edge G s t {| relation := Some rel; weight := w |}.

(** [G.edges], in iteration order: for each node [n] of [_adj] and each
    neighbour [nbr] of [n] that is not an earlier node, the pair
    [(n, nbr)]. *)
Fixpoint edges_from (seen : list pystr) (adj : list (pystr * list (pystr * nat)))
  : list (pystr * pystr) :=
  match adj with
  | [] => []
  | (n, nbrs) :: rest =>
      ((λ nbr, (n, nbr)) <$> filter (λ nbr, nbr ∉ seen) (keys nbrs))
        ++ edges_from (n :: seen) rest
  end.

Definition edges (G : Graph) : list (pystr * pystr) := edges_from [] (_adj G).

(** The two orientations of an unordered pair. *)
Definition same_pair (u v x y : pystr) : Prop :=
  (x = u ∧ y = v) ∨ (x = v ∧ y = u).

#[export] Instance same_pair_dec u v x y : Decision (same_pair u v x y).
Proof. unfold same_pair. apply _. Defined.

(** The invariant of every graph the program builds. *)
Record wf (G : Graph) : Prop := {
  wf_keys : keys (_adj G) = keys (_node G);
  wf_nodup : NoDup (keys (_node G));
  wf_rows : ∀ u nbrs, dict_get u (_adj G) = Some nbrs → NoDup (keys nbrs);
  wf_sym : ∀ u v r, edge_ref G u v = Some r → edge_ref G v u = Some r;
  wf_valid : ∀ u v r, edge_ref G u v = Some r → r < length (edge_dicts G);
  wf_sep : ∀ u v x y r,
    edge_ref G u v = Some r → edge_ref G x y = Some r → same_pair u v x y
}.

(** *** Adjacency lookups *)

Lemma adj_ref_alter_set adj a b r x y :
  a ∈ keys adj →
  adj_ref (dict_alter (dict_set b r) a adj) x y
  = if decide (x = a ∧ y = b) then Some r else adj_ref adj x y.
Proof.
  intros Ha. unfold adj_ref. destruct (decide (x = a)) as [->|Hx].
  - rewrite dict_get_alter_eq.
    apply dict_get_is_Some in Ha as [nbrs ->]. simpl.
    destruct (decide (y = b)) as [->|Hy].
    + rewrite decide_True by done. apply dict_get_set_eq.
    + rewrite decide_False by (intros [_ ?]; done). by apply dict_get_set_ne.
  - rewrite dict_get_alter_ne by done.
    rewrite decide_False by (intros [? _]; done). done.
Qed.

Lemma has_edge_ref G u v : has_edge G u v = true ↔ is_Some (edge_ref G u v).
Proof.
  unfold has_edge, edge_ref, adj_ref. destruct (dict_get u (_adj G)).
  - apply dict_has_true.
  - split; [discriminate | by intros [? ?]].
Qed.

Lemma has_edge_false G u v : has_edge G u v = false ↔ edge_ref G u v = None.
Proof.
  unfold has_edge, edge_ref, adj_ref. destruct (dict_get u (_adj G)).
  - apply dict_has_false.
  - done.
Qed.

Lemma has_node_true G n : has_node G n = true ↔ n ∈ nodes G.
Proof. unfold has_node, nodes. rewrite dict_has_true. apply dict_get_is_Some. Qed.

Lemma has_node_false G n : has_node G n = false ↔ n ∉ nodes G.
Proof. unfold has_node, nodes. rewrite dict_has_false. apply dict_get_None. Qed.

Lemma edge_ref_row G u v r : edge_ref G u v = Some r → u ∈ keys (_adj G).
Proof.
  unfold edge_ref, adj_ref. destruct (dict_get u (_adj G)) eqn:E; [|done].
  intros _. by eapply dict_get_Some_keys.
Qed.

Lemma wf_edge_nodes G u v r :
  wf G → edge_ref G u v = Some r → u ∈ nodes G ∧ v ∈ nodes G.
Proof.
  intros HG H. unfold nodes. rewrite <- (wf_keys G HG). split.
  - by eapply edge_ref_row.
  - apply (wf_sym G HG) in H. by eapply edge_ref_row.
Qed.

Lemma wf_edge_data G u v r :
  wf G → edge_ref G u v = Some r → is_Some (edge_data G u v).
Proof.
  intros HG H. unfold edge_data. rewrite H.
  apply lookup_lt_is_Some. apply (wf_valid G HG _ _ _ H).
Qed.

Lemma wf_edge_data_sym G u v : wf G → edge_data G v u = edge_data G u v.
Proof.
  intros HG. unfold edge_data.
  destruct (edge_ref G u v) as [r|] eqn:E.
  - by rewrite (wf_sym G HG _ _ _ E).
  - destruct (edge_ref G v u) as [r|] eqn:E'; [|done].
    apply (wf_sym G HG) in E'. congruence.
Qed.

Lemma wf_empty_graph : wf empty_graph.
Proof.
  split; simpl; try done.
  - apply NoDup_nil_2.
Qed.

(** *** [touch_node] and [add_node] *)

Lemma edge_dicts_touch_node G n : edge_dicts (touch_node G n) = edge_dicts G.
Proof. unfold touch_node. by destruct (has_node G n). Qed.

Lemma adj_ref_fresh_row adj n x y :
  n ∉ keys adj → adj_ref (dict_set n [] adj) x y = adj_ref adj x y.
Proof.
  intros Hn. unfold adj_ref. destruct (decide (x = n)) as [->|Hx].
  - rewrite dict_get_set_eq. apply dict_get_None in Hn. by rewrite Hn.
  - by rewrite dict_get_set_ne.
Qed.

Lemma edge_ref_touch_node G n x y :
  keys (_adj G) = keys (_node G) →
  edge_ref (touch_node G n) x y = edge_ref G x y.
Proof.
  intros Hk. unfold touch_node. destruct (has_node G n) eqn:E; [done|].
  apply has_node_false in E. unfold edge_ref; simpl.
  apply adj_ref_fresh_row. by rewrite Hk.
Qed.

Lemma nodes_touch_node G n :
  nodes (touch_node G n) = if has_node G n then nodes G else nodes G ++ [n].
Proof.
  unfold touch_node. destruct (has_node G n) eqn:E; [done|].
  apply has_node_false in E. unfold nodes; simpl. by apply keys_dict_set_notin.
Qed.

Lemma elem_of_nodes_touch_node G n x :
  x ∈ nodes (touch_node G n) ↔ x = n ∨ x ∈ nodes G.
Proof.
  rewrite nodes_touch_node. destruct (has_node G n) eqn:E.
  - apply has_node_true in E. split; [by right | by intros [->|?]].
  - rewrite elem_of_app, list_elem_of_singleton. tauto.
Qed.

Lemma wf_fresh_node G n a :
  wf G → n ∉ nodes G →
  wf {| _node := dict_set n a (_node G);
        _adj := dict_set n [] (_adj G);
        edge_dicts := edge_dicts G |}.
Proof.
  intros HG Hn.
  assert (Hadj : n ∉ keys (_adj G)) by by rewrite (wf_keys G HG).
  assert (Href : ∀ x y,
    adj_ref (dict_set n [] (_adj G)) x y = edge_ref G x y)
    by (intros; by apply adj_ref_fresh_row).
  split; simpl; unfold edge_ref; simpl.
  - rewrite !keys_dict_set_notin by done. by rewrite (wf_keys G HG).
  - apply NoDup_keys_dict_set, HG.
  - intros u nbrs. destruct (decide (u = n)) as [->|Hu].
    + rewrite dict_get_set_eq. intros [= <-]. apply NoDup_nil_2.
    + rewrite dict_get_set_ne by done. apply HG.
  - intros u v r. rewrite !Href. apply HG.
  - intros u v r. rewrite !Href. apply HG.
  - intros u v x y r. rewrite !Href. apply HG.
Qed.

Lemma wf_touch_node G n : wf G → wf (touch_node G n).
Proof.
  intros HG. unfold touch_node. destruct (has_node G n) eqn:E; [done|].
  apply has_node_false in E. by apply wf_fresh_node.
Qed.

Lemma wf_add_node G n a : wf G → wf (add_node G n a).
Proof.
  intros HG. unfold add_node. destruct (has_node G n) eqn:E.
  - apply has_node_true in E. unfold nodes in E.
    split; simpl; unfold edge_ref; simpl; try apply HG.
    + rewrite keys_dict_set_in by done. apply HG.
    + apply NoDup_keys_dict_set, HG.
  - apply has_node_false in E. by apply wf_fresh_node.
Qed.

Lemma edge_ref_add_node G n a x y :
  wf G → edge_ref (add_node G n a) x y = edge_ref G x y.
Proof.
  intros HG. unfold add_node. destruct (has_node G n) eqn:E; [done|].
  apply has_node_false in E. unfold edge_ref; simpl.
  apply adj_ref_fresh_row. by rewrite (wf_keys G HG).
Qed.

Lemma edge_dicts_add_node G n a : edge_dicts (add_node G n a) = edge_dicts G.
Proof. unfold add_node. by destruct (has_node G n). Qed.

Lemma edge_data_add_node G n a x y :
  wf G → edge_data (add_node G n a) x y = edge_data G x y.
Proof.
  intros HG. unfold edge_data. by rewrite edge_ref_add_node, edge_dicts_add_node.
Qed.

Lemma elem_of_nodes_add_node G n a x :
  x ∈ nodes (add_node G n a) ↔ x = n ∨ x ∈ nodes G.
Proof.
  unfold add_node, nodes. destruct (has_node G n); simpl; apply elem_of_keys_dict_set.
Qed.

(** *** [add_edge] *)

(** The reference [add_edge] stores: the dictionary already at
    [_adj[u][v]], or a new one. *)
Definition new_ref (G : Graph) (u v : pystr) : nat :=
  default (length (edge_dicts G)) (edge_ref G u v).

Lemma same_pair_sym u v x y : same_pair u v x y → same_pair u v y x.
Proof. unfold same_pair. tauto. Qed.

Lemma same_pair_swap u v x y : same_pair u v x y → same_pair v u x y.
Proof. unfold same_pair. tauto. Qed.

Lemma same_pair_trans u v x y p q :
  same_pair u v x y → same_pair u v p q → same_pair x y p q.
Proof. unfold same_pair. intros [[-> ->]|[-> ->]] [[-> ->]|[-> ->]]; tauto. Qed.

Lemma same_pair_refl u v : same_pair u v u v.
Proof. by left. Qed.

Lemma node_add_edge G u v a :
  _node (add_edge G u v a) = _node (touch_node (touch_node G u) v).
Proof. unfold add_edge. by destruct (edge_ref _ u v). Qed.

Lemma adj_add_edge G u v a :
  let G1 := touch_node (touch_node G u) v in
  _adj (add_edge G u v a)
  = dict_alter (dict_set u (new_ref G1 u v)) v
      (dict_alter (dict_set v (new_ref G1 u v)) u (_adj G1)).
Proof. unfold add_edge, new_ref. by destruct (edge_ref _ u v). Qed.

Lemma edge_dicts_add_edge G u v a :
  wf G →
  edge_dicts (add_edge G u v a)
  = match edge_ref G u v with
    | Some r => <[r := a]> (edge_dicts G)
    | None => edge_dicts G ++ [a]
    end.
Proof.
  intros HG. unfold add_edge.
  rewrite !edge_ref_touch_node, !edge_dicts_touch_node;
    [| apply HG | apply wf_touch_node, HG].
  by destruct (edge_ref G u v).
Qed.

Lemma nodes_add_edge G u v a x :
  x ∈ nodes (add_edge G u v a) ↔ x = u ∨ x = v ∨ x ∈ nodes G.
Proof.
  unfold nodes at 1. rewrite node_add_edge.
  change (x ∈ nodes (touch_node (touch_node G u) v) ↔ x = u ∨ x = v ∨ x ∈ nodes G).
  rewrite !elem_of_nodes_touch_node. tauto.
Qed.

Lemma edge_ref_add_edge G u v a x y :
  wf G →
  edge_ref (add_edge G u v a) x y
  = if decide (same_pair u v x y) then Some (new_ref G u v) else edge_ref G x y.
Proof.
  intros HG. pose (G1 := touch_node (touch_node G u) v).
  assert (H1 : wf G1) by by do 2 apply wf_touch_node.
  assert (Hr : ∀ p q, edge_ref G1 p q = edge_ref G p q).
  { intros. unfold G1. rewrite !edge_ref_touch_node; [done | apply HG | apply wf_touch_node, HG]. }
  assert (Hu : u ∈ keys (_adj G1)).
  { rewrite (wf_keys G1 H1). apply elem_of_nodes_touch_node. right.
    apply elem_of_nodes_touch_node. by left. }
  assert (Hv : v ∈ keys (_adj G1)).
  { rewrite (wf_keys G1 H1). apply elem_of_nodes_touch_node. by left. }
  assert (Hn : new_ref G1 u v = new_ref G u v).
  { unfold new_ref, G1. by rewrite Hr, !edge_dicts_touch_node. }
  unfold edge_ref at 1. rewrite adj_add_edge. fold G1. rewrite Hn.
  rewrite adj_ref_alter_set by by rewrite keys_dict_alter.
  rewrite adj_ref_alter_set by done.
  change (adj_ref (_adj G1) x y) with (edge_ref G1 x y). rewrite Hr.
  unfold same_pair.
  destruct (decide (x = v ∧ y = u)) as [[-> ->]|H1'].
  - rewrite decide_True by tauto. done.
  - destruct (decide (x = u ∧ y = v)) as [[-> ->]|H2'].
    + rewrite decide_True by tauto. done.
    + rewrite decide_False by tauto. done.
Qed.

Lemma edge_data_add_edge G u v a x y :
  wf G →
  edge_data (add_edge G u v a) x y
  = if decide (same_pair u v x y) then Some a else edge_data G x y.
Proof.
  intros HG. unfold edge_data.
  rewrite edge_ref_add_edge, edge_dicts_add_edge by done. unfold new_ref.
  destruct (decide (same_pair u v x y)) as [Hp|Hp].
  - destruct (edge_ref G u v) as [r|] eqn:E; simpl.
    + apply list_lookup_insert_eq. apply (wf_valid G HG _ _ _ E).
    + rewrite lookup_app_r by done. by rewrite Nat.sub_diag.
  - destruct (edge_ref G x y) as [r'|] eqn:E'; [|done].
    destruct (edge_ref G u v) as [r|] eqn:E; simpl.
    + apply list_lookup_insert_ne. intros ->. apply Hp. apply (wf_sep G HG _ _ _ _ _ E E').
    + apply lookup_app_l. apply (wf_valid G HG _ _ _ E').
Qed.

Lemma rows_alter_set (adj : list (pystr * list (pystr * nat))) a b r :
  (∀ u nbrs, dict_get u adj = Some nbrs → NoDup (keys nbrs)) →
  ∀ u nbrs, dict_get u (dict_alter (dict_set b r) a adj) = Some nbrs → NoDup (keys nbrs).
Proof.
  intros H u nbrs. destruct (decide (u = a)) as [->|Hu].
  - rewrite dict_get_alter_eq. destruct (dict_get a adj) eqn:E; simpl; [|done].
    intros [= <-]. apply NoDup_keys_dict_set. by eapply H.
  - rewrite dict_get_alter_ne by done. apply H.
Qed.

Lemma wf_add_edge G u v a : wf G → wf (add_edge G u v a).
Proof.
  intros HG. pose (G1 := touch_node (touch_node G u) v).
  assert (H1 : wf G1) by by do 2 apply wf_touch_node.
  assert (Hlen : length (edge_dicts G) ≤ length (edge_dicts (add_edge G u v a))).
  { rewrite edge_dicts_add_edge by done. destruct (edge_ref G u v).
    - by rewrite length_insert.
    - rewrite length_app. lia. }
  assert (Hnew : new_ref G u v < length (edge_dicts (add_edge G u v a))).
  { rewrite edge_dicts_add_edge by done. unfold new_ref.
    destruct (edge_ref G u v) eqn:E; simpl.
    - rewrite length_insert. apply (wf_valid G HG _ _ _ E).
    - rewrite length_app. simpl. lia. }
  split.
  - rewrite adj_add_edge, node_add_edge, !keys_dict_alter. apply H1.
  - rewrite node_add_edge. apply H1.
  - rewrite adj_add_edge. apply rows_alter_set, rows_alter_set, H1.
  - intros x y r. rewrite !edge_ref_add_edge by done.
    destruct (decide (same_pair u v x y)) as [Hp|Hp].
    + rewrite decide_True by by apply same_pair_sym. done.
    + rewrite decide_False by (intros ?; by apply Hp, same_pair_sym). apply HG.
  - intros x y r. rewrite edge_ref_add_edge by done.
    destruct (decide (same_pair u v x y)) as [Hp|Hp].
    + by intros [= <-].
    + intros H. apply (wf_valid G HG) in H. lia.
  - intros x y p q r. rewrite !edge_ref_add_edge by done.
    destruct (decide (same_pair u v x y)) as [Hp|Hp];
      destruct (decide (same_pair u v p q)) as [Hq|Hq].
    + intros _ _. by eapply same_pair_trans.
    + intros [= <-] H. exfalso. unfold new_ref in H.
      destruct (edge_ref G u v) as [r|] eqn:E; simpl in H.
      * apply Hq. apply (wf_sep G HG _ _ _ _ _ E H).
      * apply (wf_valid G HG) in H. lia.
    + intros H [= <-]. exfalso. unfold new_ref in H.
      destruct (edge_ref G u v) as [r|] eqn:E; simpl in H.
      * apply Hp. apply (wf_sep G HG _ _ _ _ _ E H).
      * apply (wf_valid G HG) in H. lia.
    + apply HG.
Qed.

(** *** [_add_edge] *)

(** The attribute dictionary of the pair after [_add_edge]. *)
Definition merged (G : Graph) (s t : pystr) (rel : pystr) (w : Q) : edge_attr :=
  match edge_data G s t with
  | Some d => add_weight w d
  | None => {| relation := Some rel; weight := w |}
  end.

Lemma edge_ref__add_edge G s t rel w x y :
  wf G →
  edge_ref (_add_edge G s t rel w) x y
  = if decide (same_pair s t x y) then Some (new_ref G s t) else edge_ref G x y.
Proof.
  intros HG. unfold _add_edge. destruct (has_edge G s t) eqn:E.
  - apply has_edge_ref in E as [r E]. rewrite E. unfold edge_ref at 1; simpl.
    fold (edge_ref G x y). unfold new_ref. rewrite E. simpl.
    destruct (decide (same_pair s t x y)) as [[[-> ->]|[-> ->]]|Hp]; [done| |done].
    by apply (wf_sym G HG).
  - by apply edge_ref_add_edge.
Qed.

Lemma wf__add_edge G s t rel w : wf G → wf (_add_edge G s t rel w).
Proof.
  intros HG. unfold _add_edge. destruct (has_edge G s t) eqn:E.
  - apply has_edge_ref in E as [r E]. rewrite E.
    split; simpl; unfold edge_ref; simpl; try apply HG.
    intros u v r'. rewrite length_alter. apply HG.
  - by apply wf_add_edge.
Qed.

Lemma nodes__add_edge G s t rel w x :
  wf G → x ∈ nodes (_add_edge G s t rel w) ↔ x = s ∨ x = t ∨ x ∈ nodes G.
Proof.
  intros HG. unfold _add_edge. destruct (has_edge G s t) eqn:E.
  - apply has_edge_ref in E as [r E]. rewrite E.
    change (x ∈ nodes G ↔ x = s ∨ x = t ∨ x ∈ nodes G).
    destruct (wf_edge_nodes G s t r HG E) as [Hs Ht].
    split; [tauto|]. by intros [->|[->|?]].
  - apply nodes_add_edge.
Qed.

Lemma nodes__add_edge_old G s t rel w :
  wf G → s ∈ nodes G → t ∈ nodes G → nodes (_add_edge G s t rel w) = nodes G.
Proof.
  intros HG Hs Ht. unfold _add_edge. destruct (has_edge G s t) eqn:E.
  - apply has_edge_ref in E as [r E]. by rewrite E.
  - unfold nodes at 1. rewrite node_add_edge. fold (nodes (touch_node (touch_node G s) t)).
    rewrite nodes_touch_node.
    assert (Ht' : has_node (touch_node G s) t = true).
    { apply has_node_true, elem_of_nodes_touch_node. by right. }
    rewrite Ht', nodes_touch_node.
    apply has_node_true in Hs. by rewrite Hs.
Qed.

Lemma edge_data__add_edge G s t rel w x y :
  wf G →
  edge_data (_add_edge G s t rel w) x y
  = if decide (same_pair s t x y) then Some (merged G s t rel w) else edge_data G x y.
Proof.
  intros HG. unfold merged. unfold _add_edge. destruct (has_edge G s t) eqn:E.
  - apply has_edge_ref in E as [r E]. rewrite E.
    destruct (lookup_lt_is_Some_2 (edge_dicts G) r (wf_valid G HG _ _ _ E)) as [d Hd].
    assert (Hst : edge_data G s t = Some d) by (unfold edge_data; by rewrite E).
    rewrite Hst. unfold edge_data. unfold edge_ref at 1; simpl.
    fold (edge_ref G x y).
    destruct (decide (same_pair s t x y)) as [Hp|Hp].
    + assert (Hxy : edge_ref G x y = Some r).
      { destruct Hp as [[-> ->]|[-> ->]]; [done | by apply (wf_sym G HG)]. }
      by rewrite Hxy, list_lookup_alter_eq, Hd.
    + destruct (edge_ref G x y) as [r'|] eqn:E'; [|done].
      apply list_lookup_alter_ne. intros ->. apply Hp.
      apply (wf_sep G HG _ _ _ _ _ E E').
  - apply has_edge_false in E. unfold edge_data at 2. rewrite E.
    by apply edge_data_add_edge.
Qed.

(** *** The edge view *)

Lemma elem_of_edges_from_inv seen adj x y :
  (x, y) ∈ edges_from seen adj →
  (y ∉ seen) ∧ ∃ nbrs, (x, nbrs) ∈ adj ∧ y ∈ keys nbrs.
Proof.
  revert seen. induction adj as [|[n nbrs] rest IH]; intros seen; simpl.
  - intros H. by apply elem_of_nil in H.
  - rewrite elem_of_app. intros [H|H].
    + apply list_elem_of_fmap in H as (nbr & [= -> ->] & H).
      apply list_elem_of_filter in H as [Hs Hk]. split; [done|].
      exists nbrs. split; [apply elem_of_cons; by left | done].
    + apply IH in H as (Hs & nb & H1 & H2). split.
      * intros ?. apply Hs. apply elem_of_cons. by right.
      * exists nb. split; [apply elem_of_cons; by right | done].
Qed.

Lemma elem_of_edges_from_fst seen adj x y :
  (x, y) ∈ edges_from seen adj → x ∈ keys adj.
Proof.
  intros H. apply elem_of_edges_from_inv in H as (_ & nb & H & _).
  change x with (fst (x, nb)). by apply list_elem_of_fmap_2.
Qed.

Lemma edges_from_antisym seen adj x y :
  NoDup (keys adj) →
  (x, y) ∈ edges_from seen adj → (y, x) ∈ edges_from seen adj → x = y.
Proof.
  revert seen. induction adj as [|[n nbrs] rest IH]; intros seen; simpl.
  - intros _ H. by apply elem_of_nil in H.
  - intros Hnd. apply list.NoDup_cons in Hnd as [Hn Hnd].
    rewrite !elem_of_app. intros [H1|H1] [H2|H2].
    + apply list_elem_of_fmap in H1 as (? & [= -> ->] & _).
      by apply list_elem_of_fmap in H2 as (? & [= -> ->] & _).
    + apply list_elem_of_fmap in H1 as (? & [= -> ->] & _).
      apply elem_of_edges_from_inv in H2 as [H2 _].
      exfalso. apply H2. apply elem_of_cons. by left.
    + apply list_elem_of_fmap in H2 as (? & [= -> ->] & _).
      apply elem_of_edges_from_inv in H1 as [H1 _].
      exfalso. apply H1. apply elem_of_cons. by left.
    + by eapply IH.
Qed.

Lemma NoDup_edges_from seen adj :
  NoDup (keys adj) →
  (∀ u nbrs, (u, nbrs) ∈ adj → NoDup (keys nbrs)) →
  NoDup (edges_from seen adj).
Proof.
  revert seen. induction adj as [|[n nbrs] rest IH]; intros seen; simpl.
  - intros _ _. apply NoDup_nil_2.
  - intros Hnd Hrows. apply list.NoDup_cons in Hnd as [Hn Hnd].
    apply list.NoDup_app. split_and!.
    + apply NoDup_fmap_2; [by intros a b [= ->]|].
      apply list.NoDup_filter. apply (Hrows n). apply elem_of_cons; by left.
    + intros [a b] H1 H2.
      apply list_elem_of_fmap in H1 as (? & [= -> ->] & _).
      apply elem_of_edges_from_fst in H2. contradiction.
    + apply IH; [done|]. intros u nb H. apply (Hrows u).
      apply elem_of_cons; by right.
Qed.

Lemma elem_of_edges_from_intro seen adj x y nx ny :
  NoDup (keys adj) →
  (x, nx) ∈ adj → y ∈ keys nx → (y, ny) ∈ adj → x ∈ keys ny →
  x ∉ seen → y ∉ seen →
  (x, y) ∈ edges_from seen adj ∨ (y, x) ∈ edges_from seen adj.
Proof.
  revert seen. induction adj as [|[n nbrs] rest IH]; intros seen; simpl.
  - intros _ H. by apply elem_of_nil in H.
  - intros Hnd Hx Hy Hy' Hx' Hsx Hsy.
    apply list.NoDup_cons in Hnd as [Hn Hnd].
    rewrite !elem_of_app.
    apply elem_of_cons in Hx as [[= -> ->]|Hx].
    { left; left. apply list_elem_of_fmap. exists y. split; [done|].
      by apply list_elem_of_filter. }
    apply elem_of_cons in Hy' as [[= -> ->]|Hy'].
    { right; left. apply list_elem_of_fmap. exists x. split; [done|].
      by apply list_elem_of_filter. }
    assert (x ≠ n).
    { intros ->. apply Hn. change n with (fst (n, nx)). by apply list_elem_of_fmap_2. }
    assert (y ≠ n).
    { intros ->. apply Hn. change n with (fst (n, ny)). by apply list_elem_of_fmap_2. }
    destruct (IH (n :: seen) Hnd Hx Hy Hy' Hx') as [H'|H'].
    + by apply not_elem_of_cons.
    + by apply not_elem_of_cons.
    + left; by right.
    + right; by right.
Qed.

Lemma wf_rows_elem G u nbrs : wf G → (u, nbrs) ∈ _adj G → NoDup (keys nbrs).
Proof.
  intros HG H. apply (wf_rows G HG u). apply elem_of_dict_get; [|done].
  rewrite (wf_keys G HG). apply HG.
Qed.

Lemma NoDup_adj_keys G : wf G → NoDup (keys (_adj G)).
Proof. intros HG. rewrite (wf_keys G HG). apply HG. Qed.

Lemma NoDup_edges G : wf G → NoDup (edges G).
Proof.
  intros HG. apply NoDup_edges_from; [by apply NoDup_adj_keys|].
  intros u nbrs. by apply wf_rows_elem.
Qed.

Lemma elem_of_edges_ref G x y :
  wf G → (x, y) ∈ edges G → is_Some (edge_ref G x y).
Proof.
  intros HG H. apply elem_of_edges_from_inv in H as (_ & nb & H1 & H2).
  unfold edge_ref, adj_ref.
  rewrite (elem_of_dict_get x nb) by (by apply NoDup_adj_keys || done).
  by apply dict_get_is_Some.
Qed.

Lemma edge_ref_elem_of_edges G x y :
  wf G → is_Some (edge_ref G x y) → (x, y) ∈ edges G ∨ (y, x) ∈ edges G.
Proof.
  intros HG [r H]. pose proof (wf_sym G HG _ _ _ H) as H'.
  unfold edge_ref, adj_ref in H, H'.
  destruct (dict_get x (_adj G)) as [nx|] eqn:Ex; [|done].
  destruct (dict_get y (_adj G)) as [ny|] eqn:Ey; [|done].
  apply (elem_of_edges_from_intro [] (_adj G) x y nx ny).
  - by apply NoDup_adj_keys.
  - by apply dict_get_elem_of.
  - by eapply dict_get_Some_keys.
  - by apply dict_get_elem_of.
  - by eapply dict_get_Some_keys.
  - apply not_elem_of_nil.
  - apply not_elem_of_nil.
Qed.

Lemma edges_antisym G x y :
  wf G → (x, y) ∈ edges G → (y, x) ∈ edges G → x = y.
Proof. intros HG. apply edges_from_antisym. by apply NoDup_adj_keys. Qed.

(** The entries of the edge view that join [u] and [v]. *)
Definition edges_between (G : Graph) (u v : pystr) : list (pystr * pystr) :=
  filter (λ e, same_pair u v e.1 e.2) (edges G).

Lemma filter_none {A} (P : A → Prop) `{∀ x, Decision (P x)} (l : list A) :
  (∀ y, y ∈ l → ¬ P y) → filter P l = [].
Proof.
  induction l as [|a l IH]; intros Hl; [done|].
  rewrite filter_cons_False by (apply Hl, elem_of_cons; by left).
  apply IH. intros y Hy. apply Hl, elem_of_cons. by right.
Qed.

Lemma filter_unique {A} (P : A → Prop) `{∀ x, Decision (P x)} (l : list A) (x : A) :
  NoDup l → x ∈ l → P x → (∀ y, y ∈ l → P y → y = x) → filter P l = [x].
Proof.
  induction l as [|a l IH]; intros Hnd Hx HP Hu.
  - by apply elem_of_nil in Hx.
  - apply list.NoDup_cons in Hnd as [Ha Hnd].
    assert (Hl : ∀ y, y ∈ l → P y → y = x).
    { intros y Hy. apply Hu. apply elem_of_cons. by right. }
    apply elem_of_cons in Hx as [<-|Hx].
    + rewrite filter_cons_True by done. f_equal.
      apply filter_none. intros y Hy HPy.
      apply Ha. by rewrite <- (Hl y Hy HPy).
    + rewrite filter_cons_False; [by apply IH|].
      intros HPa. apply Ha. rewrite (Hu a); [done | apply elem_of_cons; by left | done].
Qed.

(** An edge of a well-formed graph is listed once by the edge view, in one
    of its two orientations. *)
Lemma edges_between_one G u v :
  wf G → is_Some (edge_ref G u v) →
  edges_between G u v = [(u, v)] ∨ edges_between G u v = [(v, u)].
Proof.
  intros HG H. unfold edges_between.
  destruct (edge_ref_elem_of_edges G u v HG H) as [Hin|Hin]; [left|right].
  - apply filter_unique; [by apply NoDup_edges | done | by left |].
    intros [x y] Hxy [[Hx Hy]|[Hx Hy]]; simpl in *; subst; [done|].
    by rewrite (edges_antisym G u v).
  - apply filter_unique; [by apply NoDup_edges | done | by right |].
    intros [x y] Hxy [[Hx Hy]|[Hx Hy]]; simpl in *; subst; [|done].
    by rewrite (edges_antisym G v u).
Qed.

Lemma edges_between_none G u v :
  wf G → edge_ref G u v = None → edges_between G u v = [].
Proof.
  intros HG H. unfold edges_between. apply filter_none.
  intros [x y] Hxy Hp. simpl in Hp.
  apply elem_of_edges_ref in Hxy as [r Hr]; [|done].
  destruct Hp as [[-> ->]|[-> ->]]; [congruence|].
  apply (wf_sym G HG) in Hr. congruence.
Qed.

(** ** Records of the ingestion layer *)

(** A paper record of [papers.json]. *)
Record paper := {
  paper_id : pystr;
  title : pystr;
  path : pystr
}.

(** A chunk record of [chunks.jsonl] and of the index's [meta]. *)
Record chunk := {
  chunk_id : pystr;
  c_paper_id : pystr;
  c_title : pystr;
  text : pystr
}.

(** [sep.join(parts)] *)
Fixpoint join (sep : pystr) (parts : list pystr) : pystr :=
  match parts with
  | [] => []
  | [s] => s
  | s :: rest => s ++ sep ++ join sep rest
  end.

(** ** The snapshot files *)

(** What opening and parsing a snapshot file gives: the file is not there,
    [json.load] raises on its text, or [json.load] returns a value. *)
Inductive snapshot (A : Type) :=
  | Absent
  | Unreadable
  | Parsed (a : A).
Arguments Absent {A}.
Arguments Unreadable {A}.
Arguments Parsed {A} a.

(** The objects of [graph.json]. A key that is missing is [None]; for the
    keys read with [.get] a JSON [null] is [None] too. *)
Record node_json := {
  nj_id : option pystr;
  nj_label : option pystr;
  nj_type : option pystr
}.

Record edge_json := {
  ej_source : option pystr;
  ej_target : option pystr;
  ej_relation : option pystr;
  ej_weight : option Q
}.

Record graph_json := {
  gj_nodes : option (list node_json);
  gj_edges : option (list edge_json)
}.

(** ** [KnowledgeGraph] *)

(** The dictionary written for a node: [{'id': n, 'label': .., 'type': ..}]. *)
Definition node_to_json (na : pystr * node_attr) : node_json :=
  {| nj_id := Some na.1; nj_label := label na.2; nj_type := type na.2 |}.

(** The dictionary written for an entry [(u, v)] of an edge view:
    [{'source': u, 'target': v, 'relation': .., 'weight': ..}], read from
    [G[u][v]] (which is there for every entry of the view). *)
Definition edge_to_json (G : Graph) (e : pystr * pystr) : option edge_json :=
  match edge_data G e.1 e.2 with
  | Some d => Some {| ej_source := Some e.1; ej_target := Some e.2;
                      ej_relation := relation d; ej_weight := Some (weight d) |}
  | None => None
  end.

(** [KnowledgeGraph._persist]: the value handed to [json.dump]. *)
Definition _persist (G : Graph) : graph_json :=
  {| gj_nodes := Some (node_to_json <$> _node G);
     gj_edges := Some (omap (edge_to_json G) (edges G)) |}.

(** [d[key]] on a JSON object: [KeyError] when the key is missing. *)
Definition required {A} (o : option A) : result A :=
  match o with
  | Some a => Ok a
  | None => Raise KeyError
  end.

(** The two loops of [KnowledgeGraph.load]. *)
Fixpoint load_nodes (G : Graph) (l : list node_json) : result Graph :=
  match l with
  | [] => Ok G
  | node :: l' =>
      match required (nj_id node) with
      | Ok n => load_nodes (add_node G n {| label := nj_label node; type := nj_type node |}) l'
      | Raise e => Raise e
      end
  end.

Fixpoint load_edges (G : Graph) (l : list edge_json) : result Graph :=
  match l with
  | [] => Ok G
  | edge :: l' =>
      match required (ej_source edge) with
      | Ok s =>
          match required (ej_target edge) with
          | Ok t =>
              load_edges
                (add_edge G s t {| relation := ej_relation edge;
                                   weight := default 1%Q (ej_weight edge) |}) l'
          | Raise e => Raise e
          end
      | Raise e => Raise e
      end
  end.

(** [KnowledgeGraph.load]: [G] is the graph of the object before the call,
    [file] is [graph.json]. *)
Definition load (G : Graph) (file : snapshot graph_json) : result Graph :=
  match file with
  | Absent => Ok G
  | Unreadable => Raise JSONDecodeError
  | Parsed data =>
      match load_nodes empty_graph (default [] (gj_nodes data)) with
      | Ok G1 => load_edges G1 (default [] (gj_edges data))
      | Raise e => Raise e
      end
  end.

(** [KnowledgeGraph.subgraph_for_path]: the nodes and edges of
    [self.G.subgraph(path)]. networkx lists them in an order of its own;
    here they are in the order of [G]. *)
Definition subgraph_for_path (G : Graph) (path : list pystr)
  : list node_json * list edge_json :=
  let sub_nodes := filter (λ na, na.1 ∈ path) (_node G) in
  let sub_edges := filter (λ e, e.1 ∈ path ∧ e.2 ∈ path) (edges G) in
  (node_to_json <$> sub_nodes, omap (edge_to_json G) sub_edges).

(** *** [KnowledgeGraph.build] *)

Definition KEYPHRASE_MAX : nat := 15.

(** One mutation of [self.G] made by [build]. *)
Inductive call :=
  | AddNode (n : pystr) (a : node_attr)
    (** [self.G.add_node(n, ..)] *)
  | AddConcept (n : pystr) (a : node_attr)
    (** [if not self.G.has_node(n): self.G.add_node(n, ..)] *)
  | AddEdge (s t : pystr) (rel : pystr) (w : Q).
    (** [self._add_edge(s, t, rel, w)] *)

Definition run_call (G : Graph) (c : call) : Graph :=
  match c with
  | AddNode n a => add_node G n a
  | AddConcept n a => if has_node G n then G else add_node G n a
  | AddEdge s t rel w => _add_edge G s t rel w
  end.

Definition run_calls (G : Graph) (cs : list call) : Graph := fold_left run_call cs G.

(** [len(set1 & set2)] for two lists of phrases. *)
Definition shared (kws1 kws2 : list pystr) : list pystr :=
  remove_dups (filter (λ kw, kw ∈ kws2) kws1).

(** The pairs [(papers[i], papers[j])], [i < j], in the order of the two
    nested [range] loops. *)
Fixpoint pairs {A} (l : list A) : list (A * A) :=
  match l with
  | [] => []
  | p :: rest => ((λ q, (p, q)) <$> rest) ++ pairs rest
  end.

Section build.

(** [yake.KeywordExtractor(n=1, top=KEYPHRASE_MAX).extract_keywords], its
    scores dropped, and [str.lower]. *)
Variable extract_keywords : pystr → list pystr.
Variable lower : pystr → pystr.

(** [f"concept::{kw.lower()}"] *)
Definition concept_id (kw : pystr) : pystr := lit "concept::" ++ lower kw.

(** The phrases of one paper: the first ten chunks of the paper, joined by
    a space, go to the extractor. *)
Definition keyphrases (chunks : list chunk) (pid : pystr) : list pystr :=
  let p_chunks := filter (λ c, c_paper_id c = pid) chunks in
  let joined := join (lit " ") (text <$> take 10 p_chunks) in
  extract_keywords joined.

(** The first loop: a node per paper. *)
Definition build_papers (G : Graph) (papers : list paper) : Graph :=
  fold_left (λ G p,
    add_node G (paper_id p) {| label := Some (title p); type := Some (lit "paper") |})
    papers G.

(** The inner loop over the phrases of paper [pid]. *)
Definition build_mentions (G : Graph) (pid : pystr) (kws : list pystr) : Graph :=
  fold_left (λ G kw,
    let node_id := concept_id kw in
    let G1 :=
      if has_node G node_id then G
      else add_node G node_id {| label := Some kw; type := Some (lit "concept") |} in
    _add_edge G1 pid node_id (lit "mentions") 1%Q)
    kws G.

(** The second loop: the graph and the dictionary [paper_phrases]. *)
Definition build_concepts (G : Graph) (papers : list paper) (chunks : list chunk)
  : Graph * list (pystr * list pystr) :=
  fold_left (λ '(G, paper_phrases) p,
    let kws := keyphrases chunks (paper_id p) in
    (build_mentions G (paper_id p) kws, dict_set (paper_id p) kws paper_phrases))
    papers (G, []).

(** The third loop: a [related] edge per pair of papers that share a
    phrase. *)
Definition build_related (G : Graph) (papers : list paper)
  (paper_phrases : list (pystr * list pystr)) : Graph :=
  fold_left (λ G '(p, q),
    let p1 := paper_id p in
    let p2 := paper_id q in
    let set1 := default [] (dict_get p1 paper_phrases) in
    let set2 := default [] (dict_get p2 paper_phrases) in
    let inter := shared set1 set2 in
    match inter with
    | [] => G
    | _ => _add_edge G p1 p2 (lit "related") (inject_Z (Z.of_nat (length inter)))
    end)
    (pairs papers) G.

(** The graph [build] leaves in [self.G]. *)
Definition build_graph (G : Graph) (papers : list paper) (chunks : list chunk) : Graph :=
  let G1 := build_papers G papers in
  let '(G2, paper_phrases) := build_concepts G1 papers chunks in
  build_related G2 papers paper_phrases.

(** [KnowledgeGraph.build]: the new graph and the new [graph.json]. *)
Definition build (G : Graph) (papers : list paper) (chunks : list chunk)
  : Graph * snapshot graph_json :=
  let G' := build_graph G papers chunks in
  (G', Parsed (_persist G')).

(** The calls [build] makes on [self.G], in order. *)
Definition paper_calls (papers : list paper) : list call :=
  (λ p, AddNode (paper_id p) {| label := Some (title p); type := Some (lit "paper") |})
    <$> papers.

Definition mention_calls (pid : pystr) (kws : list pystr) : list call :=
  kws ≫= λ kw,
    [AddConcept (concept_id kw) {| label := Some kw; type := Some (lit "concept") |};
     AddEdge pid (concept_id kw) (lit "mentions") 1%Q].

Definition concept_calls (papers : list paper) (chunks : list chunk) : list call :=
  papers ≫= λ p, mention_calls (paper_id p) (keyphrases chunks (paper_id p)).

Definition related_call (chunks : list chunk) (pq : paper * paper) : list call :=
  match shared (keyphrases chunks (paper_id pq.1)) (keyphrases chunks (paper_id pq.2)) with
  | [] => []
  | inter => [AddEdge (paper_id pq.1) (paper_id pq.2) (lit "related")
               (inject_Z (Z.of_nat (length inter)))]
  end.

Definition related_calls (papers : list paper) (chunks : list chunk) : list call :=
  pairs papers ≫= related_call chunks.

Definition build_calls (papers : list paper) (chunks : list chunk) : list call :=
  paper_calls papers ++ concept_calls papers chunks ++ related_calls papers chunks.

(** *** [build] as the run of its calls *)

Lemma run_calls_app G cs1 cs2 :
  run_calls G (cs1 ++ cs2) = run_calls (run_calls G cs1) cs2.
Proof. apply fold_left_app. Qed.

Lemma build_papers_run G papers :
  build_papers G papers = run_calls G (paper_calls papers).
Proof.
  revert G. induction papers as [|p papers IH]; intros G; [done|].
  apply IH.
Qed.

Lemma build_mentions_run G pid kws :
  build_mentions G pid kws = run_calls G (mention_calls pid kws).
Proof.
  revert G. induction kws as [|kw kws IH]; intros G; [done|].
  apply IH.
Qed.

(** The dictionary [paper_phrases] after the second loop. *)
Definition phrases_of (chunks : list chunk) (papers : list paper)
  (d : list (pystr * list pystr)) : list (pystr * list pystr) :=
  fold_left (λ d p, dict_set (paper_id p) (keyphrases chunks (paper_id p)) d) papers d.

Lemma build_concepts_run_gen G d papers chunks :
  fold_left (λ '(G, paper_phrases) p,
    let kws := keyphrases chunks (paper_id p) in
    (build_mentions G (paper_id p) kws, dict_set (paper_id p) kws paper_phrases))
    papers (G, d)
  = (run_calls G (concept_calls papers chunks), phrases_of chunks papers d).
Proof.
  revert G d. induction papers as [|p papers IH]; intros G d; [done|].
  cbn [fold_left]. rewrite IH. unfold concept_calls. rewrite bind_cons, run_calls_app.
  by rewrite build_mentions_run.
Qed.

Lemma phrases_of_get chunks papers d k :
  dict_get k (phrases_of chunks papers d)
  = if decide (k ∈ paper_id <$> papers) then Some (keyphrases chunks k) else dict_get k d.
Proof.
  revert d. induction papers as [|p papers IH]; intros d; simpl.
  - done.
  - rewrite IH.
    destruct (decide (k ∈ paper_id <$> papers)) as [Hin|Hn].
    + rewrite decide_True; [done | apply elem_of_cons; by right].
    + destruct (decide (k = paper_id p)) as [->|Hk].
      * rewrite decide_True by (apply elem_of_cons; by left).
        apply dict_get_set_eq.
      * rewrite decide_False by (rewrite elem_of_cons; tauto).
        by apply dict_get_set_ne.
Qed.

Lemma elem_of_pairs {A} (l : list A) (p q : A) :
  (p, q) ∈ pairs l → p ∈ l ∧ q ∈ l.
Proof.
  induction l as [|a l IH]; simpl.
  - intros H. by apply elem_of_nil in H.
  - rewrite elem_of_app. intros [H|H].
    + apply list_elem_of_fmap in H as (y & [= -> ->] & Hy).
      split; apply elem_of_cons; [by left | by right].
    + apply IH in H as [? ?]. split; apply elem_of_cons; by right.
Qed.

Lemma build_related_run_gen G chunks d (ps : list (paper * paper)) :
  (∀ p q, (p, q) ∈ ps →
     dict_get (paper_id p) d = Some (keyphrases chunks (paper_id p))
     ∧ dict_get (paper_id q) d = Some (keyphrases chunks (paper_id q))) →
  fold_left (λ G '(p, q),
    let p1 := paper_id p in
    let p2 := paper_id q in
    let set1 := default [] (dict_get p1 d) in
    let set2 := default [] (dict_get p2 d) in
    let inter := shared set1 set2 in
    match inter with
    | [] => G
    | _ => _add_edge G p1 p2 (lit "related") (inject_Z (Z.of_nat (length inter)))
    end) ps G
  = run_calls G (ps ≫= related_call chunks).
Proof.
  revert G. induction ps as [|[p q] ps IH]; intros G Hd; [done|].
  cbn [fold_left]. rewrite IH.
  2:{ intros p' q' H. apply Hd. apply elem_of_cons. by right. }
  rewrite bind_cons, run_calls_app. f_equal.
  destruct (Hd p q) as [-> ->]; [apply elem_of_cons; by left|].
  unfold related_call. simpl.
  by destruct (shared _ _).
Qed.

Lemma build_graph_run G papers chunks :
  build_graph G papers chunks = run_calls G (build_calls papers chunks).
Proof.
  unfold build_graph, build_concepts, build_calls.
  rewrite build_concepts_run_gen, build_papers_run, !run_calls_app.
  apply build_related_run_gen.
  intros p q H. apply elem_of_pairs in H as [Hp Hq].
  rewrite !phrases_of_get, !decide_True; [done | |].
  - by apply list_elem_of_fmap_2.
  - by apply list_elem_of_fmap_2.
Qed.

(** *** What a call keeps *)

(** A call whose weight, if it has one, is positive. *)
Definition call_positive (c : call) : Prop :=
  match c with
  | AddEdge _ _ _ w => (0 < w)%Q
  | _ => True
  end.

(** Every edge of [G] is an edge of [G'], with the same relation. *)
Definition edges_kept (G G' : Graph) : Prop :=
  ∀ u v d, edge_data G u v = Some d →
    ∃ d', edge_data G' u v = Some d' ∧ relation d' = relation d.

(** Every edge of [G] is an edge of [G'], and weighs at least as much. *)
Definition edges_grow (G G' : Graph) : Prop :=
  ∀ u v d, edge_data G u v = Some d →
    ∃ d', edge_data G' u v = Some d' ∧ (weight d <= weight d')%Q.

Lemma wf_run_call G c : wf G → wf (run_call G c).
Proof.
  intros HG. destruct c as [n a|n a|s t rel w]; simpl.
  - by apply wf_add_node.
  - destruct (has_node G n); [done | by apply wf_add_node].
  - by apply wf__add_edge.
Qed.

Lemma wf_run_calls G cs : wf G → wf (run_calls G cs).
Proof.
  revert G. induction cs as [|c cs IH]; intros G HG; [done|].
  apply IH. by apply wf_run_call.
Qed.

Lemma edge_data_merge G s t rel w u v d :
  wf G → edge_data G u v = Some d →
  edge_data (_add_edge G s t rel w) u v
  = Some (if decide (same_pair s t u v) then add_weight w d else d).
Proof.
  intros HG Hd. rewrite edge_data__add_edge by done.
  destruct (decide (same_pair s t u v)) as [Hp|Hp]; [|done].
  unfold merged. replace (edge_data G s t) with (Some d); [done|].
  destruct Hp as [[-> ->]|[-> ->]]; [done|].
  by rewrite wf_edge_data_sym.
Qed.

Lemma edges_kept_run_call G c : wf G → edges_kept G (run_call G c).
Proof.
  intros HG u v d Hd. destruct c as [n a|n a|s t rel w]; simpl.
  - exists d. by rewrite edge_data_add_node.
  - exists d. destruct (has_node G n); [done | by rewrite edge_data_add_node].
  - rewrite (edge_data_merge G s t rel w u v d) by done.
    eexists; split; [done|]. by destruct (decide _).
Qed.

Lemma edges_grow_run_call G c : wf G → call_positive c → edges_grow G (run_call G c).
Proof.
  intros HG Hc u v d Hd. destruct c as [n a|n a|s t rel w]; simpl in *.
  - exists d. rewrite edge_data_add_node by done. split; [done | lra].
  - exists d. split; [|lra].
    destruct (has_node G n); [done | by rewrite edge_data_add_node].
  - rewrite (edge_data_merge G s t rel w u v d) by done.
    eexists; split; [done|]. destruct (decide _); simpl; lra.
Qed.

Lemma edges_kept_run_calls G cs : wf G → edges_kept G (run_calls G cs).
Proof.
  revert G. induction cs as [|c cs IH]; intros G HG u v d Hd.
  - by exists d.
  - destruct (edges_kept_run_call G c HG u v d Hd) as (d1 & H1 & R1).
    destruct (IH (run_call G c) (wf_run_call G c HG) u v d1 H1) as (d2 & H2 & R2).
    exists d2. split; [done | congruence].
Qed.

Lemma edges_grow_run_calls G cs :
  wf G → Forall call_positive cs → edges_grow G (run_calls G cs).
Proof.
  revert G. induction cs as [|c cs IH]; intros G HG Hcs u v d Hd.
  - exists d. split; [done | lra].
  - apply list.Forall_cons in Hcs as [Hc Hcs].
    destruct (edges_grow_run_call G c HG Hc u v d Hd) as (d1 & H1 & R1).
    destruct (IH (run_call G c) (wf_run_call G c HG) Hcs u v d1 H1) as (d2 & H2 & R2).
    exists d2. split; [done | lra].
Qed.

Lemma positive_length {A} (l : list A) : l ≠ [] → (0 < inject_Z (Z.of_nat (length l)))%Q.
Proof.
  intros Hl. change 0%Q with (inject_Z 0). rewrite <- Zlt_Qlt.
  destruct l; [done | simpl; lia].
Qed.

Lemma build_calls_positive papers chunks :
  Forall call_positive (build_calls papers chunks).
Proof.
  unfold build_calls. rewrite !Forall_app. split_and!.
  - apply Forall_fmap, Forall_true. by intros p.
  - apply Forall_bind, Forall_true. intros p.
    apply Forall_bind, Forall_true. intros kw.
    repeat constructor.
  - apply Forall_bind, Forall_true. intros [p q]. unfold related_call. simpl.
    destruct (shared (keyphrases chunks (paper_id p)) (keyphrases chunks (paper_id q)))
      as [|kw inter]; [constructor|].
    constructor; [|constructor]. by apply (positive_length (kw :: inter)).
Qed.

(** *** What a call leaves alone *)

(** The call merges onto, or creates, the edge between [u] and [v]. *)
Definition call_touches (u v : pystr) (c : call) : Prop :=
  match c with
  | AddEdge s t _ _ => same_pair s t u v
  | _ => False
  end.

Lemma edge_data_run_call_frame G c u v :
  wf G → ¬ call_touches u v c → edge_data (run_call G c) u v = edge_data G u v.
Proof.
  intros HG Hc. destruct c as [n a|n a|s t rel w]; simpl in *.
  - by apply edge_data_add_node.
  - destruct (has_node G n); [done | by apply edge_data_add_node].
  - rewrite edge_data__add_edge by done. by rewrite decide_False.
Qed.

Lemma edge_data_run_calls_frame G cs u v :
  wf G → Forall (λ c, ¬ call_touches u v c) cs →
  edge_data (run_calls G cs) u v = edge_data G u v.
Proof.
  revert G. induction cs as [|c cs IH]; intros G HG Hcs; [done|].
  apply list.Forall_cons in Hcs as [Hc Hcs]. simpl.
  rewrite IH by (by apply wf_run_call || done).
  by apply edge_data_run_call_frame.
Qed.

Lemma nodes_run_call_mono G c x : wf G → x ∈ nodes G → x ∈ nodes (run_call G c).
Proof.
  intros HG Hx. destruct c as [n a|n a|s t rel w]; simpl.
  - apply elem_of_nodes_add_node. by right.
  - destruct (has_node G n); [done|]. apply elem_of_nodes_add_node. by right.
  - apply nodes__add_edge; [done|]. by right; right.
Qed.

Lemma nodes_run_calls_mono G cs x : wf G → x ∈ nodes G → x ∈ nodes (run_calls G cs).
Proof.
  revert G. induction cs as [|c cs IH]; intros G HG Hx; [done|].
  apply IH; [by apply wf_run_call | by apply nodes_run_call_mono].
Qed.

Lemma nodes_paper_calls G papers p :
  wf G → p ∈ papers → paper_id p ∈ nodes (run_calls G (paper_calls papers)).
Proof.
  revert G. induction papers as [|q papers IH]; intros G HG Hp.
  - by apply elem_of_nil in Hp.
  - simpl. apply elem_of_cons in Hp as [->|Hp].
    + apply nodes_run_calls_mono; [by apply wf_add_node|].
      apply elem_of_nodes_add_node. by left.
    + apply IH; [by apply wf_add_node | done].
Qed.

(** *** The pairs of a list without repetition *)

Lemma elem_of_pairs_ne {A} (l : list A) (p q : A) :
  NoDup l → (p, q) ∈ pairs l → p ≠ q.
Proof.
  induction l as [|a l IH]; simpl; intros Hnd.
  - intros H. by apply elem_of_nil in H.
  - apply list.NoDup_cons in Hnd as [Ha Hnd].
    rewrite elem_of_app. intros [H|H].
    + apply list_elem_of_fmap in H as (y & [= -> ->] & Hy). by intros ->.
    + by apply IH.
Qed.

Lemma pairs_antisym {A} (l : list A) (p q : A) :
  NoDup l → (p, q) ∈ pairs l → (q, p) ∉ pairs l.
Proof.
  induction l as [|a l IH]; simpl; intros Hnd.
  - intros H. by apply elem_of_nil in H.
  - apply list.NoDup_cons in Hnd as [Ha Hnd].
    rewrite !elem_of_app. intros [H|H] [H'|H'].
    + apply list_elem_of_fmap in H as (y & [= -> ->] & Hy).
      apply list_elem_of_fmap in H' as (y' & [= -> ->] & Hy'). done.
    + apply list_elem_of_fmap in H as (y & [= -> ->] & Hy).
      apply elem_of_pairs in H' as [_ H']. done.
    + apply list_elem_of_fmap in H' as (y & [= -> ->] & Hy).
      apply elem_of_pairs in H as [_ H]. done.
    + by apply (IH Hnd H).
Qed.

Lemma NoDup_pairs {A} (l : list A) : NoDup l → NoDup (pairs l).
Proof.
  induction l as [|a l IH]; simpl; intros Hnd.
  - apply NoDup_nil_2.
  - apply list.NoDup_cons in Hnd as [Ha Hnd].
    apply list.NoDup_app. split_and!.
    + apply NoDup_fmap_2; [by intros x y [= ->] | done].
    + intros [x y] H H'.
      apply list_elem_of_fmap in H as (y' & [= -> ->] & Hy).
      apply elem_of_pairs in H' as [H' _]. done.
    + by apply IH.
Qed.

Lemma NoDup_fmap_eq {A B} (f : A → B) (l : list A) (x y : A) :
  NoDup (f <$> l) → x ∈ l → y ∈ l → f x = f y → x = y.
Proof.
  induction l as [|a l IH]; simpl; intros Hnd Hx Hy Hf.
  - by apply elem_of_nil in Hx.
  - apply list.NoDup_cons in Hnd as [Ha Hnd].
    apply elem_of_cons in Hx as [->|Hx]; apply elem_of_cons in Hy as [->|Hy].
    + done.
    + exfalso. apply Ha. rewrite Hf. by apply list_elem_of_fmap_2.
    + exfalso. apply Ha. rewrite <- Hf. by apply list_elem_of_fmap_2.
    + by apply IH.
Qed.

(** *** The edges between papers after [build] *)

Section related.

Variable papers : list paper.
Variable chunks : list chunk.

(** The ids of the papers are distinct, and none of them is the id of a
    concept node. *)
Hypothesis ids_nodup : NoDup (paper_id <$> papers).
Hypothesis ids_not_concepts : ∀ p q kw,
  p ∈ papers → q ∈ papers → kw ∈ keyphrases chunks (paper_id q) →
  paper_id p ≠ concept_id kw.

Lemma papers_nodup : NoDup papers.
Proof using ids_nodup. by apply NoDup_fmap_1 in ids_nodup. Qed.

Lemma paper_calls_frame u v :
  Forall (λ c, ¬ call_touches u v c) (paper_calls papers).
Proof. apply Forall_fmap, Forall_true. intros p. simpl. tauto. Qed.

Lemma concept_calls_frame p q :
  p ∈ papers → q ∈ papers →
  Forall (λ c, ¬ call_touches (paper_id p) (paper_id q) c) (concept_calls papers chunks).
Proof using ids_not_concepts.
  intros Hp Hq. apply Forall_bind, list.Forall_forall. intros p' Hp'.
  apply Forall_bind, list.Forall_forall. intros kw Hkw.
  constructor; [simpl; tauto|]. constructor; [|constructor]. simpl.
  intros [[E1 E2]|[E1 E2]].
  - by apply (ids_not_concepts q p' kw).
  - by apply (ids_not_concepts p p' kw).
Qed.

Lemma related_call_frame p q p' q' :
  ¬ same_pair (paper_id p') (paper_id q') (paper_id p) (paper_id q) →
  Forall (λ c, ¬ call_touches (paper_id p) (paper_id q) c) (related_call chunks (p', q')).
Proof.
  intros Hn. unfold related_call. simpl.
  destruct (shared _ _); constructor; [done | constructor].
Qed.

Lemma related_calls_self_frame p :
  p ∈ papers →
  Forall (λ c, ¬ call_touches (paper_id p) (paper_id p) c) (related_calls papers chunks).
Proof using ids_nodup.
  intros Hp. apply Forall_bind, list.Forall_forall. intros [p' q'] Hpq.
  apply related_call_frame. intros [[E1 E2]|[E1 E2]].
  - apply (elem_of_pairs_ne papers p' q' papers_nodup Hpq).
    apply elem_of_pairs in Hpq as [? ?].
    apply (NoDup_fmap_eq paper_id papers); [done..|congruence].
  - apply (elem_of_pairs_ne papers p' q' papers_nodup Hpq).
    apply elem_of_pairs in Hpq as [? ?].
    apply (NoDup_fmap_eq paper_id papers); [done..|congruence].
Qed.

Lemma related_calls_other_frame p q p' q' :
  (p, q) ∈ pairs papers → (p', q') ∈ pairs papers → (p', q') ≠ (p, q) →
  Forall (λ c, ¬ call_touches (paper_id p) (paper_id q) c) (related_call chunks (p', q')).
Proof using ids_nodup.
  intros Hpq Hpq' Hne. apply related_call_frame.
  pose proof (elem_of_pairs _ _ _ Hpq) as [Hp Hq].
  pose proof (elem_of_pairs _ _ _ Hpq') as [Hp' Hq'].
  intros [[E1 E2]|[E1 E2]].
  - apply Hne. f_equal; apply (NoDup_fmap_eq paper_id papers); done.
  - apply (NoDup_fmap_eq paper_id papers) in E1; [|done..].
    apply (NoDup_fmap_eq paper_id papers) in E2; [|done..]. subst.
    by apply (pairs_antisym papers p' q' papers_nodup).
Qed.

(** The weight [float(len(inter))] of the pair. *)
Definition related_attr (p q : paper) : option edge_attr :=
  match shared (keyphrases chunks (paper_id p)) (keyphrases chunks (paper_id q)) with
  | [] => None
  | inter => Some {| relation := Some (lit "related");
                     weight := inject_Z (Z.of_nat (length inter)) |}
  end.

Lemma related_call_data G p q :
  wf G → edge_data G (paper_id p) (paper_id q) = None →
  edge_data (run_calls G (related_call chunks (p, q))) (paper_id p) (paper_id q)
  = related_attr p q.
Proof.
  intros HG Hd. unfold related_call, related_attr. simpl.
  destruct (shared _ _) as [|kw inter]; [done|]. simpl.
  rewrite edge_data__add_edge by done.
  rewrite decide_True by apply same_pair_refl.
  unfold merged. by rewrite Hd.
Qed.

Lemma related_calls_data G p q :
  wf G → edge_data G (paper_id p) (paper_id q) = None →
  (p, q) ∈ pairs papers →
  edge_data (run_calls G (related_calls papers chunks)) (paper_id p) (paper_id q)
  = related_attr p q.
Proof using ids_nodup.
  intros HG Hd Hpq. unfold related_calls.
  pose proof (NoDup_pairs papers papers_nodup) as Hnd.
  destruct (list_elem_of_split _ _ Hpq) as (l1 & l2 & Hl).
  assert (H1 : ∀ x, x ∈ l1 → x ∈ pairs papers ∧ x ≠ (p, q)).
  { intros x Hx. rewrite Hl in Hnd |- *. split.
    - apply elem_of_app. by left.
    - intros ->. apply list.NoDup_app in Hnd as (_ & Hnd & _).
      apply (Hnd _ Hx). apply elem_of_cons. by left. }
  assert (H2 : ∀ x, x ∈ l2 → x ∈ pairs papers ∧ x ≠ (p, q)).
  { intros x Hx. rewrite Hl in Hnd |- *. split.
    - apply elem_of_app. right. apply elem_of_cons. by right.
    - intros ->. apply list.NoDup_app in Hnd as (_ & _ & Hnd).
      by apply list.NoDup_cons in Hnd as [Hnd _]. }
  rewrite Hl, bind_app, bind_cons, !run_calls_app.
  rewrite edge_data_run_calls_frame.
  - apply related_call_data; [by apply wf_run_calls|].
    rewrite edge_data_run_calls_frame; [done..|].
    apply Forall_bind, list.Forall_forall. intros [p' q'] Hx.
    destruct (H1 _ Hx). by apply related_calls_other_frame.
  - by do 2 apply wf_run_calls.
  - apply Forall_bind, list.Forall_forall. intros [p' q'] Hx.
    destruct (H2 _ Hx). by apply related_calls_other_frame.
Qed.

(** The edge between two papers in the graph built from an empty one. *)
Lemma build_graph_related p q :
  (p, q) ∈ pairs papers →
  edge_data (build_graph empty_graph papers chunks) (paper_id p) (paper_id q)
  = related_attr p q.
Proof using ids_nodup ids_not_concepts.
  intros Hpq. pose proof (elem_of_pairs _ _ _ Hpq) as [Hp Hq].
  rewrite build_graph_run. unfold build_calls. rewrite !run_calls_app.
  apply related_calls_data; [| |done].
  - do 2 apply wf_run_calls. apply wf_empty_graph.
  - rewrite !edge_data_run_calls_frame; try done.
    + apply wf_empty_graph.
    + apply paper_calls_frame.
    + apply wf_run_calls, wf_empty_graph.
    + by apply concept_calls_frame.
Qed.

Lemma build_graph_no_loop p :
  p ∈ papers →
  edge_data (build_graph empty_graph papers chunks) (paper_id p) (paper_id p) = None.
Proof using ids_nodup ids_not_concepts.
  intros Hp. rewrite build_graph_run. unfold build_calls.
  rewrite edge_data_run_calls_frame; [done | apply wf_empty_graph |].
  rewrite !Forall_app. split_and!.
  - apply paper_calls_frame.
  - by apply concept_calls_frame.
  - by apply related_calls_self_frame.
Qed.

Lemma wf_build_graph G : wf G → wf (build_graph G papers chunks).
Proof. intros HG. rewrite build_graph_run. by apply wf_run_calls. Qed.

Lemma build_graph_paper_node p :
  p ∈ papers → paper_id p ∈ nodes (build_graph empty_graph papers chunks).
Proof.
  intros Hp. rewrite build_graph_run. unfold build_calls. rewrite !run_calls_app.
  do 2 (apply nodes_run_calls_mono; [repeat apply wf_run_calls; apply wf_empty_graph|]).
  apply nodes_paper_calls; [apply wf_empty_graph | done].
Qed.

(** *** The subgraph over two papers *)

Lemma filter_ext_in {A} (P Q : A → Prop) `{∀ x, Decision (P x)} `{∀ x, Decision (Q x)}
    (l : list A) :
  (∀ x, x ∈ l → P x ↔ Q x) → filter P l = filter Q l.
Proof.
  induction l as [|a l IH]; intros Hl; [done|].
  assert (IH' : filter P l = filter Q l).
  { apply IH. intros x Hx. apply Hl, elem_of_cons. by right. }
  destruct (decide (P a)) as [HP|HP].
  - rewrite !filter_cons_True; [by f_equal | by apply Hl; [left|] | done].
  - rewrite !filter_cons_False; [done | | done].
    intros HQ. apply HP. apply Hl; [by left | done].
Qed.

Lemma keys_filter_fst {V} (path : list pystr) (d : list (pystr * V)) :
  keys (filter (λ na, na.1 ∈ path) d) = filter (λ n, n ∈ path) (keys d).
Proof.
  induction d as [|[n a] d IH]; [done|]. simpl.
  destruct (decide (n ∈ path)) as [Hn|Hn].
  - rewrite !filter_cons_True by done. simpl. by f_equal.
  - by rewrite !filter_cons_False.
Qed.

Lemma subgraph_nodes_length G (path : list pystr) :
  wf G → NoDup path → (∀ n, n ∈ path → n ∈ nodes G) →
  length (subgraph_for_path G path).1 = length path.
Proof.
  intros HG Hnd Hin. unfold subgraph_for_path. simpl.
  rewrite length_fmap.
  rewrite <- (length_fmap fst). fold (keys (filter (λ na, na.1 ∈ path) (_node G))).
  rewrite keys_filter_fst. apply Permutation_length.
  apply NoDup_Permutation; [apply list.NoDup_filter, HG | done |].
  intros n. rewrite list_elem_of_filter. split; [tauto|].
  intros Hn. split; [done | by apply Hin].
Qed.

Lemma subgraph_edges_two G a b d :
  wf G → edge_data G a b = Some d →
  edge_data G a a = None → edge_data G b b = None →
  ∃ u v, same_pair a b u v ∧
    (subgraph_for_path G [a; b]).2
    = [ {| ej_source := Some u; ej_target := Some v;
           ej_relation := relation d; ej_weight := Some (weight d) |} ].
Proof.
  intros HG Hd Ha Hb. unfold subgraph_for_path. simpl.
  assert (Hno : ∀ n, edge_data G n n = None → (n, n) ∉ edges G).
  { intros n Hn Hin. apply elem_of_edges_ref in Hin as [r Hr]; [|done].
    destruct (wf_edge_data G n n r HG Hr) as [? ?]. congruence. }
  assert (Hf : filter (λ e, e.1 ∈ [a; b] ∧ e.2 ∈ [a; b]) (edges G) = edges_between G a b).
  { unfold edges_between. apply filter_ext_in. intros [x y] Hxy. simpl.
    rewrite !elem_of_cons, !elem_of_nil. unfold same_pair. split.
    - intros [[->|[->|[]]] [->|[->|[]]]]; [|tauto|tauto|].
      + by apply Hno in Hxy.
      + by apply Hno in Hxy.
    - intros [[-> ->]|[-> ->]]; tauto. }
  rewrite Hf.
  assert (Hr : is_Some (edge_ref G a b)).
  { unfold edge_data in Hd. destruct (edge_ref G a b); [eauto | done]. }
  destruct (edges_between_one G a b HG Hr) as [->| ->]; simpl; unfold edge_to_json; simpl.
  - rewrite Hd. exists a, b. split; [by left | done].
  - rewrite wf_edge_data_sym, Hd by done. exists b, a. split; [by right | done].
Qed.

(** C7. Built from an empty graph, over papers with distinct ids that are
    not concept ids: two papers whose phrase sets intersect are joined by
    one [related] edge whose weight is the size of the intersection, and
    the subgraph over the two of them has two nodes and that one edge; two
    papers whose phrase sets are disjoint are not joined. *)
Theorem build_related_edges p q :
  (p, q) ∈ pairs papers →
  let G := (build empty_graph papers chunks).1 in
  let inter := shared (keyphrases chunks (paper_id p)) (keyphrases chunks (paper_id q)) in
  let related := {| relation := Some (lit "related");
                    weight := inject_Z (Z.of_nat (length inter)) |} in
  (inter ≠ [] →
     edge_data G (paper_id p) (paper_id q) = Some related
     ∧ edge_data G (paper_id q) (paper_id p) = Some related
     ∧ length (edges_between G (paper_id p) (paper_id q)) = 1
     ∧ length (subgraph_for_path G [paper_id p; paper_id q]).1 = 2
     ∧ ∃ u v, same_pair (paper_id p) (paper_id q) u v ∧
         (subgraph_for_path G [paper_id p; paper_id q]).2
         = [ {| ej_source := Some u; ej_target := Some v;
                ej_relation := Some (lit "related");
                ej_weight := Some (inject_Z (Z.of_nat (length inter))) |} ])
  ∧ (inter = [] →
     has_edge G (paper_id p) (paper_id q) = false
     ∧ has_edge G (paper_id q) (paper_id p) = false
     ∧ edges_between G (paper_id p) (paper_id q) = []).
Proof using ids_nodup ids_not_concepts.
  intros Hpq G inter related.
  pose proof (elem_of_pairs _ _ _ Hpq) as [Hp Hq].
  assert (HG : wf G) by apply wf_build_graph, wf_empty_graph.
  assert (Hd : edge_data G (paper_id p) (paper_id q) = related_attr p q)
    by by apply build_graph_related.
  assert (Hne : paper_id p ≠ paper_id q).
  { intros E. apply (elem_of_pairs_ne papers p q papers_nodup Hpq).
    by apply (NoDup_fmap_eq paper_id papers). }
  unfold related_attr in Hd. fold inter in Hd. split.
  - intros Hi. destruct inter as [|kw inter'] eqn:Ei; [done|].
    split_and!.
    + done.
    + by rewrite wf_edge_data_sym.
    + assert (Hr : is_Some (edge_ref G (paper_id p) (paper_id q))).
      { unfold edge_data in Hd. destruct (edge_ref G _ _); [eauto | done]. }
      by destruct (edges_between_one G _ _ HG Hr) as [-> | ->].
    + rewrite subgraph_nodes_length; [done | done | |].
      * apply NoDup_cons_2; [|apply NoDup_singleton].
        intros E%list_elem_of_singleton. by apply Hne.
      * intros n Hn. apply elem_of_cons in Hn as [->|Hn].
        { by apply build_graph_paper_node. }
        apply list_elem_of_singleton in Hn as ->.
        by apply build_graph_paper_node.
    + apply (subgraph_edges_two G _ _ related HG Hd); by apply build_graph_no_loop.
  - intros Hi. rewrite Hi in Hd.
    assert (Hr : edge_ref G (paper_id p) (paper_id q) = None).
    { destruct (edge_ref G (paper_id p) (paper_id q)) as [r|] eqn:E; [|done].
      destruct (wf_edge_data G _ _ r HG E) as [? ?]. congruence. }
    split_and!.
    + by apply has_edge_false.
    + apply has_edge_false.
      destruct (edge_ref G (paper_id q) (paper_id p)) as [r|] eqn:E; [|done].
      apply (wf_sym G HG) in E. congruence.
    + by apply edges_between_none.
Qed.

End related.

(** *** Accumulation of weights and the relation of an edge *)

(** C3. Two [_add_edge] calls on a pair that is not joined yet, the second
    in either orientation, leave one edge: its weight is the sum of the two
    weights and the edge view lists it once. Every [_add_edge] call of a
    build has a positive weight, and between any two moments of a build no
    edge is lost or gets lighter. *)
Theorem weight_accumulation G a b x y rel1 rel2 w1 w2 :
  wf G →
  (has_edge G a b = false → same_pair a b x y →
     let G2 := _add_edge (_add_edge G a b rel1 w1) x y rel2 w2 in
     edge_data G2 a b = Some {| relation := Some rel1; weight := (w1 + w2)%Q |}
     ∧ edge_data G2 b a = Some {| relation := Some rel1; weight := (w1 + w2)%Q |}
     ∧ length (edges_between G2 a b) = 1)
  ∧ (∀ papers chunks,
       (build G papers chunks).1 = run_calls G (build_calls papers chunks)
       ∧ Forall call_positive (build_calls papers chunks)
       ∧ ∀ cs1 cs2 cs3, build_calls papers chunks = cs1 ++ cs2 ++ cs3 →
           edges_grow (run_calls G cs1) (run_calls G (cs1 ++ cs2))).
Proof.
  intros HG. split.
  - intros Hab Hp G2.
    assert (H1 : wf (_add_edge G a b rel1 w1)) by by apply wf__add_edge.
    assert (Hd1 : edge_data (_add_edge G a b rel1 w1) a b
                  = Some {| relation := Some rel1; weight := w1 |}).
    { rewrite edge_data__add_edge by done.
      rewrite decide_True by apply same_pair_refl. unfold merged, edge_data.
      apply has_edge_false in Hab. by rewrite Hab. }
    assert (Hd2 : edge_data G2 a b
                  = Some {| relation := Some rel1; weight := (w1 + w2)%Q |}).
    { unfold G2. rewrite (edge_data_merge _ x y rel2 w2 a b _ H1 Hd1).
      rewrite decide_True; [done|].
      destruct Hp as [[-> ->]|[-> ->]]; [by left | by right]. }
    assert (H2 : wf G2) by by apply wf__add_edge.
    split_and!; [done | by rewrite wf_edge_data_sym |].
    assert (Hr : is_Some (edge_ref G2 a b)).
    { unfold edge_data in Hd2. destruct (edge_ref G2 a b); [eauto | done]. }
    by destruct (edges_between_one G2 a b H2 Hr) as [-> | ->].
  - intros papers chunks. split_and!.
    + apply build_graph_run.
    + apply build_calls_positive.
    + intros cs1 cs2 cs3 Hcs. rewrite run_calls_app.
      apply edges_grow_run_calls; [by apply wf_run_calls|].
      pose proof (build_calls_positive papers chunks) as Hpos.
      rewrite Hcs, !Forall_app in Hpos. tauto.
Qed.

(** C10. A merge onto an existing edge, in either orientation and with any
    relation, changes the weight only; after any further calls of a build
    the edge still has the relation it had. *)
Theorem relation_fixed G a b d :
  wf G → edge_data G a b = Some d →
  (∀ x y rel w, same_pair a b x y →
     edge_data (_add_edge G x y rel w) a b
     = Some {| relation := relation d; weight := (weight d + w)%Q |}
     ∧ edge_data (_add_edge G x y rel w) b a
       = Some {| relation := relation d; weight := (weight d + w)%Q |})
  ∧ (∀ cs, ∃ d', edge_data (run_calls G cs) a b = Some d' ∧ relation d' = relation d).
Proof.
  intros HG Hd. split.
  - intros x y rel w Hp.
    assert (H : edge_data (_add_edge G x y rel w) a b = Some (add_weight w d)).
    { rewrite (edge_data_merge G x y rel w a b d HG Hd).
      rewrite decide_True; [done|].
      destruct Hp as [[-> ->]|[-> ->]]; [by left | by right]. }
    split; [done|]. rewrite wf_edge_data_sym; [done | by apply wf__add_edge].
  - intros cs. by apply edges_kept_run_calls.
Qed.

End build.

(** ** Persisting and loading the graph *)

Lemma load_nodes_persist G0 (l : list (pystr * node_attr)) :
  wf G0 → NoDup (nodes G0 ++ keys l) →
  ∃ G1, load_nodes G0 (node_to_json <$> l) = Ok G1
        ∧ wf G1 ∧ _node G1 = _node G0 ++ l
        ∧ ∀ u v, edge_data G1 u v = edge_data G0 u v.
Proof.
  revert G0. induction l as [|[n a] l IH]; intros G0 HG Hnd; simpl.
  - exists G0. by rewrite app_nil_r.
  - assert (Hn : n ∉ nodes G0).
    { apply list.NoDup_app in Hnd as (_ & Hnd & _). intros Hin.
      apply (Hnd n Hin). apply elem_of_cons. by left. }
    assert (Hnode : _node (add_node G0 n a) = _node G0 ++ [(n, a)]).
    { unfold add_node. apply has_node_false in Hn as Hn'. rewrite Hn'. simpl.
      by apply dict_set_notin. }
    destruct a as [lbl ty]. simpl.
    destruct (IH (add_node G0 n {| label := lbl; type := ty |})) as (G1 & HL & H1 & Hn1 & Hd1).
    + by apply wf_add_node.
    + unfold nodes, keys. rewrite Hnode, fmap_app. simpl.
      rewrite <- app_assoc. done.
    + exists G1. split_and!; [done | done | |].
      * rewrite Hn1, Hnode, <- app_assoc. done.
      * intros u v. rewrite Hd1. by apply edge_data_add_node.
Qed.

Lemma node_add_edge_old G u v a :
  u ∈ nodes G → v ∈ nodes G → _node (add_edge G u v a) = _node G.
Proof.
  intros Hu Hv. rewrite node_add_edge. unfold touch_node.
  apply has_node_true in Hu, Hv. by rewrite Hu, Hv.
Qed.

Lemma load_edges_persist G Gc (es : list (pystr * pystr)) :
  wf G → wf Gc → _node Gc = _node G →
  (∀ e, e ∈ es → is_Some (edge_ref G e.1 e.2)) →
  ∃ G', load_edges Gc (omap (edge_to_json G) es) = Ok G'
        ∧ wf G' ∧ _node G' = _node G
        ∧ ∀ x y,
            (Exists (λ e, same_pair e.1 e.2 x y) es → edge_data G' x y = edge_data G x y)
            ∧ (¬ Exists (λ e, same_pair e.1 e.2 x y) es → edge_data G' x y = edge_data Gc x y).
Proof.
  intros HG. revert Gc. induction es as [|[u v] es IH]; intros Gc Hc Hn Hes; simpl.
  - exists Gc. split_and!; [done..|]. intros x y. split; [|done].
    intros H. by apply Exists_nil in H.
  - destruct (Hes (u, v)) as [r Hr]; [apply elem_of_cons; by left|]. simpl in Hr.
    destruct (wf_edge_data G u v r HG Hr) as [d Hd].
    destruct (wf_edge_nodes G u v r HG Hr) as [Hu Hv].
    unfold edge_to_json at 1. simpl. rewrite Hd. simpl.
    set (Gc' := add_edge Gc u v {| relation := relation d; weight := weight d |}).
    assert (Hc' : wf Gc') by by apply wf_add_edge.
    assert (Hn' : _node Gc' = _node G).
    { unfold Gc'. rewrite node_add_edge_old; [done | |]; unfold nodes; by rewrite Hn. }
    destruct (IH Gc' Hc' Hn') as (G' & HL & H' & Hn'' & Hd').
    { intros e He. apply Hes. apply elem_of_cons. by right. }
    exists G'. split_and!; [done..|]. intros x y.
    destruct (Hd' x y) as [Hin Hout]. split.
    + intros Hex. apply Exists_cons in Hex as [Hp|Hex]; [|by apply Hin].
      simpl in Hp.
      destruct (decide (Exists (λ e, same_pair e.1 e.2 x y) es)) as [Hex|Hex];
        [by apply Hin|].
      rewrite (Hout Hex). unfold Gc'. rewrite edge_data_add_edge by done.
      rewrite decide_True by done. destruct d as [rel w]. simpl.
      rewrite <- Hd. destruct Hp as [[-> ->]|[-> ->]]; [done|].
      by apply wf_edge_data_sym.
    + intros Hex. rewrite Hout.
      * unfold Gc'. rewrite edge_data_add_edge by done.
        rewrite decide_False; [done|]. intros Hp. apply Hex.
        by apply Exists_cons_hd.
      * intros Hex'. apply Hex. by apply Exists_cons_tl.
Qed.

(** Loading what [_persist] wrote, into a new object: the nodes with their
    attributes, in the same order, and the same edges with the same
    attributes. *)
Lemma load_persist G :
  wf G →
  ∃ G', load empty_graph (Parsed (_persist G)) = Ok G'
        ∧ wf G' ∧ _node G' = _node G
        ∧ (∀ u v, edge_data G' u v = edge_data G u v).
Proof.
  intros HG. unfold load, _persist. simpl.
  destruct (load_nodes_persist empty_graph (_node G) wf_empty_graph) as (G1 & HL1 & H1 & Hn1 & Hd1).
  { simpl. apply HG. }
  rewrite HL1.
  destruct (load_edges_persist G G1 (edges G) HG H1 Hn1) as (G' & HL & H' & Hn' & Hd').
  { intros [u v] He. by apply elem_of_edges_ref. }
  exists G'. split_and!; [done..|]. intros u v.
  destruct (Hd' u v) as [Hin Hout].
  destruct (decide (Exists (λ e, same_pair e.1 e.2 u v) (edges G))) as [Hex|Hex];
    [by apply Hin|].
  rewrite (Hout Hex), Hd1.
  destruct (edge_data G u v) as [d|] eqn:Hd; [|done].
  exfalso. apply Hex. apply list.Exists_exists.
  assert (Hr : is_Some (edge_ref G u v)).
  { unfold edge_data in Hd. destruct (edge_ref G u v); [eauto | done]. }
  destruct (edge_ref_elem_of_edges G u v HG Hr) as [He|He].
  - exists (u, v). split; [done | by left].
  - exists (v, u). split; [done | by right].
Qed.

Lemma wf_load_nodes G l G' : wf G → load_nodes G l = Ok G' → wf G'.
Proof.
  revert G. induction l as [|node l IH]; intros G HG; simpl.
  - by intros [= <-].
  - destruct (nj_id node) as [n|]; simpl; [|done].
    apply IH. by apply wf_add_node.
Qed.

Lemma wf_load_edges G l G' : wf G → load_edges G l = Ok G' → wf G'.
Proof.
  revert G. induction l as [|edge l IH]; intros G HG; simpl.
  - by intros [= <-].
  - destruct (ej_source edge) as [s|]; simpl; [|done].
    destruct (ej_target edge) as [t|]; simpl; [|done].
    apply IH. by apply wf_add_edge.
Qed.

(** Whatever [load] returns is a well-formed graph. *)
Lemma wf_load G file G' : wf G → load G file = Ok G' → wf G'.
Proof.
  intros HG. destruct file as [| |data]; simpl.
  - by intros [= <-].
  - done.
  - destruct (load_nodes empty_graph _) as [G1|] eqn:E1; [|done].
    apply wf_load_edges. by apply (wf_load_nodes empty_graph _ G1 wf_empty_graph E1).
Qed.

(** ** Path stitching in [answer_query] *)

(** [G.nodes[n]] *)
Definition nodes_getitem (G : Graph) (n : pystr) : result node_attr :=
  match dict_get n (_node G) with
  | Some a => Ok a
  | None => Raise KeyError
  end.

(** [G[u][v]] *)
Definition getitem (G : Graph) (u v : pystr) : result edge_attr :=
  match edge_data G u v with
  | Some d => Ok d
  | None => Raise KeyError
  end.

(** The loop over [G.neighbors(last)], with its two variables. *)
Fixpoint find_bridge (G : Graph) (last_ pid : pystr) (nbrs : list pystr)
    (best_mid : option pystr) (best_w : Q) : result (option pystr * Q) :=
  match nbrs with
  | [] => Ok (best_mid, best_w)
  | neighbor :: rest =>
      a ← nodes_getitem G neighbor;
      if bool_decide (type a = Some (lit "concept")) && has_edge G neighbor pid then
        d1 ← getitem G last_ neighbor;
        d2 ← getitem G neighbor pid;
        let w := (weight d1 + weight d2)%Q in
        if Qlt_le_dec best_w w then find_bridge G last_ pid rest (Some neighbor) w
        else find_bridge G last_ pid rest best_mid best_w
      else find_bridge G last_ pid rest best_mid best_w
  end.

(** [if n not in path: path.append(n)] *)
Definition append_new (path : list pystr) (n : pystr) : list pystr :=
  if decide (n ∈ path) then path else path ++ [n].

(** [if best_mid:] is false for [None] and for the empty string. *)
Definition truthy (best_mid : option pystr) : option pystr :=
  match best_mid with
  | Some (c :: s) => Some (c :: s)
  | _ => None
  end.

(** The body of [for pid in paper_ids_ordered[1:]]. *)
Definition stitch_step (G : Graph) (path : list pystr) (pid : pystr)
  : result (list pystr) :=
  match list.last path with
  | None => Raise IndexError
  | Some last_ =>
      if has_edge G last_ pid then
        Ok (path ++ filter (λ n, n ∉ path) [last_; pid])
      else
        nbrs ← neighbors G last_;
        best ← find_bridge G last_ pid nbrs None 0%Q;
        match truthy best.1 with
        | Some best_mid => Ok (fold_left append_new [last_; best_mid; pid] path)
        | None => Ok (append_new path pid)
        end
  end.

Fixpoint stitch_loop (G : Graph) (path : list pystr) (pids : list pystr)
  : result (list pystr) :=
  match pids with
  | [] => Ok path
  | pid :: rest =>
      path' ← stitch_step G path pid;
      stitch_loop G path' rest
  end.

(** The traversal path of [answer_query], from [paper_ids_ordered]. *)
Definition stitch (G : Graph) (paper_ids_ordered : list pystr) : result (list pystr) :=
  match paper_ids_ordered with
  | [] => Ok []
  | first :: rest => stitch_loop G [first] rest
  end.

(** *** The stitching rule, as stated *)

(** The first element of [l] that maximizes [f]. *)
Fixpoint first_max {A} (f : A → Q) (l : list A) : option A :=
  match l with
  | [] => None
  | x :: rest =>
      match first_max f rest with
      | Some y => if Qlt_le_dec (f x) (f y) then Some y else Some x
      | None => Some x
      end
  end.

Definition weight_of (G : Graph) (u v : pystr) : Q :=
  match edge_data G u v with
  | Some d => weight d
  | None => 0%Q
  end.

Definition is_concept (G : Graph) (n : pystr) : Prop :=
  dict_get n (_node G) ≫= type = Some (lit "concept").

#[export] Instance is_concept_dec G n : Decision (is_concept G n).
Proof. unfold is_concept. apply _. Defined.

#[export] Instance Qlt_dec (x y : Q) : Decision (x < y)%Q.
Proof.
  destruct (Qlt_le_dec x y) as [H|H]; [by left | right].
  by apply Qle_not_lt.
Defined.

(** The neighbours of [n], in the iteration order of the graph; none when
    [n] is not a node. *)
Definition adjacent (G : Graph) (n : pystr) : list pystr :=
  match dict_get n (_adj G) with
  | Some nbrs => keys nbrs
  | None => []
  end.

Definition bridge_weight (G : Graph) (last_ pid n : pystr) : Q :=
  (weight_of G last_ n + weight_of G n pid)%Q.

(** The neighbours of [last_] that are concept nodes with an edge to
    [pid]. *)
Definition bridges (G : Graph) (last_ pid : pystr) : list pystr :=
  filter (λ n, is_concept G n ∧ has_edge G n pid = true) (adjacent G last_).

(** The rule of the specification for one stop. *)
Definition claimed_step (G : Graph) (path : list pystr) (pid : pystr) : list pystr :=
  match list.last path with
  | None => path
  | Some last_ =>
      if has_edge G last_ pid then append_new path pid
      else
        match first_max (bridge_weight G last_ pid) (bridges G last_ pid) with
        | Some bridge => append_new (append_new path bridge) pid
        | None => append_new path pid
        end
  end.

Definition claimed_stitch (G : Graph) (stops : list pystr) : list pystr :=
  match stops with
  | [] => []
  | first :: rest => fold_left (claimed_step G) rest [first]
  end.

(** The rule the code follows: a bridge counts only when the two weights
    add up to more than [0.0], and a chosen bridge whose id is the empty
    string is dropped. *)
Definition positive_bridges (G : Graph) (last_ pid : pystr) : list pystr :=
  filter (λ n, (0 < bridge_weight G last_ pid n)%Q) (bridges G last_ pid).

Definition rule_step (G : Graph) (path : list pystr) (pid : pystr) : list pystr :=
  match list.last path with
  | None => path
  | Some last_ =>
      if has_edge G last_ pid then append_new path pid
      else
        match first_max (bridge_weight G last_ pid) (positive_bridges G last_ pid) with
        | Some (c :: s) => append_new (append_new path (c :: s)) pid
        | _ => append_new path pid
        end
  end.

Definition stitch_rule (G : Graph) (stops : list pystr) : list pystr :=
  match stops with
  | [] => []
  | first :: rest => fold_left (rule_step G) rest [first]
  end.

(** *** [first_max] *)

Lemma first_max_None {A} (f : A → Q) (l : list A) : first_max f l = None ↔ l = [].
Proof.
  destruct l as [|x l]; simpl; [done|].
  split; [|done]. destruct (first_max f l); [|done].
  by destruct (Qlt_le_dec _ _).
Qed.

(** [first_max f l] is an element of [l] that no element exceeds and that
    every earlier element is strictly below. *)
Lemma first_max_spec {A} (f : A → Q) (l : list A) (m : A) :
  first_max f l = Some m →
  ∃ before after, l = before ++ m :: after
    ∧ Forall (λ x, (f x < f m)%Q) before
    ∧ Forall (λ x, (f x <= f m)%Q) after.
Proof.
  revert m. induction l as [|x l IH]; intros m; simpl; [done|].
  destruct (first_max f l) as [y|] eqn:E.
  - destruct (IH y eq_refl) as (p & s & -> & Hp & Hs).
    destruct (Qlt_le_dec (f x) (f y)) as [Hlt|Hle]; intros [= <-].
    + exists (x :: p), s. split_and!; [done | by constructor | done].
    + exists [], (p ++ y :: s). split_and!; [done | constructor |].
      apply Forall_app. split.
      * eapply list.Forall_impl; [exact Hp|]. intros z Hz. simpl in Hz. lra.
      * constructor; [done|].
        eapply list.Forall_impl; [exact Hs|]. intros z Hz. simpl in Hz. lra.
  - intros [= <-]. apply first_max_None in E as ->.
    exists [], []. split_and!; [done | constructor | constructor].
Qed.

Lemma first_max_elem {A} (f : A → Q) (l : list A) (m : A) :
  first_max f l = Some m → m ∈ l.
Proof.
  intros H. apply first_max_spec in H as (p & s & -> & _).
  apply elem_of_app. right. apply elem_of_cons. by left.
Qed.

Lemma first_max_snoc {A} (f : A → Q) (l : list A) (x : A) :
  first_max f (l ++ [x])
  = match first_max f l with
    | Some y => if Qlt_le_dec (f y) (f x) then Some x else Some y
    | None => Some x
    end.
Proof.
  induction l as [|a l IH]; simpl; [done|].
  rewrite IH. destruct (first_max f l) as [y|].
  - repeat (destruct (Qlt_le_dec _ _); simpl); try done; exfalso; lra.
  - repeat (destruct (Qlt_le_dec _ _); simpl); try done; exfalso; lra.
Qed.

(** *** The loop over the neighbours finds the first best bridge *)

Section stitching.

Variable G : Graph.
Hypothesis HG : wf G.

Definition is_bridge (pid n : pystr) : Prop :=
  is_concept G n ∧ has_edge G n pid = true.

(** The state of the two loop variables after the neighbours [pre]. *)
Definition best_after (last_ pid : pystr) (pre : list pystr) : option pystr * Q :=
  match first_max (bridge_weight G last_ pid)
          (filter (λ n, (0 < bridge_weight G last_ pid n)%Q) (filter (is_bridge pid) pre)) with
  | Some y => (Some y, bridge_weight G last_ pid y)
  | None => (None, 0%Q)
  end.

Lemma best_after_nonneg last_ pid pre : (0 <= (best_after last_ pid pre).2)%Q.
Proof using Type.
  unfold best_after.
  destruct (first_max _ _) as [y|] eqn:E; simpl; [|lra].
  apply first_max_elem, list_elem_of_filter in E as [E _]. lra.
Qed.

Lemma best_after_snoc_bridge last_ pid pre n :
  is_bridge pid n →
  best_after last_ pid (pre ++ [n])
  = if Qlt_le_dec (best_after last_ pid pre).2 (bridge_weight G last_ pid n)
    then (Some n, bridge_weight G last_ pid n)
    else best_after last_ pid pre.
Proof using Type.
  intros Hn. pose proof (best_after_nonneg last_ pid pre) as Hpos.
  unfold best_after in *. rewrite !list.filter_app.
  rewrite (filter_cons_True (is_bridge pid)) by done. rewrite filter_nil.
  destruct (decide (0 < bridge_weight G last_ pid n)%Q) as [Hw|Hw].
  - rewrite filter_cons_True by done. rewrite filter_nil, first_max_snoc.
    destruct (first_max _ _) as [y|]; simpl in *.
    + by destruct (Qlt_le_dec _ _).
    + destruct (Qlt_le_dec _ _); [done | exfalso; lra].
  - rewrite filter_cons_False by done. rewrite filter_nil, app_nil_r.
    destruct (Qlt_le_dec _ _) as [Hlt|Hle]; [|done].
    exfalso. apply Hw. lra.
Qed.

Lemma best_after_snoc_other last_ pid pre n :
  ¬ is_bridge pid n → best_after last_ pid (pre ++ [n]) = best_after last_ pid pre.
Proof using Type.
  intros Hn. unfold best_after. rewrite list.filter_app.
  rewrite (filter_cons_False (is_bridge pid)) by done.
  by rewrite filter_nil, app_nil_r.
Qed.

Lemma adjacent_edge_ref last_ n :
  n ∈ adjacent G last_ → is_Some (edge_ref G last_ n).
Proof using Type.
  unfold adjacent, edge_ref, adj_ref.
  destruct (dict_get last_ (_adj G)) as [nbrs|].
  - apply dict_get_is_Some.
  - intros H. by apply elem_of_nil in H.
Qed.

Lemma getitem_weight u v :
  is_Some (edge_ref G u v) →
  ∃ d, getitem G u v = Ok d ∧ weight d = weight_of G u v.
Proof using HG.
  intros [r Hr]. destruct (wf_edge_data G u v r HG Hr) as [d Hd].
  exists d. unfold getitem, weight_of. by rewrite Hd.
Qed.

Lemma find_bridge_best last_ pid pre nbrs :
  (∀ n, n ∈ nbrs → n ∈ adjacent G last_) →
  find_bridge G last_ pid nbrs (best_after last_ pid pre).1 (best_after last_ pid pre).2
  = Ok (best_after last_ pid (pre ++ nbrs)).
Proof using HG.
  revert pre. induction nbrs as [|n rest IH]; intros pre Hadj; simpl.
  - rewrite app_nil_r. by destruct (best_after last_ pid pre).
  - assert (Hn : n ∈ adjacent G last_) by (apply Hadj, elem_of_cons; by left).
    apply adjacent_edge_ref in Hn as Hr.
    assert (Hnode : n ∈ nodes G).
    { destruct Hr as [r Hr]. by destruct (wf_edge_nodes G last_ n r HG Hr). }
    apply dict_get_is_Some in Hnode as [a Ha].
    unfold nodes_getitem. rewrite Ha. simpl.
    assert (IH' : find_bridge G last_ pid rest
                    (best_after last_ pid (pre ++ [n])).1 (best_after last_ pid (pre ++ [n])).2
                  = Ok (best_after last_ pid (pre ++ n :: rest))).
    { rewrite IH; [by rewrite <- app_assoc|].
      intros x Hx. apply Hadj, elem_of_cons. by right. }
    assert (Hc : is_concept G n ↔ type a = Some (lit "concept")).
    { unfold is_concept. by rewrite Ha. }
    destruct (bool_decide (type a = Some (lit "concept")) && has_edge G n pid) eqn:Hcond.
    + apply andb_true_iff in Hcond as [Hty He]. apply bool_decide_eq_true in Hty.
      assert (Hb : is_bridge pid n) by (split; [by apply Hc | done]).
      destruct (getitem_weight last_ n Hr) as (d1 & -> & Hw1).
      apply has_edge_ref in He.
      destruct (getitem_weight n pid He) as (d2 & -> & Hw2). simpl.
      rewrite Hw1, Hw2. fold (bridge_weight G last_ pid n).
      rewrite (best_after_snoc_bridge last_ pid pre n Hb) in IH'.
      by destruct (Qlt_le_dec _ _).
    + rewrite best_after_snoc_other in IH'; [done|].
      intros [Hty He]. apply Hc in Hty.
      apply andb_false_iff in Hcond as [Hf|Hf].
      * by apply bool_decide_eq_false in Hf.
      * congruence.
Qed.

(** One stop: the code and the rule agree, and the path stays inside the
    graph. *)
Lemma stitch_step_rule path pid :
  path ≠ [] → (∀ n, n ∈ path → n ∈ nodes G) → pid ∈ nodes G →
  stitch_step G path pid = Ok (rule_step G path pid)
  ∧ rule_step G path pid ≠ []
  ∧ ∀ n, n ∈ rule_step G path pid → n ∈ nodes G.
Proof using HG.
  intros Hne Hpath Hpid.
  assert (Happ : ∀ p n, p ≠ [] → (∀ x, x ∈ p → x ∈ nodes G) → n ∈ nodes G →
            append_new p n ≠ [] ∧ ∀ x, x ∈ append_new p n → x ∈ nodes G).
  { intros p n Hp Hin Hn. unfold append_new. destruct (decide (n ∈ p)); [done|].
    split; [by destruct p|]. intros x [Hx|Hx%list_elem_of_singleton]%elem_of_app;
      [by apply Hin | by subst]. }
  unfold stitch_step, rule_step.
  destruct (list.last path) as [last_|] eqn:El; [|by apply last_None in El].
  assert (Hl : last_ ∈ path).
  { apply last_Some in El as [p ->]. apply elem_of_app. right. by apply list_elem_of_singleton. }
  destruct (has_edge G last_ pid) eqn:He.
  - split; [|by apply Happ]. f_equal. unfold append_new.
    rewrite filter_cons_False by (intros H; by apply H).
    destruct (decide (pid ∈ path)).
    + rewrite filter_cons_False by (intros H; by apply H). by rewrite filter_nil, app_nil_r.
    + by rewrite filter_cons_True.
  - assert (Hadj : is_Some (dict_get last_ (_adj G))).
    { apply dict_get_is_Some. rewrite (wf_keys G HG). by apply Hpath. }
    destruct Hadj as [nbrs Hnb]. unfold neighbors. rewrite Hnb. simpl.
    pose proof (find_bridge_best last_ pid [] (keys nbrs)) as Hfind.
    unfold best_after at 1 2 in Hfind. simpl in Hfind. rewrite Hfind.
    2:{ intros n Hn. unfold adjacent. by rewrite Hnb. }
    simpl. unfold best_after, positive_bridges, bridges, adjacent. rewrite Hnb.
    fold (is_bridge pid).
    destruct (first_max _ _) as [[|c s]|] eqn:Ef; simpl.
    + split; [done | by apply Happ].
    + assert (Hmid : (c :: s) ∈ nodes G).
      { apply first_max_elem in Ef. apply list_elem_of_filter in Ef as [_ Ef].
        apply list_elem_of_filter in Ef as [_ Ef].
        assert (Hr : is_Some (edge_ref G last_ (c :: s))).
        { apply adjacent_edge_ref. unfold adjacent. by rewrite Hnb. }
        destruct Hr as [r Hr]. by destruct (wf_edge_nodes G _ _ r HG Hr). }
      destruct (Happ path (c :: s) Hne Hpath Hmid) as [Hne' Hpath'].
      split; [|by apply Happ]. f_equal.
      unfold append_new at 3. by rewrite decide_True.
    + split; [done | by apply Happ].
Qed.

Lemma stitch_loop_rule path pids :
  path ≠ [] → (∀ n, n ∈ path → n ∈ nodes G) → (∀ n, n ∈ pids → n ∈ nodes G) →
  stitch_loop G path pids = Ok (fold_left (rule_step G) pids path).
Proof using HG.
  revert path. induction pids as [|pid rest IH]; intros path Hne Hpath Hpids; [done|].
  simpl. destruct (stitch_step_rule path pid Hne Hpath) as (-> & Hne' & Hpath').
  { apply Hpids, elem_of_cons. by left. }
  simpl. apply IH; [done..|]. intros n Hn. apply Hpids, elem_of_cons. by right.
Qed.

End stitching.

(** C1, as the code has it. For a well-formed graph and stops that are all
    nodes of it, the path is the value of [stitch_rule]: a function of the
    graph and the stops, which follows the stated rule with two
    restrictions, a bridge needs a positive sum of weights and an empty
    bridge id is dropped. *)
Theorem stitch_follows_rule G stops :
  wf G → (∀ n, n ∈ stops → n ∈ nodes G) →
  stitch G stops = Ok (stitch_rule G stops).
Proof.
  intros HG Hstops. destruct stops as [|first rest]; [done|]. simpl.
  apply stitch_loop_rule; [done | done | |].
  - intros n Hn. apply list_elem_of_singleton in Hn as ->.
    apply Hstops, elem_of_cons. by left.
  - intros n Hn. apply Hstops, elem_of_cons. by right.
Qed.

(** ** Python sequences *)

(** [l[i]] for a Python [int]: a negative index counts from the end,
    [IndexError] outside the list. *)
Definition getitem_list {A} (l : list A) (i : Z) : result A :=
  let n := Z.of_nat (length l) in
  let j := if decide (i < 0)%Z then (n + i)%Z else i in
  if decide (0 <= j < n)%Z then
    match l !! Z.to_nat j with
    | Some x => Ok x
    | None => Raise IndexError
    end
  else Raise IndexError.

(** [l[:k]] for a Python [int]: a negative [k] drops the last [-k]
    elements. *)
Definition slice_to {A} (k : Z) (l : list A) : list A :=
  if decide (k < 0)%Z then take (length l - Z.to_nat (- k)) l
  else take (Z.to_nat k) l.

(** ** [VectorIndex] *)

Module VectorIndex.

Inductive Backend :=
  | transformer
  | tfidf.

#[export] Instance Backend_eq_dec : EqDecision Backend.
Proof. solve_decision. Defined.

Section index.

(** The numeric libraries, taken as they are called. [Vec] is a row of an
    embedding matrix and [Fitted] a fitted vectorizer with its projector;
    a flat faiss index is the list of the rows added to it.
    - [encode]: [SentenceTransformer.encode] of one text, normalized;
    - [fit_transform]: [TfidfVectorizer.fit_transform], then
      [TruncatedSVD.fit_transform], then the normalization, a row per text;
    - [transform]: the same with the fitted objects, for one text;
    - [dot]: the inner product of two rows;
    - [argsort]: [np.argsort] with its default [kind];
    - [faiss_search]: [IndexFlatIP.search] for one query row, as the pairs
      [(idxs[0][j], scores[0][j])]. *)
Variables Vec Fitted : Type.
Variable encode : pystr → Vec.
Variable fit_transform : list pystr → Fitted * list Vec.
Variable transform : Fitted → pystr → Vec.
Variable dot : Vec → Vec → Q.
Variable argsort : list Q → list nat.
Variable faiss_search : list Vec → Vec → Z → result (list (Z * Q)).

(** The fields of a [VectorIndex] object that the methods use. *)
Record state := {
  backend : Backend;
  tfidf_vectorizer : option Fitted;
  embeddings : option (list Vec);
  faiss_index : option (list Vec);
  meta : list chunk
}.

(** [meta.json] and [faiss.index]. *)
Record files := {
  meta_file : snapshot (list chunk);
  index_file : snapshot (list Vec)
}.

(** The object after [__init__], for the backend the environment gives. *)
Definition init (b : Backend) : state :=
  {| backend := b; tfidf_vectorizer := None; embeddings := None;
     faiss_index := None; meta := [] |}.

(** [_embed_transformer(texts)] *)
Definition _embed_transformer (texts : list pystr) : list Vec := encode <$> texts.

(** [_embed_tfidf(texts)]: fits and caches on the first call, transforms
    afterwards. *)
Definition _embed_tfidf (st : state) (texts : list pystr) : state * list Vec :=
  match tfidf_vectorizer st with
  | None =>
      let '(fitted, reduced) := fit_transform texts in
      ({| backend := backend st; tfidf_vectorizer := Some fitted;
          embeddings := Some reduced; faiss_index := faiss_index st;
          meta := meta st |}, reduced)
  | Some fitted => (st, transform fitted <$> texts)
  end.

(** [VectorIndex.build(chunks)] *)
Definition build (st : state) (fs : files) (chunks : list chunk) : state * files :=
  let texts := text <$> chunks in
  let st1 :=
    match backend st with
    | transformer =>
        let vecs := _embed_transformer texts in
        {| backend := backend st; tfidf_vectorizer := tfidf_vectorizer st;
           embeddings := Some vecs; faiss_index := Some vecs; meta := meta st |}
    | tfidf => (_embed_tfidf st texts).1
    end in
  let st2 :=
    {| backend := backend st1; tfidf_vectorizer := tfidf_vectorizer st1;
       embeddings := embeddings st1; faiss_index := faiss_index st1;
       meta := chunks |} in
  (st2,
   {| meta_file := Parsed chunks;
      index_file :=
        match backend st2, faiss_index st2 with
        | transformer, Some index => Parsed index
        | _, _ => index_file fs
        end |}).

(** [VectorIndex.load()] *)
Definition load (st : state) (fs : files) : result state :=
  st1 ← match meta_file fs with
        | Absent => Ok st
        | Unreadable => Raise JSONDecodeError
        | Parsed m =>
            Ok {| backend := backend st; tfidf_vectorizer := tfidf_vectorizer st;
                  embeddings := embeddings st; faiss_index := faiss_index st;
                  meta := m |}
        end;
  match backend st1, index_file fs with
  | transformer, Parsed index =>
      Ok {| backend := backend st1; tfidf_vectorizer := tfidf_vectorizer st1;
            embeddings := embeddings st1; faiss_index := Some index;
            meta := meta st1 |}
  | transformer, Unreadable =>
      Ok {| backend := backend st1; tfidf_vectorizer := tfidf_vectorizer st1;
            embeddings := embeddings st1; faiss_index := None;
            meta := meta st1 |}
  | _, _ => Ok st1
  end.

(** The loop over [zip(idxs[0], scores[0])]. *)
Fixpoint dense_results (meta : list chunk) (hits : list (Z * Q))
  : result (list (chunk * Q)) :=
  match hits with
  | [] => Ok []
  | (i, sc) :: rest =>
      if decide (i = (-1)%Z) then dense_results meta rest
      else
        m ← getitem_list meta i;
        r ← dense_results meta rest;
        Ok ((m, sc) :: r)
  end.

(** The loop over [top_idx]. *)
Fixpoint sparse_results (meta : list chunk) (sims : list Q) (top_idx : list nat)
  : result (list (chunk * Q)) :=
  match top_idx with
  | [] => Ok []
  | i :: rest =>
      m ← getitem_list meta (Z.of_nat i);
      s ← getitem_list sims (Z.of_nat i);
      r ← sparse_results meta sims rest;
      Ok ((m, s) :: r)
  end.

(** The first lines of [query]: [if not self.meta: self.load()]. *)
Definition ensure_loaded (st : state) (fs : files) : result state :=
  match meta st with
  | [] => load st fs
  | _ => Ok st
  end.

(** The TF-IDF branch of [query]. *)
Definition query_tfidf (st : state) (text_ : pystr) (k : Z)
  : result (state * list (chunk * Q)) :=
  let st1 :=
    match embeddings st, tfidf_vectorizer st with
    | Some _, Some _ => st
    | _, _ => (_embed_tfidf st (text <$> meta st)).1
    end in
  let '(st2, q_vec) := _embed_tfidf st1 [text_] in
  match embeddings st2, q_vec with
  | Some rows, [q] =>
      let sims := (λ row, dot row q) <$> rows in
      let top_idx := slice_to k (argsort (Qopp <$> sims)) in
      r ← sparse_results (meta st2) sims top_idx;
      Ok (st2, r)
  | _, _ => Raise TypeError
  end.

(** [VectorIndex.query(text, k)]: the object after the call and the list
    returned. *)
Definition query (st : state) (fs : files) (text_ : pystr) (k : Z)
  : result (state * list (chunk * Q)) :=
  st1 ← ensure_loaded st fs;
  match meta st1 with
  | [] => Ok (st1, [])
  | _ =>
      let k := Z.min k (Z.of_nat (length (meta st1))) in
      match backend st1, faiss_index st1 with
      | transformer, Some index =>
          match _embed_transformer [text_] with
          | [q] =>
              hits ← faiss_search index q k;
              r ← dense_results (meta st1) hits;
              Ok (st1, r)
          | _ => Raise TypeError
          end
      | _, _ => query_tfidf st1 text_ k
      end
  end.

(** *** Indexing and slicing *)

Lemma getitem_list_lookup {A} (l : list A) (i : nat) (x : A) :
  l !! i = Some x → getitem_list l (Z.of_nat i) = Ok x.
Proof.
  intros Hx. pose proof (lookup_lt_Some _ _ _ Hx) as Hlt.
  unfold getitem_list. cbv zeta.
  destruct (decide (Z.of_nat i < 0)%Z); [lia|].
  destruct (decide _); [|lia]. by rewrite Nat2Z.id, Hx.
Qed.

Lemma getitem_list_nonneg {A} (l : list A) (i : Z) :
  (0 <= i < Z.of_nat (length l))%Z →
  ∃ x, getitem_list l i = Ok x ∧ l !! Z.to_nat i = Some x.
Proof.
  intros Hi. destruct (lookup_lt_is_Some_2 l (Z.to_nat i)) as [x Hx]; [lia|].
  exists x. split; [|done]. rewrite <- (Z2Nat.id i) by lia.
  by apply getitem_list_lookup.
Qed.

Lemma length_slice_to {A} (k : Z) (l : list A) :
  (0 <= k)%Z → length (slice_to k l) = Nat.min (Z.to_nat k) (length l).
Proof.
  intros Hk. unfold slice_to. rewrite decide_False by lia. apply length_take.
Qed.

Lemma slice_to_prefix {A} (k : Z) (l : list A) : slice_to k l `prefix_of` l.
Proof. unfold slice_to. destruct (decide _); apply prefix_take. Qed.

Lemma sparse_results_lookup metas (sims : list Q) top_idx :
  Forall (λ i, i < length metas ∧ i < length sims) top_idx →
  ∃ r, sparse_results metas sims top_idx = Ok r
       ∧ Forall2 (λ i p, metas !! i = Some p.1 ∧ sims !! i = Some p.2) top_idx r.
Proof.
  induction top_idx as [|i rest IH]; intros Hall; simpl.
  - exists []. split; [done | constructor].
  - apply list.Forall_cons in Hall as [[Hm Hs] Hall].
    destruct (lookup_lt_is_Some_2 metas i Hm) as [m Hm'].
    destruct (lookup_lt_is_Some_2 sims i Hs) as [s Hs'].
    rewrite (getitem_list_lookup metas i m Hm'). simpl.
    rewrite (getitem_list_lookup sims i s Hs'). simpl.
    destruct (IH Hall) as (r & -> & Hr). simpl.
    exists ((m, s) :: r). split; [done|]. by constructor.
Qed.

Lemma dense_results_lookup metas (hits : list (Z * Q)) :
  Forall (λ h, (0 <= h.1 < Z.of_nat (length metas))%Z) hits →
  ∃ r, dense_results metas hits = Ok r
       ∧ Forall2 (λ h p, metas !! Z.to_nat h.1 = Some p.1 ∧ h.2 = p.2) hits r.
Proof.
  induction hits as [|[i sc] rest IH]; intros Hall; simpl.
  - exists []. split; [done | constructor].
  - apply list.Forall_cons in Hall as [Hi Hall]. simpl in Hi.
    rewrite decide_False by lia.
    destruct (getitem_list_nonneg metas i Hi) as (m & -> & Hm). simpl.
    destruct (IH Hall) as (r & -> & Hr). simpl.
    exists ((m, sc) :: r). split; [done|]. by constructor.
Qed.

(** *** The contracts of the libraries and the states they are used in *)

(** [a[i]], for the indices an [argsort] of [a] returns. *)
Definition key (a : list Q) (i : nat) : Q := default 0%Q (a !! i).

(** The scores of a result list do not increase. *)
Definition descending (r : list (chunk * Q)) : Prop :=
  StronglySorted (λ p1 p2, (p2.2 <= p1.2)%Q) r.

(** The cached objects agree with [meta]: the flat index and the cached
    rows have a row per chunk, and a fitted vectorizer comes with its
    rows. *)
Definition consistent (st : state) : Prop :=
  (∀ index, backend st = transformer → faiss_index st = Some index →
     length index = length (meta st))
  ∧ (∀ rows, embeddings st = Some rows → is_Some (tfidf_vectorizer st) →
       length rows = length (meta st))
  ∧ (is_Some (tfidf_vectorizer st) → is_Some (embeddings st)).

Section contracts.

(** A fit returns a row per text. *)
Hypothesis fit_rows : ∀ texts, length (fit_transform texts).2 = length texts.

(** [np.argsort(a)] is a permutation of the indices of [a] that puts the
    values in ascending order. *)
Hypothesis argsort_perm : ∀ a, argsort a ≡ₚ seq 0 (length a).
Hypothesis argsort_sorted : ∀ a,
  StronglySorted (λ i j, (key a i <= key a j)%Q) (argsort a).

(** A search for [1 <= k <= ntotal] neighbours returns [k] hits, each the
    index of a stored row, by descending score. *)
Hypothesis faiss_topk : ∀ index q k,
  (1 <= k <= Z.of_nat (length index))%Z →
  ∃ hits, faiss_search index q k = Ok hits
          ∧ length hits = Z.to_nat k
          ∧ Forall (λ h, (0 <= h.1 < Z.of_nat (length index))%Z) hits
          ∧ StronglySorted (λ h1 h2, (h2.2 <= h1.2)%Q) hits.

Lemma argsort_bound a : Forall (λ i, i < length a) (argsort a).
Proof using argsort_perm.
  apply list.Forall_forall. intros i Hi.
  rewrite (argsort_perm a) in Hi. apply elem_of_seq in Hi. lia.
Qed.

Lemma StronglySorted_Forall2 {A B} (R : A → A → Prop) (R' : B → B → Prop)
    (P : A → B → Prop) (l : list A) (r : list B) :
  (∀ i j p q, R i j → P i p → P j q → R' p q) →
  StronglySorted R l → Forall2 P l r → StronglySorted R' r.
Proof using Type.
  intros HR Hs. revert r. induction Hs as [|a l Hs IH Ha]; intros r Hr.
  - apply Forall2_nil_inv_l in Hr as ->. constructor.
  - apply Forall2_cons_inv_l in Hr as (p & r' & Hp & Hr' & ->).
    constructor; [by apply IH|].
    clear IH Hs. induction Hr' as [|j q l r' Hq Hr' IH]; [constructor|].
    apply list.Forall_cons in Ha as [Haj Ha].
    constructor; [by eapply HR | by apply IH].
Qed.

(** The TF-IDF branch: the result pairs each index of a prefix of the
    sorted indices with its chunk and its similarity. *)
Lemma query_tfidf_spec st text_ k :
  consistent st →
  ∃ st2 rows f r,
    let q := transform f text_ in
    query_tfidf st text_ k = Ok (st2, r)
    ∧ meta st2 = meta st
    ∧ embeddings st2 = Some rows
    ∧ tfidf_vectorizer st2 = Some f
    ∧ length rows = length (meta st)
    ∧ Forall2 (λ i p, meta st !! i = Some p.1 ∧ ((λ row, dot row q) <$> rows) !! i = Some p.2)
        (slice_to k (argsort (Qopp <$> ((λ row, dot row q) <$> rows)))) r.
Proof using fit_rows argsort_perm.
  intros (Hdense & Hrows & Hfit). unfold query_tfidf.
  set (st1 := match embeddings st, tfidf_vectorizer st with
              | Some _, Some _ => st
              | _, _ => (_embed_tfidf st (text <$> meta st)).1
              end).
  assert (H1 : ∃ rows f, embeddings st1 = Some rows ∧ tfidf_vectorizer st1 = Some f
                         ∧ length rows = length (meta st) ∧ meta st1 = meta st).
  { unfold st1. destruct (embeddings st) as [rows|] eqn:Ee;
      destruct (tfidf_vectorizer st) as [f|] eqn:Ef.
    - exists rows, f. rewrite Ee, Ef. split_and!; [done | done | | done].
      apply Hrows; [done | eauto].
    - unfold _embed_tfidf. rewrite Ef.
      pose proof (fit_rows (text <$> meta st)) as Hlen.
      destruct (fit_transform (text <$> meta st)) as [f reduced]. simpl in *.
      exists reduced, f. by rewrite Hlen, length_fmap.
    - destruct Hfit as [? ?]; [eauto | done].
    - unfold _embed_tfidf. rewrite Ef.
      pose proof (fit_rows (text <$> meta st)) as Hlen.
      destruct (fit_transform (text <$> meta st)) as [f reduced]. simpl in *.
      exists reduced, f. by rewrite Hlen, length_fmap. }
  destruct H1 as (rows & f & He & Hf & Hlen & Hm).
  unfold _embed_tfidf at 1. rewrite Hf. simpl. rewrite He.
  set (sims := (λ row, dot row (transform f text_)) <$> rows).
  destruct (sparse_results_lookup (meta st1) sims (slice_to k (argsort (Qopp <$> sims))))
    as (r & Hr & Hall).
  { destruct (slice_to_prefix k (argsort (Qopp <$> sims))) as [rest Hpre].
    pose proof (argsort_bound (Qopp <$> sims)) as Hb.
    rewrite Hpre in Hb. apply Forall_app in Hb as [Hb _].
    eapply list.Forall_impl; [exact Hb|]. intros i Hi. simpl in Hi.
    unfold sims in *. rewrite !length_fmap in Hi. rewrite Hm, length_fmap. lia. }
  rewrite Hr. simpl. exists st1, rows, f, r.
  split_and!; [done..|]. by rewrite <- Hm.
Qed.

Lemma key_opp (sims : list Q) i s :
  sims !! i = Some s → key (Qopp <$> sims) i = (- s)%Q.
Proof using Type. intros Hs. unfold key. by rewrite list_lookup_fmap, Hs. Qed.

Lemma query_tfidf_descending (sims : list Q) (metas : list chunk) idx r :
  idx `prefix_of` argsort (Qopp <$> sims) →
  Forall2 (λ i p, metas !! i = Some p.1 ∧ sims !! i = Some p.2) idx r →
  descending r.
Proof using argsort_sorted.
  intros [rest Hpre] Hall. unfold descending.
  eapply (StronglySorted_Forall2 (λ i j, (key (Qopp <$> sims) i <= key (Qopp <$> sims) j)%Q));
    [| |exact Hall].
  - intros i j p q Hij [_ Hp] [_ Hq]. simpl.
    rewrite (key_opp sims i _ Hp), (key_opp sims j _ Hq) in Hij. lra.
  - pose proof (argsort_sorted (Qopp <$> sims)) as Hs. rewrite Hpre in Hs.
    by apply StronglySorted_app_1_l in Hs.
Qed.

(** The dense branch. *)
Lemma query_dense_spec metas index q k :
  length index = length metas → (1 <= k <= Z.of_nat (length metas))%Z →
  ∃ hits r, faiss_search index q k = Ok hits
            ∧ dense_results metas hits = Ok r
            ∧ length r = Z.to_nat k
            ∧ descending r
            ∧ Forall (λ p, p.1 ∈ metas) r.
Proof using faiss_topk.
  intros Hlen Hk.
  destruct (faiss_topk index q k) as (hits & Hs & Hl & Hb & Hsorted); [lia|].
  rewrite Hlen in Hb.
  destruct (dense_results_lookup metas hits Hb) as (r & Hr & Hall).
  exists hits, r. split_and!; [done | done | | |].
  - by rewrite <- (Forall2_length _ _ _ Hall).
  - eapply (StronglySorted_Forall2 _ _ _ hits r); [|exact Hsorted|exact Hall].
    intros h1 h2 p1 p2 H12 [_ E1] [_ E2]. simpl. by rewrite <- E1, <- E2.
  - apply list.Forall_forall. intros p Hp.
    apply list_elem_of_lookup in Hp as [j Hj].
    destruct (Forall2_lookup_r _ _ _ _ _ Hall Hj) as (h & _ & Hh & _).
    by eapply list_elem_of_lookup_2.
Qed.

Lemma length_argsort a : length (argsort a) = length a.
Proof using argsort_perm. by rewrite (argsort_perm a), length_seq. Qed.

(** C4, as the code has it. For an index whose cached objects agree with
    [meta] and [k >= 1], [query] returns [min(k, n)] pairs of an indexed
    chunk and a score, by descending score: [n] of them when [k > n]. *)
Theorem query_clamps_k st fs st1 text_ k :
  ensure_loaded st fs = Ok st1 → consistent st1 → (1 <= k)%Z →
  let n := length (meta st1) in
  ∃ st2 r, query st fs text_ k = Ok (st2, r)
    ∧ length r = Z.to_nat (Z.min k (Z.of_nat n))
    ∧ ((Z.of_nat n < k)%Z → length r = n)
    ∧ descending r
    ∧ Forall (λ p, p.1 ∈ meta st1) r.
Proof using fit_rows argsort_perm argsort_sorted faiss_topk.
  intros Hload Hcons Hk n.
  assert (Hn0 : n = length (meta st1)) by done. clearbody n.
  assert (Hgoal : ∃ st2 r, query st fs text_ k = Ok (st2, r)
    ∧ length r = Z.to_nat (Z.min k (Z.of_nat n))
    ∧ descending r ∧ Forall (λ p, p.1 ∈ meta st1) r).
  2:{ destruct Hgoal as (st2 & r & Hq & Hl & Hd & Hm). exists st2, r.
      split_and!; [done..| |done|done]. intros Hn. rewrite Hl. lia. }
  unfold query. rewrite Hload. simpl. rewrite <- Hn0.
  destruct (meta st1) as [|c m] eqn:Em.
  { exists st1, []. split_and!; [done | | constructor | constructor].
    simpl in Hn0. subst n. simpl. lia. }
  assert (Hn : 1 ≤ n) by (rewrite Hn0; simpl; lia).
  rewrite <- Em in Hn0 |- *.
  assert (Hsparse : ∃ st2 r, query_tfidf st1 text_ (Z.min k (Z.of_nat n)) = Ok (st2, r)
    ∧ length r = Z.to_nat (Z.min k (Z.of_nat n))
    ∧ descending r ∧ Forall (λ p, p.1 ∈ meta st1) r).
  { destruct (query_tfidf_spec st1 text_ (Z.min k (Z.of_nat n)) Hcons)
      as (st2 & rows & f & r & Hq & Hm & He & Hf & Hlen & Hall).
    exists st2, r. split_and!; [done | | |].
    - rewrite <- (Forall2_length _ _ _ Hall), length_slice_to by lia.
      rewrite length_argsort, !length_fmap, Hlen, <- Hn0. lia.
    - eapply query_tfidf_descending; [apply slice_to_prefix | exact Hall].
    - apply list.Forall_forall. intros p Hp.
      apply list_elem_of_lookup in Hp as [j Hj].
      destruct (Forall2_lookup_r _ _ _ _ _ Hall Hj) as (i & _ & Hi & _).
      by eapply list_elem_of_lookup_2. }
  destruct (backend st1) eqn:Eb; [|done].
  destruct (faiss_index st1) as [index|] eqn:Ei; [|done].
  destruct Hcons as (Hdense & _ & _).
  destruct (query_dense_spec (meta st1) index (encode text_) (Z.min k (Z.of_nat n)))
    as (hits & r & Hs & Hr & Hl & Hd & Hm).
  { by apply Hdense. }
  { rewrite <- Hn0. lia. }
  simpl. rewrite Hs. simpl. rewrite Hr. simpl.
  exists st1, r. by split_and!.
Qed.

(** C6, as the code has it. Under the TF-IDF backend, for an index with at
    least one chunk: the similarities are the inner products of every
    stored row with the projected query, and the result pairs each index
    of a prefix of [argsort] of the negated similarities with its chunk and
    its similarity. The scores do not increase, no chunk left out scores
    more than a chunk returned, and equal scores come in the order
    [argsort] gives them. *)
Theorem query_sparse_top_k st fs st1 text_ k :
  ensure_loaded st fs = Ok st1 → consistent st1 →
  backend st1 = tfidf → meta st1 ≠ [] →
  let n := length (meta st1) in
  ∃ st2 rows f r,
    let sims := (λ row, dot row (transform f text_)) <$> rows in
    let top_idx := slice_to (Z.min k (Z.of_nat n)) (argsort (Qopp <$> sims)) in
    query st fs text_ k = Ok (st2, r)
    ∧ embeddings st2 = Some rows ∧ tfidf_vectorizer st2 = Some f ∧ length rows = n
    ∧ Forall2 (λ i p, meta st1 !! i = Some p.1 ∧ sims !! i = Some p.2) top_idx r
    ∧ ((0 <= k)%Z → length r = Z.to_nat (Z.min k (Z.of_nat n)))
    ∧ descending r
    ∧ (∀ i j si sj, i ∈ top_idx → j < n → j ∉ top_idx →
         sims !! i = Some si → sims !! j = Some sj → (sj <= si)%Q).
Proof using fit_rows argsort_perm argsort_sorted.
  intros Hload Hcons Hb Hne n.
  assert (Hn0 : n = length (meta st1)) by done. clearbody n.
  unfold query. rewrite Hload. simpl. rewrite <- Hn0.
  destruct (meta st1) as [|c m] eqn:Em; [done|]. rewrite <- Em in Hn0 |- *.
  rewrite Hb.
  destruct (query_tfidf_spec st1 text_ (Z.min k (Z.of_nat n)) Hcons)
    as (st2 & rows & f & r & Hq & Hm & He & Hf & Hlen & Hall).
  exists st2, rows, f, r. cbv zeta in *.
  set (sims := (λ row, dot row (transform f text_)) <$> rows) in *.
  split_and!; [done | done | done | by rewrite Hn0 | done | | |].
  - intros Hk. rewrite <- (Forall2_length _ _ _ Hall), length_slice_to by lia.
    rewrite length_argsort. unfold sims. rewrite !length_fmap, Hlen, <- Hn0. lia.
  - eapply query_tfidf_descending; [apply slice_to_prefix | exact Hall].
  - intros i j si sj Hi Hj Hnj Hsi Hsj.
    destruct (slice_to_prefix (Z.min k (Z.of_nat n)) (argsort (Qopp <$> sims)))
      as [rest Hpre].
    assert (Hin : j ∈ rest).
    { assert (Hj' : j ∈ argsort (Qopp <$> sims)).
      { rewrite (argsort_perm (Qopp <$> sims)). apply elem_of_seq.
        unfold sims. rewrite !length_fmap, Hlen, <- Hn0. lia. }
      rewrite Hpre in Hj'. apply elem_of_app in Hj' as [?|?]; [contradiction | done]. }
    pose proof (argsort_sorted (Qopp <$> sims)) as Hs. rewrite Hpre in Hs.
    pose proof (StronglySorted_app_1_elem_of _ _ _ i j Hs Hi Hin) as Hij.
    simpl in Hij. rewrite (key_opp sims i si Hsi), (key_opp sims j sj Hsj) in Hij. lra.
Qed.

(** The states the program reaches are consistent: an object after its
    first [build], and a new object after [load] when the two files come
    from one [build]. *)
Lemma consistent_build st fs chunks :
  backend st = transformer ∨ tfidf_vectorizer st = None →
  consistent (build st fs chunks).1.
Proof using fit_rows.
  intros Hst. unfold build, consistent. destruct (backend st) eqn:Eb; simpl.
  - unfold _embed_transformer. split_and!.
    + intros index _ [= <-]. by rewrite !length_fmap.
    + intros rows [= <-] _. by rewrite !length_fmap.
    + eauto.
  - destruct Hst as [Hst|Hst]; [done|]. unfold _embed_tfidf. rewrite Hst.
    pose proof (fit_rows (text <$> chunks)) as Hlen.
    destruct (fit_transform (text <$> chunks)) as [f reduced]. simpl in *.
    split_and!.
    + intros index Hb. congruence.
    + intros rows [= <-] _. by rewrite Hlen, length_fmap.
    + eauto.
Qed.

Lemma consistent_load_init b fs st1 :
  load (init b) fs = Ok st1 →
  (∀ index, index_file fs = Parsed index → length index = length (meta st1)) →
  consistent st1.
Proof using Type.
  unfold load, consistent. intros Hload Hindex.
  assert (H1 : ∃ m, (backend st1 = tfidf ∧ faiss_index st1 = None
                     ∨ backend st1 = transformer
                       ∧ match index_file fs with
                         | Parsed index => faiss_index st1 = Some index
                         | _ => faiss_index st1 = None
                         end)
                    ∧ embeddings st1 = None ∧ tfidf_vectorizer st1 = None
                    ∧ meta st1 = m).
  { destruct (meta_file fs) as [| |m]; simpl in Hload; [|done|].
    - destruct b; simpl in Hload.
      + destruct (index_file fs); injection Hload as <-; exists []; simpl; tauto.
      + injection Hload as <-. exists []. simpl. tauto.
    - destruct b; simpl in Hload.
      + destruct (index_file fs); injection Hload as <-; exists m; simpl; tauto.
      + injection Hload as <-. exists m. simpl. tauto. }
  destruct H1 as (m & Hb & He & Hf & Hm). split_and!.
  - intros index Eb Ei. destruct Hb as [[Hb _]|[_ Hb]]; [congruence|].
    destruct (index_file fs) as [| |index'] eqn:E; [congruence | congruence |].
    apply Hindex. congruence.
  - intros rows Hr. congruence.
  - rewrite Hf. by intros [? ?].
Qed.

End contracts.

(** *** Empty and persisted state *)

Lemma load_keeps_meta st fs :
  meta_file fs = Absent → ∃ st1, load st fs = Ok st1 ∧ meta st1 = meta st.
Proof.
  intros Hf. unfold load. rewrite Hf. simpl.
  destruct (backend st); [|by eexists].
  destruct (index_file fs); by eexists.
Qed.

Lemma load_sets_meta st fs m :
  meta_file fs = Parsed m → ∃ st1, load st fs = Ok st1 ∧ meta st1 = m.
Proof.
  intros Hf. unfold load. rewrite Hf. simpl.
  destruct (backend st); [|by eexists].
  destruct (index_file fs); by eexists.
Qed.

(** [query] on an index with no chunk, in the object or in [meta.json]. *)
Lemma query_empty st fs text_ k :
  meta st = [] → meta_file fs = Absent ∨ meta_file fs = Parsed [] →
  ∃ st1, query st fs text_ k = Ok (st1, []).
Proof.
  intros Hm Hf. unfold query, ensure_loaded. rewrite Hm.
  destruct Hf as [Hf|Hf].
  - destruct (load_keeps_meta st fs Hf) as (st1 & -> & Hm1). simpl.
    rewrite Hm1, Hm. by eexists.
  - destruct (load_sets_meta st fs [] Hf) as (st1 & -> & Hm1). simpl.
    rewrite Hm1. by eexists.
Qed.

(** [build] writes [meta.json]; a new object that loads it has the same
    [meta]. *)
Lemma build_load_meta st fs chunks st0 :
  meta (build st fs chunks).1 = chunks
  ∧ ∃ st2, load st0 (build st fs chunks).2 = Ok st2 ∧ meta st2 = chunks.
Proof. split; [done|]. by apply load_sets_meta. Qed.

(** An unreadable [meta.json] makes [load] raise; an unreadable
    [faiss.index] does not. *)
Lemma load_unreadable_meta st fs :
  meta_file fs = Unreadable → load st fs = Raise JSONDecodeError.
Proof. intros Hf. unfold load. by rewrite Hf. Qed.

Lemma load_unreadable_index st fs :
  meta_file fs = Absent → index_file fs = Unreadable →
  ∃ st1, load st fs = Ok st1 ∧ meta st1 = meta st.
Proof. intros Hf _. by apply load_keeps_meta. Qed.

(** X4. On an object that has already fitted its TF-IDF vectorizer, [build]
    replaces [meta] and leaves the cached rows as they were: the rows that
    [query] scores are those of the first corpus. *)
Theorem rebuild_keeps_rows (st : state) (fs : files) (chunks : list chunk)
    (fitted : Fitted) :
  backend st = tfidf → tfidf_vectorizer st = Some fitted →
  let st' := (build st fs chunks).1 in
  meta st' = chunks ∧ embeddings st' = embeddings st
  ∧ tfidf_vectorizer st' = Some fitted.
Proof.
  intros Hb Hf. unfold build, _embed_tfidf. rewrite Hb, Hf. by simpl.
Qed.

End index.

End VectorIndex.

(** ** Text formatting *)

Definition nl : pystr := [10%N].

(** The code points [→], [⚠], the variation selector after it, and [📊]. *)
Definition ARROW : pystr := [8594%N].
Definition WARNING_SIGN : pystr := [9888%N; 65039%N].
Definition BAR_CHART : pystr := [128202%N].

(** [str(n)] for a count. *)
Definition str_nat (n : nat) : pystr := lit (pretty n).

(** [f"{x:.3f}"]: the value rounded to three decimals, ties to even. *)
Definition format_3f (x : Q) : pystr :=
  let scaled := (Qabs x * 1000)%Q in
  let fl := Qfloor scaled in
  let r :=
    match Qcompare (scaled - inject_Z fl) (1 # 2) with
    | Lt => fl
    | Gt => (fl + 1)%Z
    | Eq => if Z.even fl then fl else (fl + 1)%Z
    end in
  let frac := Z.to_nat (r mod 1000) in
  (if Qlt_le_dec x 0 then lit "-" else [])
    ++ str_nat (Z.to_nat (r / 1000)) ++ lit "."
    ++ str_nat (frac / 100) ++ str_nat (frac / 10 mod 10) ++ str_nat (frac mod 10).

(** [str.isspace] for one code point. *)
Definition is_space (c : N) : bool :=
  ((9 <=? c) && (c <=? 13) || (28 <=? c) && (c <=? 32) || (c =? 133) || (c =? 160)
   || (c =? 5760) || (8192 <=? c) && (c <=? 8202) || (c =? 8232) || (c =? 8233)
   || (c =? 8239) || (c =? 8287) || (c =? 12288))%N.

Fixpoint lstrip (s : pystr) : pystr :=
  match s with
  | c :: s' => if is_space c then lstrip s' else s
  | [] => []
  end.

(** [s.strip()] *)
Definition strip (s : pystr) : pystr := reverse (lstrip (reverse (lstrip s))).

(** [needle in hay] *)
Fixpoint starts_with (needle hay : pystr) : bool :=
  match needle, hay with
  | [], _ => true
  | c :: needle', d :: hay' => bool_decide (c = d) && starts_with needle' hay'
  | _ :: _, [] => false
  end.

Fixpoint contains (needle hay : pystr) : bool :=
  starts_with needle hay ||
  match hay with
  | [] => false
  | _ :: hay' => contains needle hay'
  end.

(** ** The synthesis call *)

(** What the request of [_call_groq] comes to: the [content] of the first
    choice of a successful response (the empty string when the response has
    none), or an exception raised inside the [try] block, as [str(e)]:
    a timeout, a transport error, a status that [raise_for_status] refuses,
    a body that is not the JSON expected. *)
Inductive http_outcome :=
  | Content (content : pystr)
  | Failed (e : pystr).

(** The environment variable and the service. *)
Record environment := {
  GROQ_API_KEY : option pystr;
  post : pystr → http_outcome
}.

(** [_llm_available()]: the variable is set and not empty. *)
Definition _llm_available (env : environment) : bool :=
  match GROQ_API_KEY env with
  | Some (_ :: _) => true
  | _ => false
  end.

(** [_call_groq(prompt)]: the text returned and the prompts posted. *)
Definition _call_groq (env : environment) (prompt : pystr) : pystr * list pystr :=
  if _llm_available env then
    match post env prompt with
    | Content content =>
        (match strip content with
         | [] => lit "(Empty LLM response)"
         | s => s
         end, [prompt])
    | Failed e =>
        (lit "(LLM call failed: " ++ e ++ lit ")" ++ nl ++ take 500 prompt, [prompt])
    end
  else (lit "(LLM not configured) " ++ take 500 prompt, []).

(** ** [answer_query] *)

(** An entry of [sources]. *)
Record source := {
  s_paper_id : pystr;
  s_title : pystr;
  s_chunk_id : pystr;
  s_score : Q;
  s_text : pystr
}.

(** What [answer_query] returns. *)
Record answer := {
  answer_text : pystr;
  sources : list source;
  traversal_path : list pystr;
  subgraph : list node_json * list edge_json
}.

Definition NO_CONTENT : pystr :=
  lit "I couldn't find relevant content. Please upload papers and rebuild the graph.".

(** The loop over [retrieved]. *)
Definition to_source (hit : chunk * Q) : source :=
  {| s_paper_id := c_paper_id hit.1; s_title := c_title hit.1;
     s_chunk_id := chunk_id hit.1; s_score := hit.2;
     s_text := take 1200 (text hit.1) |}.

Definition ordered_paper_ids (retrieved : list (chunk * Q)) : list pystr :=
  fold_left (λ acc hit,
    if decide (c_paper_id hit.1 ∈ acc) then acc else acc ++ [c_paper_id hit.1])
    retrieved [].

(** [len(titles)], for the set of the titles of the sources. *)
Definition count_titles (srcs : list source) : nat :=
  length (remove_dups (s_title <$> srcs)).

Definition heuristic_text (srcs : list source) (path : list pystr) : pystr :=
  lit "Retrieved " ++ str_nat (length srcs) ++ lit " chunks across "
    ++ str_nat (count_titles srcs) ++ lit " papers. Traversal order: "
    ++ join (lit " -> ") path ++ lit ". "
    ++ lit "Shared concepts form edges; see subgraph for details.".

(** [' → '.join(path[:n])] followed by ['...'] when the path is longer. *)
Definition path_rendering (n : nat) (path : list pystr) : pystr :=
  join (lit " " ++ ARROW ++ lit " ") (take n path)
    ++ (if decide (n < length path) then lit "..." else []).

Definition paper_titles_text (srcs : list source) : pystr :=
  join nl ((λ s, lit "- **" ++ s_title s ++ lit "** (ID: " ++ s_paper_id s ++ lit ")")
             <$> take 5 srcs).

Definition joined_sources_text (srcs : list source) : pystr :=
  join (nl ++ nl)
    (imap (λ i s, lit "### Source [" ++ str_nat (i + 1) ++ lit "] - " ++ s_title s
                    ++ nl ++ s_text s) srcs).

Definition prompt_text (question : pystr) (srcs : list source) (path : list pystr) : pystr :=
  lit "**Research Question:** " ++ question ++ nl ++ nl
    ++ lit "**Analysis Context:**" ++ nl
    ++ lit "- Papers Analyzed: " ++ str_nat (count_titles srcs) ++ nl
    ++ lit "- Sources Retrieved: " ++ str_nat (length srcs) ++ nl
    ++ lit "- Knowledge Graph Traversal: " ++ path_rendering 5 path ++ nl ++ nl
    ++ lit "**Papers in Analysis:**" ++ nl
    ++ paper_titles_text srcs ++ nl ++ nl
    ++ lit "**Task:** Provide a comprehensive, well-structured comparative synthesis following the format guidelines. Use markdown formatting extensively with headers, bold text for key concepts, bullet points, and clear sections."
    ++ nl ++ nl
    ++ lit "**Retrieved Content:**" ++ nl
    ++ take (7 * 1000) (joined_sources_text srcs) ++ nl ++ nl
    ++ lit "**Remember:** Use professional academic writing style with proper markdown formatting, clear structure, and highlighted key terms.".

Definition metadata_text (srcs : list source) (path : list pystr) : pystr :=
  nl ++ nl ++ lit "---" ++ nl ++ nl ++ lit "*" ++ BAR_CHART ++ lit " Analysis Metadata:*" ++ nl
    ++ lit "- Sources: " ++ str_nat (length srcs) ++ lit " chunks from "
    ++ str_nat (count_titles srcs) ++ lit " paper(s)" ++ nl
    ++ lit "- Graph Path: " ++ path_rendering 8 path ++ nl
    ++ lit "- Retrieval Score Range: "
    ++ from_option (λ s, format_3f (s_score s)) [] (head srcs) ++ lit " - "
    ++ from_option (λ s, format_3f (s_score s)) [] (list.last srcs).

Definition not_configured_text (heuristic : pystr) : pystr :=
  lit "## " ++ WARNING_SIGN ++ lit " LLM Not Configured" ++ nl ++ nl ++ heuristic ++ nl ++ nl
    ++ lit "*Set GROQ_API_KEY environment variable to enable AI-powered synthesis.*".

(** The branch [if not sources: .. else: ..]: the answer text and the
    prompts posted to the service. *)
Definition compose_answer (env : environment) (question : pystr)
    (srcs : list source) (path : list pystr) : pystr * list pystr :=
  match srcs with
  | [] => (NO_CONTENT, [])
  | _ =>
      let heuristic := heuristic_text srcs path in
      if _llm_available env then
        let prompt := prompt_text question srcs path in
        let '(llm_answer, calls) := _call_groq env prompt in
        (llm_answer ++ metadata_text srcs path, calls)
      else (not_configured_text heuristic, [])
  end.

Section answer.

Variables Vec Fitted : Type.
Variable encode : pystr → Vec.
Variable fit_transform : list pystr → Fitted * list Vec.
Variable transform : Fitted → pystr → Vec.
Variable dot : Vec → Vec → Q.
Variable argsort : list Q → list nat.
Variable faiss_search : list Vec → Vec → Z → result (list (Z * Q)).

(** [answer_query(question, k)], run with the backend [b] the environment
    gives, the files of the index, [graph.json] and the service: what it
    returns and the prompts it posted, or the exception it raises. *)
Definition answer_query (b : VectorIndex.Backend) (fs : VectorIndex.files Vec)
    (graph_file : snapshot graph_json) (env : environment)
    (question : pystr) (k : Z) : result (answer * list pystr) :=
  index ← VectorIndex.load Vec Fitted (VectorIndex.init Vec Fitted b) fs;
  queried ← VectorIndex.query Vec Fitted encode fit_transform transform dot argsort
               faiss_search index fs question k;
  let retrieved := queried.2 in
  let srcs := to_source <$> retrieved in
  let paper_ids_ordered := ordered_paper_ids retrieved in
  G ← load empty_graph graph_file;
  path ← stitch G paper_ids_ordered;
  let '(text_, calls) := compose_answer env question srcs path in
  let sub :=
    match path with
    | [] => ([], [])
    | _ => subgraph_for_path G path
    end in
  Ok ({| answer_text := text_; sources := srcs; traversal_path := path; subgraph := sub |},
      calls).

(** C5. With no chunk in the object and none in [meta.json], [query]
    returns the empty list; and when [graph.json] loads, [answer_query]
    returns the fixed message with no source, an empty path and an empty
    subgraph, and posts nothing to the service. *)
Theorem empty_state_safety (b : VectorIndex.Backend) (st : VectorIndex.state Vec Fitted)
    (fs : VectorIndex.files Vec) (graph_file : snapshot graph_json) (G : Graph)
    (env : environment) (question : pystr) (k : Z) :
  VectorIndex.meta_file Vec fs = Absent ∨ VectorIndex.meta_file Vec fs = Parsed [] →
  (VectorIndex.meta Vec Fitted st = [] →
     ∃ st1, VectorIndex.query Vec Fitted encode fit_transform transform dot argsort
              faiss_search st fs question k = Ok (st1, []))
  ∧ (load empty_graph graph_file = Ok G →
     answer_query b fs graph_file env question k
     = Ok ({| answer_text := NO_CONTENT; sources := []; traversal_path := [];
              subgraph := ([], []) |}, [])).
Proof.
  intros Hfs. split.
  - intros Hm. by apply VectorIndex.query_empty.
  - intros HG. unfold answer_query.
    assert (Hload : ∃ index, VectorIndex.load Vec Fitted (VectorIndex.init Vec Fitted b) fs
                             = Ok index
                             ∧ VectorIndex.meta Vec Fitted index = []).
    { destruct Hfs as [Hf|Hf].
      - by apply VectorIndex.load_keeps_meta.
      - by apply VectorIndex.load_sets_meta. }
    destruct Hload as (index & -> & Hm). simpl.
    destruct (VectorIndex.query_empty Vec Fitted encode fit_transform transform dot
                argsort faiss_search index fs question k Hm Hfs) as (st1 & ->).
    simpl. by rewrite HG.
Qed.

End answer.

(** ** Persistence *)

Lemma edges_iff_data G u v :
  wf G → ((u, v) ∈ edges G ∨ (v, u) ∈ edges G) ↔ is_Some (edge_data G u v).
Proof.
  intros HG. split.
  - intros [H|H]; apply elem_of_edges_ref in H as [r Hr]; try done.
    + by apply (wf_edge_data G u v r).
    + apply (wf_sym G HG) in Hr. by apply (wf_edge_data G u v r).
  - intros [d Hd]. apply edge_ref_elem_of_edges; [done|].
    unfold edge_data in Hd. destruct (edge_ref G u v); [eauto | done].
Qed.

Section persistence.

Variable extract_keywords : pystr → list pystr.
Variable lower : pystr → pystr.
Variables Vec Fitted : Type.
Variable encode : pystr → Vec.
Variable fit_transform : list pystr → Fitted * list Vec.
Variable transform : Fitted → pystr → Vec.

(** C8. After the two [build] calls, a new graph object and a new index
    object that [load] the files written have the same nodes with the same
    attributes in the same order, the same edges with the same relations
    and weights, and the same [meta]: the chunks, in their order. *)
Theorem build_load_round_trip (G0 : Graph) (papers : list paper) (chunks : list chunk)
    (st st0 : VectorIndex.state Vec Fitted) (fs : VectorIndex.files Vec) :
  wf G0 →
  let built := build extract_keywords lower G0 papers chunks in
  let indexed := VectorIndex.build Vec Fitted encode fit_transform transform st fs chunks in
  (∃ G', load empty_graph built.2 = Ok G'
         ∧ _node G' = _node built.1
         ∧ (∀ u v, edge_data G' u v = edge_data built.1 u v)
         ∧ (∀ u v, ((u, v) ∈ edges G' ∨ (v, u) ∈ edges G')
                   ↔ ((u, v) ∈ edges built.1 ∨ (v, u) ∈ edges built.1)))
  ∧ (∃ st', VectorIndex.load Vec Fitted st0 indexed.2 = Ok st'
            ∧ VectorIndex.meta Vec Fitted st' = VectorIndex.meta Vec Fitted indexed.1
            ∧ VectorIndex.meta Vec Fitted st' = chunks).
Proof.
  intros HG built indexed. split.
  - assert (Hb : wf built.1) by by apply wf_build_graph.
    destruct (load_persist built.1 Hb) as (G' & HL & H' & Hn & Hd).
    exists G'. split_and!; [done..|]. intros u v.
    by rewrite !edges_iff_data, Hd.
  - destruct (VectorIndex.build_load_meta Vec Fitted encode fit_transform transform
                st fs chunks st0) as (Hm & st' & HL & Hm').
    exists st'. split_and!; [done | | done]. unfold indexed. congruence.
Qed.

End persistence.

(** C9, as the code has it. [json.load] is not guarded in either [load]:
    on a snapshot that does not parse, both raise. Only the flat index is
    read under a [try]. *)
Theorem load_unreadable_raises (G : Graph) (Vec Fitted : Type)
    (st : VectorIndex.state Vec Fitted) (index : snapshot (list Vec)) :
  load G Unreadable = Raise JSONDecodeError
  ∧ VectorIndex.load Vec Fitted st
      {| VectorIndex.meta_file := Unreadable; VectorIndex.index_file := index |}
    = Raise JSONDecodeError.
Proof. done. Qed.

(** ** Further properties of the orchestrator *)

(** X1. When the first stop is not a node of the graph and another stop
    follows, [G.has_edge] is false, [G.neighbors] raises and so does the
    stitching: the index may hold papers that [graph.json] does not. *)
Theorem stitch_raises_outside_graph (G : Graph) (first pid : pystr) (rest : list pystr) :
  first ∉ keys (_adj G) → stitch G (first :: pid :: rest) = Raise NetworkXError.
Proof.
  intros Hn. apply dict_get_None in Hn.
  unfold stitch. simpl. unfold stitch_step. simpl.
  unfold has_edge, neighbors. by rewrite Hn.
Qed.


(** The distinct elements of a list, each at its first occurrence. *)
Fixpoint first_occurrences (l : list pystr) : list pystr :=
  match l with
  | [] => []
  | x :: rest => x :: filter (λ y, y ≠ x) (first_occurrences rest)
  end.

Lemma ordered_paper_ids_from (retrieved : list (chunk * Q)) (acc : list pystr) :
  fold_left (λ acc hit,
    if decide (c_paper_id hit.1 ∈ acc) then acc else acc ++ [c_paper_id hit.1])
    retrieved acc
  = acc ++ filter (λ y, y ∉ acc)
             (first_occurrences ((λ hit, c_paper_id hit.1) <$> retrieved)).
Proof.
  revert acc. induction retrieved as [|hit retrieved IH]; intros acc; simpl.
  - by rewrite filter_nil, app_nil_r.
  - rewrite IH. set (x := c_paper_id hit.1).
    set (L := first_occurrences ((λ hit, c_paper_id hit.1) <$> retrieved)).
    destruct (decide (x ∈ acc)) as [Hx|Hx].
    + rewrite filter_cons_False by (intros H; by apply H).
      f_equal. rewrite list_filter_filter. apply filter_ext_in.
      intros y _. split; [|tauto]. intros Hy. split; [done|]. by intros ->.
    + rewrite filter_cons_True by done. rewrite <- app_assoc. simpl. do 2 f_equal.
      rewrite list_filter_filter. apply filter_ext_in.
      intros y _. rewrite not_elem_of_app, list_elem_of_singleton. tauto.
Qed.

Lemma NoDup_first_occurrences l : NoDup (first_occurrences l).
Proof.
  induction l as [|x l IH]; simpl; [apply NoDup_nil_2|].
  apply NoDup_cons_2; [|by apply list.NoDup_filter].
  intros H. apply list_elem_of_filter in H as [H _]. by apply H.
Qed.

Lemma elem_of_first_occurrences l y : y ∈ first_occurrences l ↔ y ∈ l.
Proof.
  induction l as [|x l IH]; simpl; [done|].
  rewrite !elem_of_cons, list_elem_of_filter, IH.
  destruct (decide (y = x)); tauto.
Qed.

(** X3. The stops are the paper ids of the retrieved chunks, each once, in
    the order of their first chunk. *)
Theorem ordered_paper_ids_first_appearance (retrieved : list (chunk * Q)) :
  let ids := (λ hit, c_paper_id hit.1) <$> retrieved in
  ordered_paper_ids retrieved = first_occurrences ids
  ∧ NoDup (ordered_paper_ids retrieved)
  ∧ ∀ pid, pid ∈ ordered_paper_ids retrieved ↔ pid ∈ ids.
Proof.
  intros ids.
  assert (H : ordered_paper_ids retrieved = first_occurrences ids).
  { unfold ordered_paper_ids. rewrite ordered_paper_ids_from. simpl.
    fold ids. generalize (first_occurrences ids). intros L.
    induction L as [|y L IH]; [done|].
    rewrite filter_cons_True by apply not_elem_of_nil. by rewrite IH. }
  rewrite H. split_and!; [done | apply NoDup_first_occurrences |].
  intros pid. apply elem_of_first_occurrences.
Qed.

(** * Further properties of the code *)

Lemma filter_all {A} (P : A → Prop) `{∀ x, Decision (P x)} (l : list A) :
  (∀ x, x ∈ l → P x) → filter P l = l.
Proof.
  induction l as [|a l IH]; intros Hl; [done|].
  rewrite filter_cons_True by (apply Hl, elem_of_cons; by left).
  f_equal. apply IH. intros x Hx. apply Hl, elem_of_cons. by right.
Qed.


Lemma bind_Ok {A B} (a : A) (k : A → result B) : Ok a ≫= k = k a.
Proof. done. Qed.

(** ** The shape of the traversal path *)

Lemma find_bridge_inv G last_ pid nbrs bm bw m w :
  find_bridge G last_ pid nbrs bm bw = Ok (m, w) →
  m = bm ∨ ∃ n, m = Some n ∧ n ∈ nbrs ∧ is_concept G n ∧ has_edge G n pid = true.
Proof.
  revert bm bw. induction nbrs as [|nb rest IH]; intros bm bw; simpl.
  - intros [= <- <-]. by left.
  - unfold nodes_getitem, is_concept.
    destruct (dict_get nb (_node G)) as [a|] eqn:Ea; simpl; [|done].
    assert (Hrest : ∀ bm' bw', find_bridge G last_ pid rest bm' bw' = Ok (m, w) →
              m = bm' ∨ ∃ n, m = Some n ∧ n ∈ nb :: rest
                ∧ dict_get n (_node G) ≫= type = Some (lit "concept")
                ∧ has_edge G n pid = true).
    { intros bm' bw' H. destruct (IH _ _ H) as [->|(n & -> & Hn & Hc)]; [by left|].
      right. exists n. split_and!; [done | by apply elem_of_cons; right | apply Hc | apply Hc]. }
    destruct (bool_decide (type a = Some (lit "concept"))) eqn:Et; simpl; [|apply Hrest].
    destruct (has_edge G nb pid) eqn:Ee; simpl; [|apply Hrest].
    destruct (getitem G last_ nb) as [d1|]; simpl; [|done].
    destruct (getitem G nb pid) as [d2|]; simpl; [|done].
    destruct (Qlt_le_dec bw (weight d1 + weight d2)); [|apply Hrest].
    intros H. destruct (Hrest _ _ H) as [->|Hn]; [|by right].
    right. exists nb. split_and!; [done | by apply elem_of_cons; left | | done].
    rewrite Ea. simpl. by apply bool_decide_eq_true in Et.
Qed.

(** What a run of the loop over the stops [pids] adds to [path]. *)
Definition extends (G : Graph) (pids path path' : list pystr) : Prop :=
  path `prefix_of` path'
  ∧ (NoDup path → NoDup path')
  ∧ (∀ n, n ∈ pids → n ∈ path')
  ∧ (∀ n, n ∈ path' → n ∈ path ∨ n ∈ pids ∨ is_concept G n)
  ∧ length path' ≤ length path + 2 * length pids.

Lemma append_new_extends path n :
  path `prefix_of` append_new path n
  ∧ (NoDup path → NoDup (append_new path n))
  ∧ n ∈ append_new path n
  ∧ (∀ x, x ∈ append_new path n → x ∈ path ∨ x = n)
  ∧ length (append_new path n) ≤ length path + 1.
Proof.
  unfold append_new. destruct (decide (n ∈ path)) as [Hn|Hn].
  - split_and!; [done | done | done | by left | lia].
  - split_and!.
    + by apply prefix_app_r.
    + intros Hp. apply list.NoDup_app. split_and!; [done | | apply NoDup_singleton].
      intros x Hx ->%list_elem_of_singleton. done.
    + apply elem_of_app. right. by apply list_elem_of_singleton.
    + intros x [Hx|Hx%list_elem_of_singleton]%elem_of_app; [by left | by right].
    + rewrite length_app. simpl. lia.
Qed.

Lemma last_elem_of {A} (l : list A) (x : A) : list.last l = Some x → x ∈ l.
Proof.
  intros H. apply last_Some in H as [l' ->]. apply elem_of_app. right.
  by apply list_elem_of_singleton.
Qed.

Lemma append_new_old path n : n ∈ path → append_new path n = path.
Proof. intros Hn. unfold append_new. by rewrite decide_True. Qed.

Lemma stitch_step_extends G path pid path' :
  stitch_step G path pid = Ok path' → extends G [pid] path path'.
Proof.
  unfold stitch_step. destruct (list.last path) as [last_|] eqn:El; [|done].
  pose proof (last_elem_of _ _ El) as Hl.
  assert (Hone : extends G [pid] path (append_new path pid)).
  { destruct (append_new_extends path pid) as (H1 & H2 & H3 & H4 & H5).
    split_and!; [done | done | | | simpl; lia].
    - by intros n ->%list_elem_of_singleton.
    - intros n Hn. destruct (H4 n Hn) as [?| ->]; [by left|].
      right. left. by apply list_elem_of_singleton. }
  destruct (has_edge G last_ pid) eqn:Ee.
  - intros [= <-].
    replace (path ++ filter (λ n, n ∉ path) [last_; pid]) with (append_new path pid); [done|].
    rewrite filter_cons_False by (intros H; by apply H).
    unfold append_new. destruct (decide (pid ∈ path)) as [Hp|Hp].
    + rewrite filter_cons_False by (intros H; by apply H). by rewrite filter_nil, app_nil_r.
    + by rewrite filter_cons_True by done.
  - unfold neighbors. destruct (dict_get last_ (_adj G)) as [nbrs|] eqn:En; simpl; [|done].
    destruct (find_bridge G last_ pid (keys nbrs) None 0) as [[m w]|] eqn:Ef; simpl; [|done].
    apply find_bridge_inv in Ef.
    destruct (truthy m) as [mid|] eqn:Et; intros [= <-]; [|done].
    assert (Hm : m = Some mid).
    { destruct m as [[|c s]|]; simpl in Et; congruence. }
    destruct Ef as [Ef|(n & Hn & _ & Hc & _)]; [congruence|].
    assert (n = mid) as -> by congruence.
    simpl. rewrite (append_new_old path last_ Hl).
    destruct (append_new_extends path mid) as (A1 & A2 & A3 & A4 & A5).
    destruct (append_new_extends (append_new path mid) pid) as (B1 & B2 & B3 & B4 & B5).
    split_and!.
    + by etrans.
    + auto.
    + by intros x ->%list_elem_of_singleton.
    + intros x Hx. destruct (B4 x Hx) as [Hx'| ->].
      * destruct (A4 x Hx') as [?| ->]; [by left | by right; right].
      * right. left. by apply list_elem_of_singleton.
    + simpl. lia.
Qed.

Lemma stitch_loop_extends G path pids path' :
  stitch_loop G path pids = Ok path' → extends G pids path path'.
Proof.
  revert path. induction pids as [|pid rest IH]; intros path; simpl.
  - intros [= <-]. split_and!; [done | done | | by left | lia].
    intros n Hn. by apply not_elem_of_nil in Hn.
  - destruct (stitch_step G path pid) as [p1|] eqn:Es; simpl; [|done].
    intros Hr. apply stitch_step_extends in Es as (A1 & A2 & A3 & A4 & A5).
    apply IH in Hr as (B1 & B2 & B3 & B4 & B5).
    split_and!.
    + by etrans.
    + auto.
    + intros n [->|Hn]%elem_of_cons; [|by apply B3].
      eapply elem_of_prefix; [|exact B1]. apply A3, elem_of_cons. by left.
    + intros n Hn. destruct (B4 n Hn) as [Hn'|[Hn'|Hn']].
      * destruct (A4 n Hn') as [?|[->%list_elem_of_singleton|?]];
          [by left | right; left; by apply elem_of_cons; left | by right; right].
      * right. left. apply elem_of_cons. by right.
      * by right; right.
    + simpl in *. lia.
Qed.

(** Every path [stitch] returns: no node twice, every stop on it, nothing
    but stops and concept nodes, at most one node between two stops. *)
Lemma stitch_covers G stops path :
  stitch G stops = Ok path →
  NoDup path
  ∧ (∀ n, n ∈ stops → n ∈ path)
  ∧ (∀ n, n ∈ path → n ∈ stops ∨ is_concept G n)
  ∧ length path ≤ 2 * length stops - 1.
Proof.
  destruct stops as [|first rest]; simpl.
  - intros [= <-]. split_and!; [apply NoDup_nil_2 | done | | done].
    intros n Hn. by apply not_elem_of_nil in Hn.
  - intros H. apply stitch_loop_extends in H as (H1 & H2 & H3 & H4 & H5).
    split_and!.
    + apply H2, NoDup_singleton.
    + intros n [->|Hn]%elem_of_cons; [|by apply H3].
      eapply elem_of_prefix; [|exact H1]. by apply list_elem_of_singleton.
    + intros n Hn. destruct (H4 n Hn) as [->%list_elem_of_singleton|[?|?]].
      * left. apply elem_of_cons. by left.
      * left. apply elem_of_cons. by right.
      * by right.
    + simpl in *. lia.
Qed.

(** X5. Whenever the stitching returns, the path holds every stop and no
    node twice, starts at the first stop, holds nothing but stops and
    concept nodes of the graph, and is at most [2 * len(stops) - 1] long:
    at most one bridge between two stops. *)
Theorem stitch_path_shape G stops path :
  stitch G stops = Ok path →
  NoDup path
  ∧ (∀ n, n ∈ stops → n ∈ path)
  ∧ (∀ n, n ∈ path → n ∈ stops ∨ is_concept G n)
  ∧ head path = head stops
  ∧ length path ≤ 2 * length stops - 1.
Proof.
  intros H. destruct (stitch_covers G stops path H) as (S1 & S2 & S3 & S4).
  split_and!; [done | done | done | | done].
  destruct stops as [|first rest]; simpl in H.
  - by injection H as <-.
  - apply stitch_loop_extends in H as ([k ->] & _). done.
Qed.

(** The stops are the paper ids of the retrieved chunks. *)
Lemma elem_of_ordered_paper_ids (retrieved : list (chunk * Q)) (pid : pystr) :
  pid ∈ ordered_paper_ids retrieved ↔ pid ∈ (λ hit, c_paper_id hit.1) <$> retrieved.
Proof.
  unfold ordered_paper_ids. rewrite ordered_paper_ids_from. simpl.
  rewrite list_elem_of_filter, elem_of_first_occurrences.
  split; [by intros [_ ?]|]. intros H. split; [apply not_elem_of_nil | done].
Qed.

Lemma compose_answer_calls env question srcs path :
  length (compose_answer env question srcs path).2 ≤ 1
  ∧ (_llm_available env = false → (compose_answer env question srcs path).2 = [])
  ∧ (srcs = [] → compose_answer env question srcs path = (NO_CONTENT, [])).
Proof.
  unfold compose_answer. destruct srcs as [|s srcs]; [simpl; split_and!; [lia|done..]|].
  unfold _call_groq. destruct (_llm_available env).
  - destruct (post env _); simpl; split_and!; (lia || done).
  - simpl; split_and!; (lia || done).
Qed.

Section answer_shape.

Variables Vec Fitted : Type.
Variable encode : pystr → Vec.
Variable fit_transform : list pystr → Fitted * list Vec.
Variable transform : Fitted → pystr → Vec.
Variable dot : Vec → Vec → Q.
Variable argsort : list Q → list nat.
Variable faiss_search : list Vec → Vec → Z → result (list (Z * Q)).

(** X6. Whenever [answer_query] returns: the paper of every source is on
    the traversal path, and the text of a source has at most 1200
    characters; the path has no node twice and holds only papers of the
    sources and concept nodes of the loaded graph; every node of the
    subgraph is on the path; with no source the answer is the fixed message
    and the path is empty; at most one prompt is posted, and none without a
    key. *)
Theorem answer_query_shape (b : VectorIndex.Backend) (fs : VectorIndex.files Vec)
    (graph_file : snapshot graph_json) (env : environment) (question : pystr) (k : Z)
    (a : answer) (calls : list pystr) :
  answer_query Vec Fitted encode fit_transform transform dot argsort faiss_search
    b fs graph_file env question k = Ok (a, calls) →
  (∀ s, s ∈ sources a →
     s_paper_id s ∈ traversal_path a ∧ length (s_text s) ≤ 1200)
  ∧ NoDup (traversal_path a)
  ∧ (∃ G, load empty_graph graph_file = Ok G ∧
       ∀ n, n ∈ traversal_path a → n ∈ s_paper_id <$> sources a ∨ is_concept G n)
  ∧ (∀ nj, nj ∈ (subgraph a).1 → ∃ n, nj_id nj = Some n ∧ n ∈ traversal_path a)
  ∧ (sources a = [] → answer_text a = NO_CONTENT ∧ traversal_path a = [])
  ∧ length calls ≤ 1
  ∧ (_llm_available env = false → calls = []).
Proof.
  unfold answer_query.
  destruct (VectorIndex.load _ _ _ _) as [index|]; simpl; [|done].
  destruct (VectorIndex.query _ _ _ _ _ _ _ _ _ _ _ _) as [[st retrieved]|]; simpl; [|done].
  destruct (load empty_graph graph_file) as [G|] eqn:EG; simpl; [|done].
  destruct (stitch G (ordered_paper_ids retrieved)) as [path|] eqn:Es; simpl; [|done].
  destruct (compose_answer_calls env question (to_source <$> retrieved) path)
    as (C1 & C2 & C3).
  destruct (compose_answer env question (to_source <$> retrieved) path)
    as [text_ cs] eqn:Ec.
  intros [= <- <-]. simpl in *.
  apply stitch_covers in Es as (S1 & S2 & S3 & S5).
  pose proof (elem_of_ordered_paper_ids retrieved) as O3.
  split_and!; [| done | | | | done | done].
  - intros s (hit & -> & Hhit)%list_elem_of_fmap. simpl. split.
    + apply S2, O3, list_elem_of_fmap. by exists hit.
    + rewrite length_take. lia.
  - exists G. split; [done|]. intros n Hn.
    destruct (S3 n Hn) as [Hs|Hc]; [left | by right].
    apply O3, list_elem_of_fmap in Hs as (hit & -> & Hhit).
    apply list_elem_of_fmap. exists (to_source hit). split; [done|].
    apply list_elem_of_fmap. by exists hit.
  - intros nj Hnj. destruct path as [|p path]; [by apply not_elem_of_nil in Hnj|].
    unfold subgraph_for_path in Hnj. simpl in Hnj.
    apply list_elem_of_fmap in Hnj as ([n na] & -> & Hna).
    apply list_elem_of_filter in Hna as [Hin _]. exists n. done.
  - intros Hs. apply fmap_nil_inv in Hs as ->. split.
    + specialize (C3 eq_refl). congruence.
    + unfold ordered_paper_ids in S5. simpl in S5. destruct path; [done|]. simpl in S5. lia.
Qed.
End answer_shape.

(** ** What [build] leaves in the graph *)

(** The attributes [build] gives: a node has a label and is a paper or a
    concept; an edge is a [mentions] or a [related] edge of weight at least
    [1.0]. *)
Definition typed_node (a : node_attr) : Prop :=
  is_Some (label a) ∧ (type a = Some (lit "paper") ∨ type a = Some (lit "concept")).

Definition typed_edge (d : edge_attr) : Prop :=
  (relation d = Some (lit "mentions") ∨ relation d = Some (lit "related"))
  ∧ (1 <= weight d)%Q.

Definition typed (G : Graph) : Prop :=
  (∀ n a, dict_get n (_node G) = Some a → typed_node a)
  ∧ (∀ u v d, edge_data G u v = Some d → typed_edge d).

(** The nodes a call names as new nodes. *)
Definition call_names (c : call) : list pystr :=
  match c with
  | AddNode n _ | AddConcept n _ => [n]
  | AddEdge _ _ _ _ => []
  end.

(** A call that keeps the graph typed, when the nodes [known] are there:
    an edge joins two of them. *)
Definition call_ok (known : list pystr) (c : call) : Prop :=
  match c with
  | AddNode _ a | AddConcept _ a => typed_node a
  | AddEdge s t rel w =>
      s ∈ known ∧ t ∈ known
      ∧ (rel = lit "mentions" ∨ rel = lit "related") ∧ (1 <= w)%Q
  end.

Fixpoint calls_ok (known : list pystr) (cs : list call) : Prop :=
  match cs with
  | [] => True
  | c :: cs' => call_ok known c ∧ calls_ok (call_names c ++ known) cs'
  end.

Lemma call_ok_mono known known' c :
  (∀ n, n ∈ known → n ∈ known') → call_ok known c → call_ok known' c.
Proof. destruct c; simpl; [done | done |]. intros H (? & ? & ?). auto. Qed.

Lemma calls_ok_mono known known' cs :
  (∀ n, n ∈ known → n ∈ known') → calls_ok known cs → calls_ok known' cs.
Proof.
  revert known known'. induction cs as [|c cs IH]; intros known known' Hk; simpl; [done|].
  intros [Hc Hcs]. split; [by eapply call_ok_mono|].
  eapply IH; [|exact Hcs]. intros n [?|?]%elem_of_app; apply elem_of_app; auto.
Qed.

Lemma calls_ok_app known known2 cs1 cs2 :
  calls_ok known cs1 → calls_ok known2 cs2 →
  (∀ n, n ∈ known2 → n ∈ known ∨ n ∈ cs1 ≫= call_names) →
  calls_ok known (cs1 ++ cs2).
Proof.
  revert known. induction cs1 as [|c cs1 IH]; intros known H1 H2 Hk; simpl.
  - eapply calls_ok_mono; [|exact H2]. intros n Hn.
    destruct (Hk n Hn) as [?|Hn']; [done|]. by apply not_elem_of_nil in Hn'.
  - destruct H1 as [Hc H1]. split; [done|]. apply IH; [done | done |].
    intros n Hn. rewrite elem_of_app.
    destruct (Hk n Hn) as [?|Hn']; [by left; right|].
    simpl in Hn'. apply elem_of_app in Hn' as [?|?]; [by left; left | by right].
Qed.

Lemma _node__add_edge_old G s t rel w :
  s ∈ nodes G → t ∈ nodes G → _node (_add_edge G s t rel w) = _node G.
Proof.
  intros Hs Ht. unfold _add_edge. destruct (has_edge G s t).
  - by destruct (edge_ref G s t).
  - by apply node_add_edge_old.
Qed.

Lemma typed_run_call G known c :
  wf G → typed G → (∀ n, n ∈ known → n ∈ nodes G) → call_ok known c →
  typed (run_call G c).
Proof.
  intros HG [Hn He] Hk Hc. destruct c as [n a|n a|s t rel w]; simpl in *.
  - split.
    + intros m b. unfold add_node.
      assert (Hset : dict_get m (dict_set n a (_node G)) = Some b → typed_node b).
      { destruct (decide (m = n)) as [->|Hm].
        - rewrite dict_get_set_eq. by intros [= <-].
        - rewrite dict_get_set_ne by done. apply Hn. }
      by destruct (has_node G n).
    + intros u v d. rewrite edge_data_add_node by done. apply He.
  - destruct (has_node G n); [done|]. split.
    + intros m b. unfold add_node.
      assert (Hset : dict_get m (dict_set n a (_node G)) = Some b → typed_node b).
      { destruct (decide (m = n)) as [->|Hm].
        - rewrite dict_get_set_eq. by intros [= <-].
        - rewrite dict_get_set_ne by done. apply Hn. }
      by destruct (has_node G n).
    + intros u v d. rewrite edge_data_add_node by done. apply He.
  - destruct Hc as (Hs & Ht & Hrel & Hw). split.
    + rewrite _node__add_edge_old by auto. apply Hn.
    + intros u v d. rewrite edge_data__add_edge by done.
      destruct (decide (same_pair s t u v)); [|apply He].
      intros [= <-]. unfold merged. destruct (edge_data G s t) as [d0|] eqn:Ed.
      * destruct (He _ _ _ Ed) as [Hr Hw0]. split; [done|]. simpl. lra.
      * split; [|done]. simpl. destruct Hrel as [-> | ->]; auto.
Qed.

Lemma nodes_run_call G c n :
  wf G → n ∈ nodes (run_call G c)
  ↔ n ∈ nodes G ∨ n ∈ call_names c
    ∨ match c with AddEdge s t _ _ => n = s ∨ n = t | _ => False end.
Proof.
  intros HG. destruct c as [m a|m a|s t rel w]; simpl.
  - rewrite elem_of_nodes_add_node, list_elem_of_singleton. tauto.
  - destruct (has_node G m) eqn:Em.
    + apply has_node_true in Em. rewrite list_elem_of_singleton.
      split; [tauto|]. intros [?|[->|[]]]; done.
    + rewrite elem_of_nodes_add_node, list_elem_of_singleton. tauto.
  - rewrite nodes__add_edge by done. rewrite elem_of_nil. tauto.
Qed.

Lemma typed_run_calls G known cs :
  wf G → typed G → (∀ n, n ∈ known → n ∈ nodes G) → calls_ok known cs →
  typed (run_calls G cs)
  ∧ ∀ n, n ∈ nodes (run_calls G cs) ↔ n ∈ nodes G ∨ n ∈ cs ≫= call_names.
Proof.
  revert G known. induction cs as [|c cs IH]; intros G known HG HT Hk; simpl.
  - intros _. split; [done|]. intros n. rewrite elem_of_nil. tauto.
  - intros [Hc Hcs].
    assert (Hk' : ∀ n, n ∈ call_names c ++ known → n ∈ nodes (run_call G c)).
    { intros n Hn. apply nodes_run_call; [done|].
      apply elem_of_app in Hn as [?|?]; auto. }
    destruct (IH (run_call G c) (call_names c ++ known)) as [HT' Hn'];
      [by apply wf_run_call | by eapply typed_run_call | done | done |].
    split; [done|]. intros n. rewrite Hn', nodes_run_call, elem_of_app by done.
    split; [|tauto]. intros [[?|[?|Hst]]|?]; auto.
    destruct c as [| |s t rel w]; try done. destruct Hc as (Hs & Ht & _).
    destruct Hst as [-> | ->]; auto.
Qed.

Lemma typed_empty_graph : typed empty_graph.
Proof. split; [done|]. intros u v d. done. Qed.

Section built.

Variable extract_keywords : pystr → list pystr.
Variable lower : pystr → pystr.

Lemma names_paper_calls papers : paper_calls papers ≫= call_names = paper_id <$> papers.
Proof.
  induction papers as [|p ps IH]; [done|].
  change (paper_id p :: (paper_calls ps ≫= call_names) = paper_id p :: (paper_id <$> ps)).
  by rewrite IH.
Qed.

Lemma calls_ok_paper_calls known papers : calls_ok known (paper_calls papers).
Proof.
  revert known. induction papers as [|p ps IH]; intros known; simpl; [done|].
  split; [|apply IH]. split; simpl; [by eexists | by left].
Qed.

Lemma calls_ok_mention_calls known pid kws :
  pid ∈ known → calls_ok known (mention_calls lower pid kws).
Proof.
  revert known. induction kws as [|kw kws IH]; intros known Hp; simpl; [done|].
  split_and!.
  - split; simpl; [by eexists | by right].
  - apply elem_of_cons. by right.
  - apply elem_of_cons. by left.
  - by left.
  - done.
  - apply IH. apply elem_of_cons. by right.
Qed.

Lemma names_mention_calls pid kws :
  mention_calls lower pid kws ≫= call_names = concept_id lower <$> kws.
Proof.
  induction kws as [|kw kws IH]; [done|].
  change (concept_id lower kw :: (mention_calls lower pid kws ≫= call_names)
          = concept_id lower kw :: (concept_id lower <$> kws)).
  by rewrite IH.
Qed.

Lemma calls_ok_bind {A} known (l : list A) (f : A → list call) :
  (∀ x known', x ∈ l → (∀ n, n ∈ known → n ∈ known') → calls_ok known' (f x)) →
  calls_ok known (l ≫= f).
Proof.
  revert known. induction l as [|x l IH]; intros known Hf; [done|].
  change ((x :: l) ≫= f) with (f x ++ (l ≫= f)).
  apply (calls_ok_app known known).
  - apply Hf; [by apply elem_of_cons; left | done].
  - apply IH. intros y known' Hy Hk. apply Hf; [by apply elem_of_cons; right | done].
  - by left.
Qed.

Lemma calls_ok_concept_calls known papers chunks :
  (∀ p, p ∈ papers → paper_id p ∈ known) →
  calls_ok known (concept_calls extract_keywords lower papers chunks).
Proof.
  intros Hk. apply calls_ok_bind. intros p known' Hp Hsub.
  apply calls_ok_mention_calls. auto.
Qed.

Lemma calls_ok_related_calls known papers chunks :
  (∀ p, p ∈ papers → paper_id p ∈ known) →
  calls_ok known (related_calls extract_keywords papers chunks).
Proof.
  intros Hk. apply calls_ok_bind. intros [p q] known' Hpq Hsub.
  apply elem_of_pairs in Hpq as [Hp Hq]. unfold related_call. simpl.
  destruct (shared _ _) as [|kw inter] eqn:Es; [done|]. simpl.
  split_and!; [auto | auto | by right | | done].
  change 1%Q with (inject_Z 1). rewrite <- Zle_Qle. lia.
Qed.

Lemma names_related_calls papers chunks :
  related_calls extract_keywords papers chunks ≫= call_names = [].
Proof.
  unfold related_calls. induction (pairs papers) as [|pq l IH]; [done|].
  change ((pq :: l) ≫= related_call extract_keywords chunks)
    with (related_call extract_keywords chunks pq
            ++ (l ≫= related_call extract_keywords chunks)).
  rewrite bind_app, IH, app_nil_r. unfold related_call.
  by destruct (shared _ _).
Qed.

Lemma names_concept_calls papers chunks n :
  n ∈ concept_calls extract_keywords lower papers chunks ≫= call_names
  ↔ ∃ p kw, p ∈ papers ∧ kw ∈ keyphrases extract_keywords chunks (paper_id p)
            ∧ n = concept_id lower kw.
Proof.
  unfold concept_calls. rewrite list_elem_of_bind. split.
  - intros (c & Hn & Hc). apply list_elem_of_bind in Hc as (p & Hc & Hp).
    assert (Hn' : n ∈ mention_calls lower (paper_id p)
                        (keyphrases extract_keywords chunks (paper_id p)) ≫= call_names).
    { apply list_elem_of_bind. by exists c. }
    rewrite names_mention_calls in Hn'. apply list_elem_of_fmap in Hn' as (kw & -> & Hkw).
    by exists p, kw.
  - intros (p & kw & Hp & Hkw & ->).
    assert (Hn' : concept_id lower kw
                  ∈ mention_calls lower (paper_id p)
                      (keyphrases extract_keywords chunks (paper_id p)) ≫= call_names).
    { rewrite names_mention_calls. apply list_elem_of_fmap. by exists kw. }
    apply list_elem_of_bind in Hn' as (c & Hn & Hc). exists c. split; [done|].
    apply list_elem_of_bind. by exists p.
Qed.

Lemma calls_ok_build_calls (papers : list paper) (chunks : list chunk) :
  calls_ok [] (build_calls extract_keywords lower papers chunks).
Proof.
  unfold build_calls.
  apply (calls_ok_app _ (paper_id <$> papers)); [apply calls_ok_paper_calls | |].
  - apply (calls_ok_app _ (paper_id <$> papers)).
    + apply calls_ok_concept_calls. intros p Hp. apply list_elem_of_fmap. by exists p.
    + apply calls_ok_related_calls. intros p Hp. apply list_elem_of_fmap. by exists p.
    + by left.
  - intros n Hn. right. by rewrite names_paper_calls.
Qed.

Lemma typed_build_graph (papers : list paper) (chunks : list chunk) :
  typed (build_graph extract_keywords lower empty_graph papers chunks).
Proof.
  rewrite build_graph_run.
  apply (typed_run_calls empty_graph [] (build_calls extract_keywords lower papers chunks)
           wf_empty_graph typed_empty_graph);
    [by intros n Hn%not_elem_of_nil | apply calls_ok_build_calls].
Qed.

(** X7. In the graph that [build] makes, every node has a label and the
    type [paper] or [concept], every edge has the relation [mentions] or
    [related] and a weight of at least [1.0], and the nodes are the paper
    ids together with the concept ids of the papers' keyphrases. *)
Theorem build_graph_typed (papers : list paper) (chunks : list chunk) :
  let G := build_graph extract_keywords lower empty_graph papers chunks in
  (∀ n a, dict_get n (_node G) = Some a →
     is_Some (label a) ∧ (type a = Some (lit "paper") ∨ type a = Some (lit "concept")))
  ∧ (∀ u v d, edge_data G u v = Some d →
       (relation d = Some (lit "mentions") ∨ relation d = Some (lit "related"))
       ∧ (1 <= weight d)%Q)
  ∧ (∀ n, n ∈ nodes G ↔
       n ∈ paper_id <$> papers
       ∨ ∃ p kw, p ∈ papers ∧ kw ∈ keyphrases extract_keywords chunks (paper_id p)
                 ∧ n = concept_id lower kw).
Proof.
  intros G. unfold G. rewrite build_graph_run.
  destruct (typed_run_calls empty_graph [] (build_calls extract_keywords lower papers chunks)
              wf_empty_graph typed_empty_graph) as [[HT1 HT2] Hn];
    [by intros n Hn%not_elem_of_nil | apply calls_ok_build_calls |].
  split_and!; [exact HT1 | exact HT2 |].
  intros n. rewrite Hn. unfold build_calls.
  rewrite !bind_app, names_paper_calls, names_related_calls, app_nil_r, elem_of_app.
  rewrite names_concept_calls. unfold nodes. simpl. rewrite elem_of_nil. tauto.
Qed.

End built.

(** *** The [mentions] edges *)

Lemma iter_add_weight k d :
  relation (Nat.iter k (add_weight 1) d) = relation d
  ∧ (weight (Nat.iter k (add_weight 1) d) == weight d + inject_Z (Z.of_nat k))%Q.
Proof.
  induction k as [|k [IH1 IH2]].
  - simpl. split; [done|]. unfold inject_Z. ring.
  - rewrite Nat2Z.inj_succ. unfold Z.succ. rewrite inject_Z_plus.
    simpl. split; [done|]. rewrite IH2. unfold inject_Z. ring.
Qed.

Lemma iter_add_weight_comm k d :
  Nat.iter k (add_weight 1) (add_weight 1 d) = add_weight 1 (Nat.iter k (add_weight 1) d).
Proof. induction k as [|k IH]; [done|]. simpl. by rewrite IH. Qed.

Section mentions.

Variable extract_keywords : pystr → list pystr.
Variable lower : pystr → pystr.

(** The edge between [pid] and the concept [c] after the inner loop of
    [build] over the phrases [kws]: one more unit of weight for each phrase
    whose concept is [c]. *)
Lemma mention_calls_data G pid kws c :
  wf G →
  edge_data (run_calls G (mention_calls lower pid kws)) pid c
  = match length (filter (λ kw, concept_id lower kw = c) kws), edge_data G pid c with
    | k, Some d => Some (Nat.iter k (add_weight 1) d)
    | 0, None => None
    | S k, None =>
        Some (Nat.iter k (add_weight 1)
                {| relation := Some (lit "mentions"); weight := 1 |})
    end.
Proof.
  revert G. induction kws as [|kw kws IH]; intros G HG.
  - simpl. by destruct (edge_data G pid c).
  - change (mention_calls lower pid (kw :: kws))
      with ([AddConcept (concept_id lower kw)
               {| label := Some kw; type := Some (lit "concept") |};
             AddEdge pid (concept_id lower kw) (lit "mentions") 1%Q]
            ++ mention_calls lower pid kws).
    rewrite run_calls_app.
    set (G1 := run_call G (AddConcept (concept_id lower kw)
                             {| label := Some kw; type := Some (lit "concept") |})).
    assert (HG1 : wf G1) by by apply wf_run_call.
    assert (E1 : ∀ u v, edge_data G1 u v = edge_data G u v).
    { intros u v. unfold G1. simpl.
      destruct (has_node G (concept_id lower kw)); [done|]. by apply edge_data_add_node. }
    set (G2 := _add_edge G1 pid (concept_id lower kw) (lit "mentions") 1).
    assert (HG2 : wf G2) by by apply wf__add_edge.
    change (run_calls G [_; _]) with G2.
    assert (E2 : edge_data G2 pid c
                 = if decide (concept_id lower kw = c)
                   then Some (match edge_data G pid c with
                              | Some d => add_weight 1 d
                              | None => {| relation := Some (lit "mentions"); weight := 1 |}
                              end)
                   else edge_data G pid c).
    { unfold G2. rewrite edge_data__add_edge by done. unfold merged. rewrite !E1.
      destruct (decide (concept_id lower kw = c)) as [Ec|Ec].
      - rewrite decide_True by (left; by rewrite Ec). by rewrite Ec.
      - rewrite decide_False; [done|].
        intros [[_ E]|[E1' E2']]; [done|]. apply Ec. congruence. }
    rewrite (IH G2 HG2), E2.
    destruct (decide (concept_id lower kw = c)) as [Ec|Ec].
    + rewrite filter_cons_True by done. cbn [length].
      destruct (edge_data G pid c) as [d|].
      * destruct (length (filter _ kws)); [done|].
        by rewrite iter_add_weight_comm.
      * by destruct (length (filter _ kws)).
    + by rewrite filter_cons_False by done.
Qed.

Variable papers : list paper.
Variable chunks : list chunk.

Hypothesis ids_nodup : NoDup (paper_id <$> papers).
Hypothesis ids_not_concepts : ∀ p q kw,
  p ∈ papers → q ∈ papers → kw ∈ keyphrases extract_keywords chunks (paper_id q) →
  paper_id p ≠ concept_id lower kw.

Lemma mention_calls_frame p q kw :
  p ∈ papers → q ∈ papers → paper_id q ≠ paper_id p →
  kw ∈ keyphrases extract_keywords chunks (paper_id p) →
  Forall (λ c, ¬ call_touches (paper_id p) (concept_id lower kw) c)
    (mention_calls lower (paper_id q) (keyphrases extract_keywords chunks (paper_id q))).
Proof using ids_not_concepts.
  intros Hp Hq Hne Hkw. apply Forall_bind, list.Forall_forall. intros kw' Hkw'.
  constructor; [simpl; tauto|]. constructor; [|constructor]. simpl.
  intros [[E1 E2]|[E1 E2]]; [done|].
  by apply (ids_not_concepts q p kw).
Qed.

Lemma related_calls_mention_frame p kw :
  p ∈ papers → kw ∈ keyphrases extract_keywords chunks (paper_id p) →
  Forall (λ c, ¬ call_touches (paper_id p) (concept_id lower kw) c)
    (related_calls extract_keywords papers chunks).
Proof using ids_not_concepts.
  intros Hp Hkw. apply Forall_bind, list.Forall_forall. intros [p' q'] Hpq.
  apply elem_of_pairs in Hpq as [Hp' Hq'].
  unfold related_call. simpl. destruct (shared _ _); constructor; [|constructor].
  simpl. intros [[E1 E2]|[E1 E2]].
  - by apply (ids_not_concepts q' p kw).
  - by apply (ids_not_concepts p' p kw).
Qed.

(** X8. When the paper ids are distinct and none of them is the id of a
    concept, [build] joins every paper to the concept of each of its
    keyphrases by one [mentions] edge, readable from both ends, whose
    weight is the number of the paper's keyphrases with that concept. *)
Theorem build_mentions_edges (p : paper) (kw : pystr) :
  p ∈ papers → kw ∈ keyphrases extract_keywords chunks (paper_id p) →
  let G := build_graph extract_keywords lower empty_graph papers chunks in
  let same := filter (λ kw', concept_id lower kw' = concept_id lower kw)
                (keyphrases extract_keywords chunks (paper_id p)) in
  ∃ d, edge_data G (paper_id p) (concept_id lower kw) = Some d
       ∧ edge_data G (concept_id lower kw) (paper_id p) = Some d
       ∧ relation d = Some (lit "mentions")
       ∧ (weight d == inject_Z (Z.of_nat (length same)))%Q
       ∧ 1 ≤ length same.
Proof using ids_nodup ids_not_concepts.
  intros Hp Hkw G same.
  assert (Hsame : 1 ≤ length same).
  { assert (kw ∈ same) as Hin by (by apply list_elem_of_filter).
    destruct same; [by apply not_elem_of_nil in Hin | simpl; lia]. }
  assert (HG : wf G) by (apply wf_build_graph, wf_empty_graph).
  assert (Hgoal : ∃ d, edge_data G (paper_id p) (concept_id lower kw) = Some d
       ∧ relation d = Some (lit "mentions")
       ∧ (weight d == inject_Z (Z.of_nat (length same)))%Q).
  2:{ destruct Hgoal as (d & Hd & Hr & Hw). exists d. split_and!; try done.
      by rewrite wf_edge_data_sym. }
  unfold G. rewrite build_graph_run. unfold build_calls. rewrite !run_calls_app.
  rewrite (edge_data_run_calls_frame _ (related_calls _ _ _));
    [| do 2 apply wf_run_calls; apply wf_empty_graph
     | by apply related_calls_mention_frame].
  apply list_elem_of_split in Hp as (l1 & l2 & Hl).
  assert (Hnd : NoDup (paper_id <$> l1 ++ p :: l2)) by (by rewrite <- Hl).
  rewrite fmap_app, fmap_cons in Hnd.
  apply list.NoDup_app in Hnd as (_ & Hl1 & Hnd). apply NoDup_cons in Hnd as [Hl2 _].
  assert (Hin : ∀ q, q ∈ l1 ∨ q ∈ l2 → q ∈ papers ∧ paper_id q ≠ paper_id p).
  { intros q Hq. split.
    - rewrite Hl. apply elem_of_app. destruct Hq; [by left | by right; right].
    - intros E. destruct Hq as [Hq|Hq].
      + apply (Hl1 (paper_id p)); [|by left]. rewrite <- E.
        apply list_elem_of_fmap. by exists q.
      + apply Hl2. rewrite <- E. apply list_elem_of_fmap. by exists q. }
  assert (Hp : p ∈ papers).
  { rewrite Hl. apply elem_of_app. right. by left. }
  assert (Hframe : ∀ l, (∀ q, q ∈ l → q ∈ l1 ∨ q ∈ l2) →
            Forall (λ c, ¬ call_touches (paper_id p) (concept_id lower kw) c)
              (concept_calls extract_keywords lower l chunks)).
  { intros l Hl'. apply Forall_bind, list.Forall_forall. intros q Hq.
    destruct (Hin q (Hl' q Hq)) as [Hq1 Hq2]. by apply mention_calls_frame. }
  unfold concept_calls at 1. rewrite Hl, bind_app, bind_cons, !run_calls_app.
  fold (concept_calls extract_keywords lower l1 chunks).
  fold (concept_calls extract_keywords lower l2 chunks).
  set (G0 := run_calls (run_calls empty_graph (paper_calls (l1 ++ p :: l2)))
               (concept_calls extract_keywords lower l1 chunks)).
  assert (HG0 : wf G0) by (do 2 apply wf_run_calls; apply wf_empty_graph).
  assert (E0 : edge_data G0 (paper_id p) (concept_id lower kw) = None).
  { unfold G0. rewrite !edge_data_run_calls_frame; try done.
    - apply wf_empty_graph.
    - apply paper_calls_frame.
    - apply wf_run_calls, wf_empty_graph.
    - apply Hframe. auto. }
  rewrite edge_data_run_calls_frame; [| by apply wf_run_calls | apply Hframe; auto].
  rewrite mention_calls_data by done. rewrite E0. fold same.
  destruct (length same) as [|k] eqn:Ek; [lia|].
  eexists. split; [done|].
  destruct (iter_add_weight k {| relation := Some (lit "mentions"); weight := 1 |})
    as [Hr Hw].
  split; [done|]. rewrite Hw. simpl.
  rewrite Nat2Z.inj_succ. unfold Z.succ. rewrite inject_Z_plus. unfold inject_Z. ring.
Qed.

End mentions.

(** ** The graph as it is served *)

(** [KnowledgeGraph.to_dict]: the nodes and the edges of [self.G], as
    [_persist] writes them. *)
Definition to_dict (G : Graph) : list node_json * list edge_json :=
  (node_to_json <$> _node G, omap (edge_to_json G) (edges G)).

Lemma omap_cons_Some {A B} (f : A → option B) (x : A) (l : list A) (y : B) :
  f x = Some y → omap f (x :: l) = y :: omap f l.
Proof. intros H. simpl. by rewrite H. Qed.

Lemma edge_to_json_Some G u v d :
  edge_data G u v = Some d →
  edge_to_json G (u, v)
  = Some {| ej_source := Some u; ej_target := Some v;
            ej_relation := relation d; ej_weight := Some (weight d) |}.
Proof. intros Hd. unfold edge_to_json. simpl. by rewrite Hd. Qed.

Lemma omap_edge_to_json G (es : list (pystr * pystr)) :
  wf G → (∀ e, e ∈ es → e ∈ edges G) →
  length (omap (edge_to_json G) es) = length es
  ∧ ∀ ej, ej ∈ omap (edge_to_json G) es ↔
      ∃ u v d, (u, v) ∈ es ∧ edge_data G u v = Some d
        ∧ ej = {| ej_source := Some u; ej_target := Some v;
                  ej_relation := relation d; ej_weight := Some (weight d) |}.
Proof.
  intros HG. induction es as [|[u v] es IH]; intros Hes.
  - split; [done|]. intros ej. split.
    + by intros ?%not_elem_of_nil.
    + by intros (? & ? & ? & ?%not_elem_of_nil & _).
  - destruct IH as [IH1 IH2].
    { intros e He. apply Hes, elem_of_cons. by right. }
    assert (Huv : is_Some (edge_data G u v)).
    { apply edges_iff_data; [done|]. left. apply Hes, elem_of_cons. by left. }
    destruct Huv as [d Hd].
    rewrite (omap_cons_Some _ _ _ _ (edge_to_json_Some G u v d Hd)).
    split; [simpl; by rewrite IH1|]. intros ej. rewrite elem_of_cons, IH2. split.
    + intros [->|(x & y & d' & Hxy & Hd' & ->)].
      * exists u, v, d. split_and!; [by apply elem_of_cons; left | done | done].
      * exists x, y, d'. split_and!; [by apply elem_of_cons; right | done | done].
    + intros (x & y & d' & Hxy & Hd' & ->). apply elem_of_cons in Hxy as [[= -> ->]|Hxy].
      * left. congruence.
      * right. by exists x, y, d'.
Qed.

(** X9. For a well-formed graph, [to_dict] lists every node once and
    every edge once: as many entries as [G.nodes] and [G.edges] have, no
    node id twice, every edge entry with both of its ends among the listed
    nodes, and one entry for each pair of joined nodes, in one of the two
    directions. *)
Theorem to_dict_closed (G : Graph) :
  wf G →
  length (to_dict G).1 = length (nodes G)
  ∧ length (to_dict G).2 = length (edges G)
  ∧ NoDup (nj_id <$> (to_dict G).1)
  ∧ (∀ ej, ej ∈ (to_dict G).2 →
       ∃ u v, ej_source ej = Some u ∧ ej_target ej = Some v
         ∧ Some u ∈ nj_id <$> (to_dict G).1 ∧ Some v ∈ nj_id <$> (to_dict G).1)
  ∧ (∀ u v, is_Some (edge_data G u v) →
       length (filter (λ ej, (ej_source ej = Some u ∧ ej_target ej = Some v)
                             ∨ (ej_source ej = Some v ∧ ej_target ej = Some u))
                 (to_dict G).2) = 1).
Proof.
  intros HG. destruct (omap_edge_to_json G (edges G) HG) as [L E]; [done|].
  assert (Hids : nj_id <$> (to_dict G).1 = Some <$> nodes G).
  { unfold to_dict, nodes, keys. simpl. rewrite <- !list_fmap_compose. done. }
  split_and!.
  - unfold to_dict, nodes, keys. simpl. by rewrite !length_fmap.
  - exact L.
  - rewrite Hids. apply NoDup_fmap_2; [apply _ | apply HG].
  - intros ej (u & v & d & Huv & Hd & ->)%E. exists u, v. rewrite Hids. simpl.
    destruct (elem_of_edges_ref G u v HG Huv) as [r Hr].
    destruct (wf_edge_nodes G u v r HG Hr) as [Hu Hv].
    split_and!; [done | done | |];
      apply list_elem_of_fmap; eauto.
  - intros u v Huv. unfold to_dict. simpl.
    assert (Hf : ∀ es : list (pystr * pystr), (∀ e, e ∈ es → e ∈ edges G) →
      filter (λ ej, (ej_source ej = Some u ∧ ej_target ej = Some v)
                    ∨ (ej_source ej = Some v ∧ ej_target ej = Some u))
        (omap (edge_to_json G) es)
      = omap (edge_to_json G) (filter (λ e, same_pair u v e.1 e.2) es)).
    { induction es as [|[x y] es IH]; intros Hes; [done|].
      assert (IH' : filter (λ ej, (ej_source ej = Some u ∧ ej_target ej = Some v)
                                  ∨ (ej_source ej = Some v ∧ ej_target ej = Some u))
                      (omap (edge_to_json G) es)
                    = omap (edge_to_json G) (filter (λ e, same_pair u v e.1 e.2) es)).
      { apply IH. intros e He. apply Hes, elem_of_cons. by right. }
      clear IH.
      destruct (edges_iff_data G x y HG) as [Hxy _].
      destruct Hxy as [d Hd]; [left; apply Hes; by apply elem_of_cons; left|].
      rewrite (omap_cons_Some _ _ _ _ (edge_to_json_Some G x y d Hd)).
      destruct (decide (same_pair u v x y)) as [Hs|Hs].
      - rewrite (filter_cons_True (λ e, same_pair u v e.1 e.2)) by done.
        rewrite filter_cons_True.
        + rewrite (omap_cons_Some _ _ _ _ (edge_to_json_Some G x y d Hd)). by rewrite IH'.
        + simpl. destruct Hs as [[-> ->]|[-> ->]]; auto.
      - rewrite (filter_cons_False (λ e, same_pair u v e.1 e.2)) by done.
        rewrite filter_cons_False; [done|]. simpl.
        intros [[[= ->] [= ->]]|[[= ->] [= ->]]]; apply Hs; [by left | by right]. }
    rewrite Hf by done.
    assert (Hr : is_Some (edge_ref G u v)).
    { unfold edge_data in Huv. destruct (edge_ref G u v); [by eexists | by destruct Huv]. }
    assert (Hlen : length (filter (λ e, same_pair u v e.1 e.2) (edges G)) = 1).
    { destruct (edges_between_one G u v HG Hr) as [H|H];
        unfold edges_between in H; by rewrite H. }
    destruct (omap_edge_to_json G (filter (λ e, same_pair u v e.1 e.2) (edges G)) HG)
      as [L' _].
    { intros e He. by apply list_elem_of_filter in He as [_ He]. }
    by rewrite L'.
Qed.


(** ** What [load] reads *)

(** The last entry of [graph.json] for a node, and for a pair of nodes in
    either orientation. *)
Definition last_node (l : list node_json) (n : pystr) : option node_json :=
  list.last (filter (λ nj, nj_id nj = Some n) l).

Definition joins (u v : pystr) (e : edge_json) : Prop :=
  (ej_source e = Some u ∧ ej_target e = Some v)
  ∨ (ej_source e = Some v ∧ ej_target e = Some u).

#[export] Instance joins_dec u v e : Decision (joins u v e).
Proof. unfold joins. apply _. Defined.

Definition last_edge (l : list edge_json) (u v : pystr) : option edge_json :=
  list.last (filter (joins u v) l).

(** The attributes [load] stores for an entry. *)
Definition node_of_json (nj : node_json) : node_attr :=
  {| label := nj_label nj; type := nj_type nj |}.

Definition edge_of_json (e : edge_json) : edge_attr :=
  {| relation := ej_relation e; weight := default 1%Q (ej_weight e) |}.

(** The attributes of a node that [add_edge] had to create. *)
Definition bare : node_attr := {| label := None; type := None |}.

Definition complete_nodes (l : list node_json) : Prop :=
  Forall (λ nj, is_Some (nj_id nj)) l.

Definition complete_edges (l : list edge_json) : Prop :=
  Forall (λ e, is_Some (ej_source e) ∧ is_Some (ej_target e)) l.

Lemma last_cons_filter {A} (P : A → Prop) `{∀ x, Decision (P x)} (x : A) (l : list A) :
  list.last (filter P (x :: l))
  = match list.last (filter P l) with
    | Some y => Some y
    | None => if decide (P x) then Some x else None
    end.
Proof.
  destruct (decide (P x)) as [Hx|Hx].
  - rewrite filter_cons_True by done. rewrite last_cons. by destruct (list.last _).
  - rewrite filter_cons_False by done. by destruct (list.last _).
Qed.

Lemma _node_add_node G n a : _node (add_node G n a) = dict_set n a (_node G).
Proof. unfold add_node. by destruct (has_node G n). Qed.

Lemma load_nodes_spec G (l : list node_json) :
  wf G →
  (complete_nodes l →
   ∃ G', load_nodes G l = Ok G' ∧ wf G'
     ∧ (∀ n, dict_get n (_node G')
             = match last_node l n with
               | Some nj => Some (node_of_json nj)
               | None => dict_get n (_node G)
               end)
     ∧ (∀ u v, edge_data G' u v = edge_data G u v))
  ∧ (¬ complete_nodes l → load_nodes G l = Raise KeyError).
Proof.
  revert G. induction l as [|nj l IH]; intros G HG.
  - split; [|intros []; constructor]. intros _. exists G. by split_and!.
  - split.
    + intros [[n Hn] Hl]%list.Forall_cons. simpl. rewrite Hn. simpl.
      destruct (IH (add_node G n {| label := nj_label nj; type := nj_type nj |}))
        as [IH1 _]; [by apply wf_add_node|].
      destruct (IH1 Hl) as (G' & -> & HG' & Hnode & Hedge).
      exists G'. split_and!; [done | done | |].
      * intros m. rewrite Hnode. unfold last_node. rewrite last_cons_filter.
        fold (last_node l m). destruct (last_node l m); [done|].
        rewrite _node_add_node. destruct (decide (nj_id nj = Some m)) as [E|E].
        -- assert (m = n) as -> by congruence. by rewrite dict_get_set_eq.
        -- rewrite dict_get_set_ne; [done|]. congruence.
      * intros u v. rewrite Hedge. by apply edge_data_add_node.
    + intros Hc. simpl. destruct (nj_id nj) as [n|] eqn:Hn; simpl; [|done].
      destruct (IH (add_node G n {| label := nj_label nj; type := nj_type nj |}))
        as [_ IH2]; [by apply wf_add_node|].
      apply IH2. intros Hl. apply Hc. constructor; [by rewrite Hn | done].
Qed.

Lemma dict_get_touch_node G n m :
  dict_get m (_node (touch_node G n))
  = match dict_get m (_node G) with
    | Some a => Some a
    | None => if decide (m = n) then Some bare else None
    end.
Proof.
  unfold touch_node. destruct (has_node G n) eqn:En.
  - destruct (dict_get m (_node G)) eqn:Em; [done|].
    destruct (decide (m = n)) as [->|]; [|done].
    apply has_node_true, dict_get_is_Some in En as [a Ha]. congruence.
  - simpl. apply has_node_false, dict_get_None in En.
    destruct (decide (m = n)) as [->|Hm].
    + by rewrite dict_get_set_eq, En.
    + rewrite dict_get_set_ne by done. by destruct (dict_get m (_node G)).
Qed.

Lemma load_edges_spec G (l : list edge_json) :
  wf G →
  (complete_edges l →
   ∃ G', load_edges G l = Ok G' ∧ wf G'
     ∧ (∀ n, dict_get n (_node G')
             = match dict_get n (_node G) with
               | Some a => Some a
               | None =>
                   if decide (Some n ∈ (ej_source <$> l) ++ (ej_target <$> l))
                   then Some bare else None
               end)
     ∧ (∀ u v, edge_data G' u v
               = match last_edge l u v with
                 | Some e => Some (edge_of_json e)
                 | None => edge_data G u v
                 end))
  ∧ (¬ complete_edges l → load_edges G l = Raise KeyError).
Proof.
  revert G. induction l as [|e l IH]; intros G HG.
  - split; [|intros []; constructor]. intros _. exists G. split_and!; [done | done | |done].
    intros n. destruct (dict_get n (_node G)); [done|].
    destruct (decide _) as [H|]; [|done]. by apply not_elem_of_nil in H.
  - split.
    + intros [[[s Hs] [t Ht]] Hl]%list.Forall_cons. simpl. rewrite Hs, Ht. simpl.
      set (a := {| relation := ej_relation e; weight := default 1%Q (ej_weight e) |}).
      destruct (IH (add_edge G s t a)) as [IH1 _]; [by apply wf_add_edge|].
      destruct (IH1 Hl) as (G' & -> & HG' & Hnode & Hedge).
      exists G'. split_and!; [done | done | |].
      * intros m. rewrite Hnode, node_add_edge, !dict_get_touch_node.
        destruct (dict_get m (_node G)) as [b|]; [done|].
        destruct (decide (m = s)) as [->|Hms].
        { rewrite decide_True; [done|]. apply elem_of_cons. by left. }
        destruct (decide (m = t)) as [->|Hmt].
        { rewrite decide_True; [done|]. apply elem_of_cons. right.
          apply elem_of_app. right. apply elem_of_cons. by left. }
        apply decide_ext. rewrite elem_of_cons, !elem_of_app, elem_of_cons.
        split; [tauto|]. intros [[= ->]|[?|[[= ->]|?]]]; tauto.
      * intros u v. rewrite Hedge. unfold last_edge. rewrite last_cons_filter.
        fold (last_edge l u v). destruct (last_edge l u v); [done|].
        rewrite edge_data_add_edge by done.
        destruct (decide (joins u v e)) as [J|J].
        -- rewrite decide_True; [done|]. unfold joins in J. rewrite Hs, Ht in J.
           destruct J as [[[= ->] [= ->]]|[[= ->] [= ->]]]; [by left | by right].
        -- rewrite decide_False; [done|]. intros S. apply J. unfold joins.
           rewrite Hs, Ht. destruct S as [[-> ->]|[-> ->]]; auto.
    + intros Hc. simpl. destruct (ej_source e) as [s|] eqn:Hs; simpl; [|done].
      destruct (ej_target e) as [t|] eqn:Ht; simpl; [|done].
      set (a := {| relation := ej_relation e; weight := default 1%Q (ej_weight e) |}).
      destruct (IH (add_edge G s t a)) as [_ IH2]; [by apply wf_add_edge|].
      apply IH2. intros Hl. apply Hc. constructor; [|done].
      rewrite Hs, Ht. by split.
Qed.

(** [load] on a [graph.json] that parses: the graph it leaves, or the
    [KeyError] of the first entry without its key. *)
Lemma load_parsed_spec (G0 : Graph) (data : graph_json) :
  let ns := default [] (gj_nodes data) in
  let es := default [] (gj_edges data) in
  (complete_nodes ns ∧ complete_edges es →
   ∃ G, load G0 (Parsed data) = Ok G ∧ wf G
     ∧ (∀ n, dict_get n (_node G)
             = match last_node ns n with
               | Some nj => Some (node_of_json nj)
               | None =>
                   if decide (Some n ∈ (ej_source <$> es) ++ (ej_target <$> es))
                   then Some bare else None
               end)
     ∧ (∀ u v, edge_data G u v = edge_of_json <$> last_edge es u v))
  ∧ (¬ (complete_nodes ns ∧ complete_edges es) → load G0 (Parsed data) = Raise KeyError).
Proof.
  intros ns es. unfold load. fold ns es.
  destruct (load_nodes_spec empty_graph ns wf_empty_graph) as [N1 N2].
  destruct (decide (complete_nodes ns)) as [Hn|Hn].
  - destruct (N1 Hn) as (G1 & -> & HG1 & Hnode1 & Hedge1).
    destruct (load_edges_spec G1 es HG1) as [E1 E2].
    destruct (decide (complete_edges es)) as [He|He].
    + destruct (E1 He) as (G & -> & HG & Hnode & Hedge). split; [|tauto].
      intros _. exists G. split_and!; [done | done | |].
      * intros n. rewrite Hnode, Hnode1. by destruct (last_node ns n).
      * intros u v. rewrite Hedge, Hedge1. by destruct (last_edge es u v).
    + rewrite (E2 He). split; [tauto | done].
  - rewrite (N2 Hn). split; [tauto | done].
Qed.

(** X11. [load] on a [graph.json] that parses returns exactly when every
    node entry has an [id] and every edge entry a [source] and a [target];
    otherwise it raises [KeyError]. *)
Theorem load_key_error (G0 : Graph) (data : graph_json) :
  let ns := default [] (gj_nodes data) in
  let es := default [] (gj_edges data) in
  (complete_nodes ns ∧ complete_edges es ↔ ∃ G, load G0 (Parsed data) = Ok G)
  ∧ (¬ (complete_nodes ns ∧ complete_edges es) ↔ load G0 (Parsed data) = Raise KeyError).
Proof.
  intros ns es. destruct (load_parsed_spec G0 data) as [L1 L2]. fold ns es in L1, L2.
  destruct (decide (complete_nodes ns ∧ complete_edges es)) as [H|H].
  - destruct (L1 H) as (G & HL & _). rewrite HL. split; split.
    + intros _. by exists G.
    + done.
    + tauto.
    + done.
  - rewrite (L2 H). split; split.
    + tauto.
    + by intros [? ?].
    + done.
    + done.
Qed.

(** X12. The graph [load] returns: a node listed in the file has the
    label and type of its last entry; an endpoint of an edge that is not
    listed is a node with neither; the data of an edge is that of the last
    entry joining its two ends in either direction, with the weight [1.0]
    when the entry has none. *)
Theorem load_contents (G0 : Graph) (data : graph_json) (G : Graph) :
  load G0 (Parsed data) = Ok G →
  let ns := default [] (gj_nodes data) in
  let es := default [] (gj_edges data) in
  wf G
  ∧ (∀ n, dict_get n (_node G)
          = match last_node ns n with
            | Some nj => Some (node_of_json nj)
            | None =>
                if decide (Some n ∈ (ej_source <$> es) ++ (ej_target <$> es))
                then Some bare else None
            end)
  ∧ (∀ u v, edge_data G u v = edge_of_json <$> last_edge es u v).
Proof.
  intros HL ns es. destruct (load_parsed_spec G0 data) as [L1 L2]. fold ns es in L1, L2.
  destruct (decide (complete_nodes ns ∧ complete_edges es)) as [H|H].
  - destruct (L1 H) as (G' & HL' & HG' & Hnode & Hedge).
    assert (G' = G) as -> by congruence. done.
  - rewrite (L2 H) in HL. done.
Qed.

(** ** More on [VectorIndex] *)

(** An id [faiss] may return for a list of [n] chunks without the loop
    failing: the padding [-1], or an index Python accepts. *)
Definition accepted (n : nat) (i : Z) : Prop :=
  i = (-1)%Z ∨ (- Z.of_nat n <= i < Z.of_nat n)%Z.

#[export] Instance accepted_dec n i : Decision (accepted n i).
Proof. unfold accepted. apply _. Defined.

Lemma getitem_list_outcome {A} (l : list A) (i : Z) :
  ((- Z.of_nat (length l) <= i < Z.of_nat (length l))%Z →
     ∃ x, getitem_list l i = Ok x
       ∧ l !! Z.to_nat (if decide (i < 0)%Z then Z.of_nat (length l) + i else i)%Z = Some x)
  ∧ (¬ (- Z.of_nat (length l) <= i < Z.of_nat (length l))%Z →
     getitem_list l i = Raise IndexError).
Proof.
  unfold getitem_list. cbv zeta. split.
  - intros Hi. destruct (decide (i < 0)%Z).
    + destruct (decide _) as [Hj|Hj]; [|lia].
      destruct (lookup_lt_is_Some_2 l (Z.to_nat (Z.of_nat (length l) + i))) as [x Hx]; [lia|].
      rewrite Hx. by exists x.
    + destruct (decide _) as [Hj|Hj]; [|lia].
      destruct (lookup_lt_is_Some_2 l (Z.to_nat i)) as [x Hx]; [lia|].
      rewrite Hx. by exists x.
  - intros Hi. destruct (decide (i < 0)%Z); destruct (decide _) as [Hj|Hj]; [lia | done | lia | done].
Qed.

(** X13. The loop of [query] over the ids [faiss] returned: it skips
    every [-1] and pairs each other id with the chunk at that index, when
    every id is [-1] or an index Python accepts for the list of chunks;
    one id outside makes it raise [IndexError]. *)
Theorem dense_results_outcome (metas : list chunk) (hits : list (Z * Q)) :
  (Forall (λ h, accepted (length metas) h.1) hits →
     ∃ r, VectorIndex.dense_results metas hits = Ok r
       ∧ Forall2 (λ h p, getitem_list metas h.1 = Ok p.1 ∧ p.2 = h.2)
           (filter (λ h, h.1 ≠ (-1)%Z) hits) r)
  ∧ (¬ Forall (λ h, accepted (length metas) h.1) hits →
     VectorIndex.dense_results metas hits = Raise IndexError).
Proof.
  induction hits as [|[i sc] hits [IH1 IH2]].
  - split; [|intros []; constructor]. intros _. exists []. split; [done | constructor].
  - simpl. destruct (decide (i = (-1)%Z)) as [->|Hi].
    + rewrite filter_cons_False by (simpl; intros Hne; by apply Hne). split.
      * intros [_ H]%list.Forall_cons. by apply IH1.
      * intros H. apply IH2. intros H'. apply H. constructor; [by left | done].
    + rewrite filter_cons_True by done.
      destruct (getitem_list_outcome metas i) as [G1 G2]. split.
      * intros [[Hm1|Hr] H]%list.Forall_cons; [done|].
        destruct (G1 Hr) as (m & Hm & _). rewrite Hm. simpl.
        destruct (IH1 H) as (r & -> & Hr'). simpl.
        exists ((m, sc) :: r). split; [done|]. by constructor.
      * intros H. destruct (decide (- Z.of_nat (length metas) <= i < Z.of_nat (length metas))%Z)
          as [Hr|Hr].
        -- destruct (G1 Hr) as (m & -> & _). simpl. rewrite IH2; [done|].
           intros H'. apply H. constructor; [by right | done].
        -- by rewrite (G2 Hr).
Qed.

Section reload.

Variables Vec Fitted : Type.
Variable encode : pystr → Vec.
Variable fit_transform : list pystr → Fitted * list Vec.
Variable transform : Fitted → pystr → Vec.
Variable dot : Vec → Vec → Q.
Variable argsort : list Q → list nat.
Variable faiss_search : list Vec → Vec → Z → result (list (Z * Q)).

(** The list [query] returns, without the object. *)
Definition retrieved (st : VectorIndex.state Vec Fitted) (fs : VectorIndex.files Vec)
    (text_ : pystr) (k : Z) : result (list (chunk * Q)) :=
  p ← VectorIndex.query Vec Fitted encode fit_transform transform dot argsort faiss_search
         st fs text_ k;
  Ok p.2.

(** X14. For a corpus that is not empty, a new object that loads the
    files [build] wrote and then answers a query returns the same list as
    the object that built the index, for both backends. *)
Theorem query_after_reload (b : VectorIndex.Backend) (fs : VectorIndex.files Vec)
    (chunks : list chunk) (text_ : pystr) (k : Z) :
  chunks ≠ [] →
  let built :=
    VectorIndex.build Vec Fitted encode fit_transform transform
      (VectorIndex.init Vec Fitted b) fs chunks in
  (st ← VectorIndex.load Vec Fitted (VectorIndex.init Vec Fitted b) built.2;
   retrieved st built.2 text_ k)
  = retrieved built.1 built.2 text_ k.
Proof.
  intros Hc built. unfold built, retrieved.
  destruct chunks as [|c chunks]; [done|].
  destruct b.
  - unfold VectorIndex.build, VectorIndex.load, VectorIndex.query, VectorIndex.ensure_loaded.
    simpl. destruct (faiss_search _ _ _) as [hits|]; simpl; [|done].
    by destruct (VectorIndex.dense_results _ _).
  - unfold VectorIndex.build, VectorIndex.load, VectorIndex.query, VectorIndex.ensure_loaded,
      VectorIndex.query_tfidf, VectorIndex._embed_tfidf. simpl.
    destruct (fit_transform _) as [f rows]. simpl.
    by destruct (VectorIndex.sparse_results _ _ _).
Qed.

End reload.

(** ** [explain_node] *)

(** [list.sort(key=...)]: ascending in the key, and stable. Elements are
    inserted from the right, each before the first element whose key is
    not smaller. *)
Fixpoint insert_by {A} (key : A → Q) (x : A) (l : list A) : list A :=
  match l with
  | [] => [x]
  | y :: l' =>
      if Qlt_le_dec (key y) (key x) then y :: insert_by key x l' else x :: y :: l'
  end.

Definition sort_by {A} (key : A → Q) (l : list A) : list A :=
  foldr (insert_by key) [] l.

(** [x or default] for an optional string: [None] and the empty string are
    false. *)
Definition or_else (o : option pystr) (d : pystr) : pystr :=
  match o with
  | Some (c :: s) => c :: s
  | _ => d
  end.

(** [str(x)] inside an f-string, for a value that may be [None]. *)
Definition str_opt (o : option pystr) : pystr := default (lit "None") o.

(** [f"{x:.2f}"]: the value rounded to two decimals, ties to even. *)
Definition format_2f (x : Q) : pystr :=
  let scaled := (Qabs x * 100)%Q in
  let fl := Qfloor scaled in
  let r :=
    match Qcompare (scaled - inject_Z fl) (1 # 2) with
    | Lt => fl
    | Gt => (fl + 1)%Z
    | Eq => if Z.even fl then fl else (fl + 1)%Z
    end in
  let frac := Z.to_nat (r mod 100) in
  (if Qlt_le_dec x 0 then lit "-" else [])
    ++ str_nat (Z.to_nat (r / 100)) ++ lit "."
    ++ str_nat (frac / 10) ++ str_nat (frac mod 10).

(** An entry of [neighbor_summ]. *)
Record neighbor := {
  n_id : pystr;
  n_label : pystr;
  n_type : option pystr;
  n_weight : Q
}.

(** The second component of what [explain_node] returns. *)
Inductive context :=
  | NotFound
    (** [{"node": None}] *)
  | Found (id label_ : pystr) (type_ : option pystr) (neighbors : list neighbor).
    (** [{'node': {'id': .., 'label': .., 'type': ..}, 'neighbors': ..}] *)

Definition NODE_NOT_FOUND : pystr := lit "Node not found in graph.".

(** The loop over [neighbors]. *)
Fixpoint summarize (G : Graph) (node_id : pystr) (nbrs : list pystr)
  : result (list neighbor) :=
  match nbrs with
  | [] => Ok []
  | nb :: rest =>
      d ← getitem G node_id nb;
      a ← nodes_getitem G nb;
      r ← summarize G node_id rest;
      Ok ({| n_id := nb; n_label := or_else (label a) nb; n_type := type a;
             n_weight := weight d |} :: r)
  end.

Definition of_type (t : string) (n : neighbor) : Prop := n_type n = Some (lit t).

#[export] Instance of_type_dec t n : Decision (of_type t n).
Proof. unfold of_type. apply _. Defined.

(** [', '.join(n['label'] for n in l) if l else 'n/a'] *)
Definition labels_or_na (l : list neighbor) : pystr :=
  match l with
  | [] => lit "n/a"
  | _ => join (lit ", ") (n_label <$> l)
  end.

Definition explain_heuristic (label_ : pystr) (ntype : option pystr)
    (neighbor_summ : list neighbor) : pystr :=
  if decide (ntype = Some (lit "paper")) then
    let top_concepts := take 8 (filter (of_type "concept") neighbor_summ) in
    let related_papers := take 5 (filter (of_type "paper") neighbor_summ) in
    lit "Paper: " ++ label_ ++ lit ". "
      ++ lit "Key linked concepts: " ++ labels_or_na top_concepts ++ lit ". "
      ++ lit "Related papers: " ++ labels_or_na related_papers ++ lit "."
  else
    let papers := take 8 (filter (of_type "paper") neighbor_summ) in
    lit "Concept: " ++ label_ ++ lit ". Mentioned in "
      ++ str_nat (length (filter (of_type "paper") neighbor_summ)) ++ lit " papers. "
      ++ lit "Examples: " ++ labels_or_na papers ++ lit ".".

Definition explain_prompt (label_ : pystr) (ntype : option pystr)
    (neighbor_summ : list neighbor) : pystr :=
  let context_lines :=
    (λ n, lit "- " ++ str_opt (n_type n) ++ lit ": " ++ n_label n
            ++ lit " (w=" ++ format_2f (n_weight n) ++ lit ")")
      <$> take 20 neighbor_summ in
  lit "Explain the node '" ++ label_ ++ lit "' (" ++ str_opt ntype
    ++ lit ") in a research knowledge graph. "
    ++ lit "Summarize how it relates to its strongest neighbors and what it signifies."
    ++ nl ++ lit "Neighbors (top 20 by weight):" ++ nl
    ++ join nl context_lines
    ++ nl ++ lit "Keep it to 2-4 concise sentences.".

Definition LLM_FAILED : pystr := lit "(LLM call failed".

(** The last branch: the text returned and the prompts posted. *)
Definition explain_text (env : environment) (heuristic prompt : pystr)
  : pystr * list pystr :=
  if _llm_available env then
    let '(llm_text, calls) := _call_groq env prompt in
    (match llm_text with
     | [] => heuristic
     | _ => if starts_with LLM_FAILED llm_text then heuristic else llm_text
     end, calls)
  else (heuristic ++ lit " (LLM disabled)", []).

(** [explain_node(node_id)], with [graph.json] and the service: the pair
    returned and the prompts posted, or the exception raised. *)
Definition explain_node (graph_file : snapshot graph_json) (env : environment)
    (node_id : pystr) : result (pystr * context * list pystr) :=
  G ← load empty_graph graph_file;
  match dict_get node_id (_node G) with
  | None => Ok (NODE_NOT_FOUND, NotFound, [])
  | Some a =>
      let ntype := type a in
      let label_ := or_else (label a) node_id in
      nbrs ← neighbors G node_id;
      summ ← summarize G node_id nbrs;
      let neighbor_summ := sort_by (λ n, - n_weight n)%Q summ in
      let heuristic := explain_heuristic label_ ntype neighbor_summ in
      let '(text_, calls) :=
        explain_text env heuristic (explain_prompt label_ ntype neighbor_summ) in
      Ok (text_, Found node_id label_ ntype neighbor_summ, calls)
  end.

(** *** The stable sort *)

#[export] Instance Qeq_dec' (x y : Q) : Decision (x == y)%Q := Qeq_dec x y.

Lemma insert_by_split {A} (key : A → Q) (x : A) (l : list A) :
  ∃ pre post, l = pre ++ post ∧ insert_by key x l = pre ++ x :: post
    ∧ Forall (λ y, (key y < key x)%Q) pre
    ∧ (∀ y, head post = Some y → (key x <= key y)%Q).
Proof.
  induction l as [|y l (pre & post & -> & E & Hpre & Hpost)]; simpl.
  - exists [], []. split_and!; [done | done | constructor | done].
  - destruct (Qlt_le_dec (key y) (key x)) as [Hlt|Hle].
    + exists (y :: pre), post. rewrite E. split_and!; [done | done | by constructor | done].
    + exists [], (y :: pre ++ post). split_and!; [done | done | constructor |].
      intros z [= <-]. done.
Qed.

Lemma insert_by_perm {A} (key : A → Q) (x : A) (l : list A) :
  insert_by key x l ≡ₚ x :: l.
Proof.
  destruct (insert_by_split key x l) as (pre & post & -> & -> & _).
  by rewrite Permutation_middle.
Qed.

Lemma sort_by_perm {A} (key : A → Q) (l : list A) : sort_by key l ≡ₚ l.
Proof.
  induction l as [|x l IH]; [done|]. unfold sort_by. simpl.
  rewrite insert_by_perm. by constructor.
Qed.

Lemma insert_by_sorted {A} (key : A → Q) (x : A) (l : list A) :
  StronglySorted (λ a b, (key a <= key b)%Q) l →
  StronglySorted (λ a b, (key a <= key b)%Q) (insert_by key x l).
Proof.
  induction 1 as [|y l Hl IH Hy]; simpl.
  - repeat constructor.
  - destruct (Qlt_le_dec (key y) (key x)) as [Hlt|Hle].
    + constructor; [done|].
      rewrite insert_by_perm. constructor; [by apply Qlt_le_weak | done].
    + constructor; [by constructor|]. constructor; [done|].
      eapply list.Forall_impl; [exact Hy|]. intros z Hz. simpl in Hz.
      by apply (Qle_trans _ (key y)).
Qed.

Lemma sort_by_sorted {A} (key : A → Q) (l : list A) :
  StronglySorted (λ a b, (key a <= key b)%Q) (sort_by key l).
Proof.
  induction l as [|x l IH]; [constructor|]. by apply insert_by_sorted.
Qed.

Lemma sort_by_stable {A} (key : A → Q) (l : list A) (q : Q) :
  filter (λ x, key x == q)%Q (sort_by key l) = filter (λ x, key x == q)%Q l.
Proof.
  induction l as [|x l IH]; [done|]. unfold sort_by. simpl. fold (sort_by key l).
  destruct (insert_by_split key x (sort_by key l)) as (pre & post & E & -> & Hpre & _).
  rewrite E, list.filter_app in IH. rewrite list.filter_app.
  destruct (decide (key x == q)%Q) as [Hx|Hx].
  - rewrite !filter_cons_True by done. rewrite <- IH.
    rewrite (filter_none _ pre); [done|].
    intros y Hy Hq. rewrite list.Forall_forall in Hpre. specialize (Hpre y Hy).
    simpl in Hpre. rewrite Hq, Hx in Hpre. by apply Qlt_irrefl in Hpre.
  - rewrite !filter_cons_False by done. by rewrite <- IH.
Qed.

(** *** The neighbours reported *)

Lemma StronglySorted_impl {A} (R R' : A → A → Prop) (l : list A) :
  (∀ x y, R x y → R' x y) → StronglySorted R l → StronglySorted R' l.
Proof.
  intros HR. induction 1 as [|x l Hl IH Hx]; constructor; [done|].
  eapply list.Forall_impl; [exact Hx|]. auto.
Qed.

(** What [summarize] gives for the neighbour [nb] of [node_id]. *)
Definition summary_of (G : Graph) (node_id nb : pystr) (n : neighbor) : Prop :=
  n_id n = nb
  ∧ n_weight n = weight_of G node_id nb
  ∧ ∃ a, dict_get nb (_node G) = Some a
         ∧ n_label n = or_else (label a) nb ∧ n_type n = type a.

Lemma summarize_spec G node_id nbrs :
  wf G → (∀ nb, nb ∈ nbrs → nb ∈ adjacent G node_id) →
  ∃ r, summarize G node_id nbrs = Ok r ∧ Forall2 (summary_of G node_id) nbrs r.
Proof.
  intros HG. induction nbrs as [|nb nbrs IH]; intros Hn; simpl.
  - exists []. split; [done | constructor].
  - assert (Hr : is_Some (edge_ref G node_id nb)).
    { apply adjacent_edge_ref, Hn, elem_of_cons. by left. }
    destruct (getitem_weight G HG node_id nb Hr) as (d & -> & Hd). simpl.
    destruct Hr as [r Hr]. destruct (wf_edge_nodes G node_id nb r HG Hr) as [_ Hnb].
    apply dict_get_is_Some in Hnb as [a Ha].
    unfold nodes_getitem. rewrite Ha. simpl.
    destruct IH as (rest & -> & Hrest).
    { intros x Hx. apply Hn, elem_of_cons. by right. }
    simpl. eexists. split; [done|]. constructor; [|done].
    split_and!; [done | done |]. by exists a.
Qed.

Lemma summaries_filter G node_id nbrs r q :
  Forall2 (summary_of G node_id) nbrs r →
  n_id <$> filter (λ n, n_weight n == q)%Q r
  = filter (λ nb, weight_of G node_id nb == q)%Q nbrs.
Proof.
  induction 1 as [|nb n nbrs r (Hid & Hw & _) _ IH]; [done|].
  destruct (decide (n_weight n == q)%Q) as [Hq|Hq].
  - rewrite filter_cons_True by done. rewrite filter_cons_True by (by rewrite <- Hw).
    rewrite fmap_cons. by rewrite IH, Hid.
  - rewrite filter_cons_False by done. rewrite filter_cons_False by (by rewrite <- Hw).
    done.
Qed.

Lemma neighbors_adjacent G n : wf G → n ∈ nodes G → neighbors G n = Ok (adjacent G n).
Proof.
  intros HG Hn. unfold neighbors, adjacent.
  unfold nodes in Hn. rewrite <- (wf_keys G HG) in Hn.
  by apply dict_get_is_Some in Hn as [nbrs ->].
Qed.

(** X15. When [graph.json] loads, [explain_node] on an id that is not a
    node returns the fixed message and no node; on a node it returns the
    node's neighbours, each once with its label, type and edge weight, in
    descending order of weight, neighbours of equal weight in the order of
    the graph. *)
Theorem explain_node_neighbors (graph_file : snapshot graph_json) (env : environment)
    (node_id : pystr) (G : Graph) :
  load empty_graph graph_file = Ok G →
  (dict_get node_id (_node G) = None →
     explain_node graph_file env node_id = Ok (NODE_NOT_FOUND, NotFound, []))
  ∧ (∀ a, dict_get node_id (_node G) = Some a →
     ∃ text_ summ calls,
       explain_node graph_file env node_id
       = Ok (text_, Found node_id (or_else (label a) node_id) (type a) summ, calls)
       ∧ n_id <$> summ ≡ₚ adjacent G node_id
       ∧ StronglySorted (λ n1 n2, (n_weight n2 <= n_weight n1)%Q) summ
       ∧ Forall (λ n, summary_of G node_id (n_id n) n) summ
       ∧ ∀ q, n_id <$> filter (λ n, n_weight n == q)%Q summ
              = filter (λ nb, weight_of G node_id nb == q)%Q (adjacent G node_id)).
Proof.
  intros HL. assert (HG : wf G) by exact (wf_load _ _ _ wf_empty_graph HL).
  unfold explain_node. rewrite HL. simpl. split.
  - by intros ->.
  - intros a Ha. rewrite Ha.
    rewrite neighbors_adjacent by (done || by apply dict_get_is_Some; eexists).
    simpl.
    destruct (summarize_spec G node_id (adjacent G node_id) HG) as (raw & -> & Hraw);
      [done|]. simpl.
    set (summ := sort_by (λ n, - n_weight n)%Q raw).
    destruct (explain_text env _ _) as [text_ calls].
    exists text_, summ, calls. split_and!; [done | | | |].
    + unfold summ. rewrite sort_by_perm.
      clear -Hraw. induction Hraw as [|nb n nbrs r (Hid & _) _ IH]; [done|].
      rewrite fmap_cons, Hid. by constructor.
    + eapply StronglySorted_impl; [|apply sort_by_sorted].
      intros x y Hxy. simpl in Hxy. lra.
    + assert (Hall : Forall (λ n, summary_of G node_id (n_id n) n) raw).
      { clear -Hraw. induction Hraw as [|nb n nbrs r Hn _ IH]; constructor; [|done].
        destruct Hn as (Hid & Hn). split; [done|]. by rewrite Hid. }
      apply list.Forall_forall. intros n Hn. rewrite list.Forall_forall in Hall.
      apply Hall. unfold summ in Hn. by rewrite sort_by_perm in Hn.
    + intros q. rewrite <- (summaries_filter G node_id _ raw q Hraw). f_equal.
      trans (filter (λ n, - n_weight n == - q)%Q summ).
      { apply filter_ext_in. intros n _. split; intros H; lra. }
      unfold summ. rewrite sort_by_stable.
      apply filter_ext_in. intros n _. split; intros H; lra.
Qed.

(** *** The text returned *)

Lemma starts_with_app (needle rest : pystr) : starts_with needle (needle ++ rest) = true.
Proof.
  induction needle as [|c needle IH]; simpl; [done|].
  rewrite bool_decide_eq_true_2 by done. done.
Qed.

(** X16. The text [explain_node] returns for a node: without a key, the
    heuristic summary followed by [ (LLM disabled)], and nothing is posted;
    with a key, one prompt is posted, and the text is the stripped reply,
    [(Empty LLM response)] for a reply of whitespace only, and the
    heuristic summary when the call fails or the reply starts with
    [(LLM call failed]. *)
Theorem explain_node_text (graph_file : snapshot graph_json) (env : environment)
    (node_id text_ label_ : pystr) (ntype : option pystr) (summ : list neighbor)
    (calls : list pystr) :
  explain_node graph_file env node_id = Ok (text_, Found node_id label_ ntype summ, calls) →
  let heuristic := explain_heuristic label_ ntype summ in
  let prompt := explain_prompt label_ ntype summ in
  (_llm_available env = false →
     text_ = heuristic ++ lit " (LLM disabled)" ∧ calls = [])
  ∧ (_llm_available env = true →
     calls = [prompt]
     ∧ (∀ e, post env prompt = Failed e → text_ = heuristic)
     ∧ (∀ c, post env prompt = Content c →
          text_ = match strip c with
                  | [] => lit "(Empty LLM response)"
                  | s => if starts_with LLM_FAILED s then heuristic else s
                  end)).
Proof.
  intros H. cbv zeta. unfold explain_node in H.
  destruct (load empty_graph graph_file) as [G|]; simpl in H; [|done].
  destruct (dict_get node_id (_node G)) as [a|]; [|done].
  destruct (neighbors G node_id) as [nbrs|]; simpl in H; [|done].
  destruct (summarize G node_id nbrs) as [raw|]; simpl in H; [|done].
  destruct (explain_text env _ _) as [t cs] eqn:Et. simplify_eq.
  set (heuristic := explain_heuristic _ _ _) in *.
  set (prompt := explain_prompt _ _ _) in *.
  unfold explain_text in Et. split.
  - intros Hk. rewrite Hk in Et. by injection Et as <- <-.
  - intros Hk. rewrite Hk in Et. unfold _call_groq in Et. rewrite Hk in Et.
    destruct (post env prompt) as [c|e] eqn:Ep.
    + destruct (strip c) as [|ch s] eqn:Es.
      * injection Et as <- <-. split_and!; [done | done |].
        intros c' [= <-]. by rewrite Es.
      * injection Et as <- <-. split_and!; [done | done |].
        intros c' [= <-]. by rewrite Es.
    + assert (Hs : starts_with LLM_FAILED
                     (lit "(LLM call failed: " ++ e ++ lit ")" ++ nl ++ take 500 prompt) = true).
      { change (lit "(LLM call failed: ") with (LLM_FAILED ++ lit ": ").
        rewrite <- app_assoc. apply starts_with_app. }
      destruct (lit "(LLM call failed: " ++ e ++ lit ")" ++ nl ++ take 500 prompt) eqn:El.
      { discriminate. }
      rewrite Hs in Et. injection Et as <- <-. split_and!; [done | | done].
      by intros e' [= <-].
Qed.

(** ** Ingestion: [pdf_loader.py] *)

(** [s.split()]: the maximal runs of characters that are not whitespace.
    [cur] is the run being read. *)
Fixpoint split_from (cur : pystr) (s : pystr) : list pystr :=
  match s with
  | [] => match cur with [] => [] | _ => [cur] end
  | c :: s' =>
      if is_space c then
        match cur with
        | [] => split_from [] s'
        | _ => cur :: split_from [] s'
        end
      else split_from (cur ++ [c]) s'
  end.

Definition split (s : pystr) : list pystr := split_from [] s.

(** [l[i:j]] for two Python [int]s: a negative bound counts from the end,
    and both are clamped to the list. *)
Definition slice {A} (i j : Z) (l : list A) : list A :=
  let n := Z.of_nat (length l) in
  let clamp x := if decide (x < 0)%Z then Z.max 0 (n + x) else Z.min x n in
  drop (Z.to_nat (clamp i)) (take (Z.to_nat (clamp j)) l).

(** The [while] loop of [_chunk_text]; it runs at most [len(words)] times,
    which is the [fuel] given below. *)
Fixpoint chunk_loop (fuel : nat) (words : list pystr) (chunk_size overlap i : Z)
  : list pystr :=
  match fuel with
  | 0 => []
  | S fuel' =>
      if decide (i < Z.of_nat (length words))%Z then
        let chunk := slice i (i + chunk_size) words in
        join (lit " ") chunk
          :: (if decide (chunk_size <= overlap)%Z then []
              else chunk_loop fuel' words chunk_size overlap (i + (chunk_size - overlap)))
      else []
  end.

(** [_chunk_text(text, chunk_size, overlap)] *)
Definition _chunk_text (text_ : pystr) (chunk_size overlap : Z) : list pystr :=
  let words := split text_ in
  chunk_loop (length words) words chunk_size overlap 0.

(** The defaults of [_chunk_text]. *)
Definition CHUNK_SIZE : Z := 900.
Definition OVERLAP : Z := 150.

(** *** Words *)

(** A word: not empty, no whitespace. *)
Definition word (w : pystr) : Prop := w ≠ [] ∧ Forall (λ c, is_space c = false) w.

Lemma split_from_words cur s :
  Forall (λ c, is_space c = false) cur →
  Forall word (split_from cur s).
Proof.
  revert cur. induction s as [|c s IH]; intros cur Hcur; simpl.
  - destruct cur as [|a cur]; [constructor|].
    constructor; [by split | constructor].
  - destruct (is_space c) eqn:Ec.
    + destruct cur as [|a cur]; [by apply IH|].
      constructor; [by split | by apply IH].
    + apply IH. apply Forall_app. split; [done|]. by repeat constructor.
Qed.

Lemma split_words s : Forall word (split s).
Proof. by apply split_from_words. Qed.

Lemma split_from_run cur w s :
  Forall (λ c, is_space c = false) w →
  split_from cur (w ++ s) = split_from (cur ++ w) s.
Proof.
  revert cur. induction w as [|c w IH]; intros cur Hw; simpl.
  - by rewrite app_nil_r.
  - apply list.Forall_cons in Hw as [Hc Hw]. rewrite Hc.
    rewrite IH by done. by rewrite <- app_assoc.
Qed.

Lemma split_join ws : Forall word ws → split (join (lit " ") ws) = ws.
Proof.
  induction ws as [|w ws IH]; intros Hws; [done|].
  apply list.Forall_cons in Hws as [[Hne Hw] Hws].
  destruct ws as [|w' ws].
  - simpl. unfold split.
    pose proof (split_from_run [] w [] Hw) as E. rewrite app_nil_r in E.
    rewrite E. simpl. by destruct w.
  - change (join (lit " ") (w :: w' :: ws))
      with (w ++ lit " " ++ join (lit " ") (w' :: ws)).
    unfold split. rewrite split_from_run by done. simpl.
    destruct w as [|c w]; [done|]. simpl. f_equal. by apply IH.
Qed.

(** *** The windows of [_chunk_text] *)

(** The number of windows: [a / b], rounded up. *)
Definition ceil_div (a b : nat) : nat := (a + b - 1) / b.

Lemma ceil_div_0 b : 0 < b → ceil_div 0 b = 0.
Proof. intros Hb. unfold ceil_div. apply Nat.div_small. lia. Qed.

Lemma ceil_div_S a b : 0 < b → 0 < a → ceil_div a b = S (ceil_div (a - b) b).
Proof.
  intros Hb Ha. unfold ceil_div. destruct (decide (a <= b)) as [Hab|Hab].
  - replace (a - b) with 0 by lia. rewrite (Nat.div_small (0 + b - 1)) by lia.
    symmetry. apply (Nat.div_unique _ _ _ (a - 1)); lia.
  - replace (a + b - 1) with ((a - b + b - 1) + 1 * b) by lia.
    rewrite Nat.div_add by lia. lia.
Qed.

Lemma ceil_div_le a b : 0 < b → ceil_div a b ≤ a.
Proof.
  intros Hb. unfold ceil_div. destruct a as [|a].
  - rewrite Nat.div_small; lia.
  - apply Nat.lt_succ_r. apply Nat.Div0.div_lt_upper_bound. nia.
Qed.

Lemma ceil_div_pos a b : 0 < b → 0 < a → 0 < ceil_div a b.
Proof. intros Hb Ha. rewrite ceil_div_S by done. lia. Qed.

Lemma slice_window {A} (l : list A) (i size : nat) :
  slice (Z.of_nat i) (Z.of_nat i + Z.of_nat size) l = take size (drop i l).
Proof.
  unfold slice. cbv zeta. rewrite !decide_False by lia.
  rewrite take_drop_commute.
  destruct (decide (i + size <= length l)) as [H1|H1].
  - replace (Z.to_nat (Z.min (Z.of_nat i + Z.of_nat size) (Z.of_nat (length l))))
      with (i + size) by lia.
    by replace (Z.to_nat (Z.min (Z.of_nat i) (Z.of_nat (length l)))) with i by lia.
  - replace (Z.to_nat (Z.min (Z.of_nat i + Z.of_nat size) (Z.of_nat (length l))))
      with (length l) by lia.
    rewrite firstn_all. rewrite (take_ge l (i + size)) by lia.
    destruct (decide (i <= length l)) as [H2|H2].
    + by replace (Z.to_nat (Z.min (Z.of_nat i) (Z.of_nat (length l)))) with i by lia.
    + replace (Z.to_nat (Z.min (Z.of_nat i) (Z.of_nat (length l)))) with (length l) by lia.
      rewrite !drop_ge by lia. done.
Qed.

Lemma chunk_loop_windows fuel words (size ov : Z) (i : nat) :
  (0 < size)%Z → (ov < size)%Z →
  let step := Z.to_nat (size - ov) in
  ceil_div (length words - i) step ≤ fuel →
  chunk_loop fuel words size ov (Z.of_nat i)
  = (λ j, join (lit " ") (take (Z.to_nat size) (drop (i + j * step) words)))
      <$> seq 0 (ceil_div (length words - i) step).
Proof.
  intros Hs Ho step. assert (Hstep : 0 < step) by (unfold step; lia).
  revert i. induction fuel as [|fuel IH]; intros i Hf.
  - by replace (ceil_div (length words - i) step) with 0 by lia.
  - simpl. destruct (decide (Z.of_nat i < Z.of_nat (length words))%Z) as [Hi|Hi].
    + rewrite decide_False by lia.
      rewrite ceil_div_S in Hf |- * by lia.
      replace (length words - i - step) with (length words - (i + step)) in Hf |- * by lia.
      replace (Z.of_nat i + (size - ov))%Z with (Z.of_nat (i + step)) by (unfold step; lia).
      rewrite IH by lia.
      rewrite <- (Z2Nat.id size) at 1 by lia. rewrite slice_window.
      simpl. rewrite Nat.add_0_r. f_equal.
      rewrite <- fmap_S_seq, <- list_fmap_compose. apply list_fmap_ext.
      intros _ j _. simpl. do 3 f_equal. lia.
    + replace (length words - i) with 0 by lia. by rewrite ceil_div_0.
Qed.

(** The chunks as windows of the words, [step] words apart. *)
Lemma chunk_text_windows_eq (text_ : pystr) (chunk_size overlap : Z) :
  (0 < chunk_size)%Z → (overlap < chunk_size)%Z →
  let words := split text_ in
  let step := Z.to_nat (chunk_size - overlap) in
  _chunk_text text_ chunk_size overlap
  = (λ j, join (lit " ") (take (Z.to_nat chunk_size) (drop (j * step) words)))
      <$> seq 0 (ceil_div (length words) step).
Proof.
  intros Hs Ho words step. unfold _chunk_text. fold words.
  pose proof (chunk_loop_windows (length words) words chunk_size overlap 0 Hs Ho) as H.
  simpl in H. rewrite Nat.sub_0_r in H. apply H.
  apply ceil_div_le. lia.
Qed.

Lemma Forall_word_sub (ws : list pystr) (i size : nat) :
  Forall word ws → Forall word (take size (drop i ws)).
Proof. intros H. by apply Forall_take, Forall_drop. Qed.

(** X17. With [0 <= overlap < chunk_size], [_chunk_text] returns
    [ceil(len(words) / (chunk_size - overlap))] chunks; chunk [j] is the
    words from [j * (chunk_size - overlap)] on, at most [chunk_size] of
    them and at least one, joined by single spaces, and splitting it gives
    these words back; so every word of the text is in some chunk. *)
Theorem chunk_text_covers (text_ : pystr) (chunk_size overlap : Z) :
  (0 <= overlap < chunk_size)%Z →
  let words := split text_ in
  let chunks := _chunk_text text_ chunk_size overlap in
  let size := Z.to_nat chunk_size in
  let step := Z.to_nat (chunk_size - overlap) in
  length chunks = ceil_div (length words) step
  ∧ (∀ j c, chunks !! j = Some c →
       c = join (lit " ") (take size (drop (j * step) words))
       ∧ split c = take size (drop (j * step) words)
       ∧ 0 < length (split c) ≤ size)
  ∧ (∀ k w, words !! k = Some w →
       ∃ c, chunks !! (k / step) = Some c ∧ split c !! (k mod step) = Some w).
Proof.
  intros Ho words chunks size step.
  assert (Hstep : 0 < step) by (unfold step; lia).
  assert (Hsize : step ≤ size) by (unfold step, size; lia).
  assert (E : chunks = (λ j, join (lit " ") (take size (drop (j * step) words)))
                         <$> seq 0 (ceil_div (length words) step)).
  { apply chunk_text_windows_eq; lia. }
  assert (Hj : ∀ j, j < ceil_div (length words) step → j * step < length words).
  { intros j Hj. unfold ceil_div in Hj.
    pose proof (Nat.Div0.mul_div_le (length words + step - 1) step). nia. }
  split_and!.
  - by rewrite E, length_fmap, length_seq.
  - intros j c Hc. rewrite E, list_lookup_fmap in Hc.
    destruct (seq 0 _ !! j) as [j'|] eqn:Ej; [|done].
    apply lookup_seq in Ej as [-> Hlt]. simpl in Hc. injection Hc as <-.
    split; [done|].
    rewrite split_join by (apply Forall_word_sub, split_words).
    split; [done|]. rewrite length_take, length_drop.
    specialize (Hj j Hlt). unfold size. lia.
  - intros k w Hk. pose proof (lookup_lt_Some _ _ _ Hk) as Hlt.
    assert (Hq : k / step < ceil_div (length words) step).
    { unfold ceil_div. apply Nat.Div0.div_lt_upper_bound.
      pose proof (Nat.div_mod (length words + step - 1) step).
      pose proof (Nat.mod_upper_bound (length words + step - 1) step).
      pose proof (Nat.div_mod k step).
      pose proof (Nat.mod_upper_bound k step). nia. }
    exists (join (lit " ") (take size (drop (k / step * step) words))). split.
    + rewrite E, list_lookup_fmap, lookup_seq_lt by done. done.
    + rewrite split_join by (apply Forall_word_sub, split_words).
      pose proof (Nat.mod_upper_bound k step).
      rewrite lookup_take_lt by lia. rewrite lookup_drop.
      replace (k / step * step + k mod step) with k; [done|].
      pose proof (Nat.div_mod k step). lia.
Qed.

(** X18. With [chunk_size <= overlap] the loop of [_chunk_text] stops
    after its first round: a text without words gives no chunk, any other
    text the one chunk [words[0:chunk_size]]. *)
Theorem chunk_text_degenerate (text_ : pystr) (chunk_size overlap : Z) :
  (chunk_size <= overlap)%Z →
  _chunk_text text_ chunk_size overlap
  = match split text_ with
    | [] => []
    | words => [join (lit " ") (slice 0 chunk_size words)]
    end.
Proof.
  intros Ho. unfold _chunk_text. destruct (split text_) as [|w ws]; [done|].
  cbn [length chunk_loop].
  rewrite decide_True by (cbn [length]; lia). by rewrite decide_True by done.
Qed.

(** *** Chunk ids *)

(** [f"{idx:04d}"]: the decimal digits, padded with zeros to four. *)
Definition format_04d (idx : nat) : pystr :=
  let digits := str_nat idx in
  replicate (4 - length digits) 48%N ++ digits.

(** [f"{paper_id}::chunk_{idx:04d}"] *)
Definition chunk_id_of (pid : pystr) (idx : nat) : pystr :=
  pid ++ lit "::chunk_" ++ format_04d idx.

(** The number a string of digits denotes. *)
Definition digits_value (s : pystr) : N :=
  fold_left (λ acc c, 10 * acc + (c - 48))%N s 0%N.

Definition is_digit (c : N) : Prop := (48 <= c <= 57)%N.

Lemma lit_String c s : lit (String c s) = N.of_nat (Ascii.nat_of_ascii c) :: lit s.
Proof. done. Qed.

Lemma pretty_N_char_code x :
  (x < 10)%N → N.of_nat (Ascii.nat_of_ascii (pretty_N_char x)) = (48 + x)%N.
Proof.
  intros Hx.
  assert (x = 0 ∨ x = 1 ∨ x = 2 ∨ x = 3 ∨ x = 4 ∨ x = 5 ∨ x = 6 ∨ x = 7 ∨ x = 8 ∨ x = 9)%N
    as H by lia.
  repeat (destruct H as [->|H]; [done|]). by subst.
Qed.

Lemma pretty_N_go_value x s :
  fold_left (λ acc c, 10 * acc + (c - 48))%N (lit (pretty_N_go x s)) 0%N
  = fold_left (λ acc c, 10 * acc + (c - 48))%N (lit s) x.
Proof.
  revert s. induction (N.lt_wf_0 x) as [x _ IH]; intros s.
  assert (x = 0 ∨ 0 < x)%N as [->|Hx] by lia; [done|].
  rewrite pretty_N_go_step by done. rewrite IH by (by apply N.div_lt).
  rewrite lit_String. simpl.
  rewrite pretty_N_char_code by (by apply N.mod_lt). f_equal.
  pose proof (N.Div0.div_mod x 10) as Hdm. revert Hdm.
  generalize (x `div` 10)%N (x `mod` 10)%N. intros q r Hdm. lia.
Qed.

Lemma pretty_N_go_digits x s :
  Forall is_digit (lit s) → Forall is_digit (lit (pretty_N_go x s)).
Proof.
  revert s. induction (N.lt_wf_0 x) as [x _ IH]; intros s Hs.
  assert (x = 0 ∨ 0 < x)%N as [->|Hx] by lia; [done|].
  rewrite pretty_N_go_step by done. apply IH; [by apply N.div_lt|].
  rewrite lit_String. constructor; [|done].
  rewrite pretty_N_char_code by (by apply N.mod_lt).
  assert (Hm : (x `mod` 10 < 10)%N) by (by apply N.mod_lt). revert Hm.
  generalize (x `mod` 10)%N. intros r Hm. unfold is_digit. lia.
Qed.

Lemma str_nat_value n : digits_value (str_nat n) = N.of_nat n.
Proof.
  unfold digits_value, str_nat, pretty, pretty_nat, pretty, pretty_N.
  destruct (decide (N.of_nat n = 0%N)) as [->|Hn]; [done|].
  by rewrite pretty_N_go_value.
Qed.

Lemma str_nat_digits n : Forall is_digit (str_nat n).
Proof.
  unfold str_nat, pretty, pretty_nat, pretty, pretty_N.
  destruct (decide (N.of_nat n = 0%N)) as [E|Hn].
  - constructor; [split; by compute | constructor].
  - apply pretty_N_go_digits. constructor.
Qed.

Lemma format_04d_value idx : digits_value (format_04d idx) = N.of_nat idx.
Proof.
  unfold format_04d. cbv zeta. rewrite <- str_nat_value. unfold digits_value.
  rewrite fold_left_app.
  replace (fold_left _ (replicate _ 48%N) 0%N) with 0%N; [done|].
  induction (4 - length (str_nat idx)) as [|k IH]; [done|]. simpl. exact IH.
Qed.

Lemma format_04d_digits idx : Forall is_digit (format_04d idx).
Proof.
  unfold format_04d. apply Forall_app. split; [|apply str_nat_digits].
  apply Forall_replicate. unfold is_digit. lia.
Qed.

Lemma format_04d_length idx : 4 ≤ length (format_04d idx).
Proof. unfold format_04d. cbv zeta. rewrite length_app, length_replicate. lia. Qed.

Lemma format_04d_inj i j : format_04d i = format_04d j → i = j.
Proof.
  intros H. apply (f_equal digits_value) in H. rewrite !format_04d_value in H. lia.
Qed.

Lemma app_sep_inj {A} (x : A) (a b d1 d2 : list A) :
  x ∉ d1 → x ∉ d2 → a ++ x :: d1 = b ++ x :: d2 → a = b ∧ d1 = d2.
Proof.
  intros H1 H2. revert b. induction a as [|y a IH]; intros [|z b] E; simpl in E.
  - by injection E as ->.
  - injection E as -> ->. exfalso. apply H1, elem_of_app. right. by left.
  - injection E as -> <-. exfalso. apply H2, elem_of_app. right. by left.
  - injection E as -> E. by destruct (IH _ E) as [-> ->].
Qed.

Lemma chunk_id_of_inj p q i j : chunk_id_of p i = chunk_id_of q j → p = q ∧ i = j.
Proof.
  unfold chunk_id_of. intros E.
  change (lit "::chunk_") with (lit "::chunk" ++ [95%N]) in E.
  rewrite <- !(app_assoc (lit "::chunk")), !app_assoc in E. simpl in E.
  assert (Hd : ∀ k, 95%N ∉ format_04d k).
  { intros k Hk. pose proof (format_04d_digits k) as Hall.
    rewrite list.Forall_forall in Hall. specialize (Hall _ Hk). unfold is_digit in Hall. lia. }
  rewrite <- !app_assoc in E.
  change (p ++ lit "::chunk" ++ 95%N :: format_04d i)
    with (p ++ lit "::chunk" ++ [95%N] ++ format_04d i) in E.
  rewrite !app_assoc in E. rewrite <- !(app_assoc _ [95%N]) in E. simpl in E.
  apply app_sep_inj in E as [E1 E2]; [|done..].
  apply app_inv_tail in E1. apply format_04d_inj in E2. done.
Qed.

(** *** [ingest_pdfs] *)

(** [s.endswith(suffix)] *)
Definition ends_with (suffix s : pystr) : bool :=
  starts_with (reverse suffix) (reverse s).

(** The records appended for the chunks of one paper:
    [for idx, ch in enumerate(text_chunks)]. *)
Definition chunk_records (pid title_ : pystr) (text_chunks : list pystr) : list chunk :=
  imap (λ idx ch, {| chunk_id := chunk_id_of pid idx; c_paper_id := pid;
                     c_title := title_; text := ch |}) text_chunks.

Section ingest.

(** The libraries, as they are called: [str.lower], the root that
    [os.path.splitext] returns, [os.path.join(pdf_dir, .)], and the reading
    of one file by [_read_pdf] (PyPDF2 behind it): its title and text. *)
Variable lower : pystr → pystr.
Variable splitext_root : pystr → pystr.
Variable join_path : pystr → pystr.
Variable _read_pdf : pystr → pystr * pystr.

Definition is_pdf (fname : pystr) : Prop := ends_with (lit ".pdf") (lower fname) = true.

#[local] Instance is_pdf_dec fname : Decision (is_pdf fname).
Proof. unfold is_pdf. apply _. Defined.

Definition paper_of (fname : pystr) : paper :=
  {| paper_id := splitext_root fname;
     title := (_read_pdf (join_path fname)).1;
     path := join_path fname |}.

Definition chunks_of (fname : pystr) : list chunk :=
  chunk_records (splitext_root fname) (_read_pdf (join_path fname)).1
    (_chunk_text (_read_pdf (join_path fname)).2 CHUNK_SIZE OVERLAP).

(** The body of the loop over [os.listdir(pdf_dir)]. *)
Definition ingest_step (acc : list paper * list chunk) (fname : pystr)
  : list paper * list chunk :=
  if ends_with (lit ".pdf") (lower fname) then
    let fpath := join_path fname in
    let paper_id_ := splitext_root fname in
    let '(title_, text_) := _read_pdf fpath in
    let paper_ := {| paper_id := paper_id_; title := title_; path := fpath |} in
    let text_chunks := _chunk_text text_ CHUNK_SIZE OVERLAP in
    (acc.1 ++ [paper_], acc.2 ++ chunk_records paper_id_ title_ text_chunks)
  else acc.

(** [ingest_pdfs()], for the listing of the directory: the two lists
    returned, which are also what [papers.json] and [chunks.jsonl] hold. *)
Definition ingest_pdfs (listing : list pystr) : list paper * list chunk :=
  fold_left ingest_step listing ([], []).

Lemma ingest_step_eq acc fname :
  ingest_step acc fname
  = if decide (is_pdf fname) then (acc.1 ++ [paper_of fname], acc.2 ++ chunks_of fname)
    else acc.
Proof.
  unfold ingest_step, paper_of, chunks_of.
  destruct (decide (is_pdf fname)) as [H|H]; unfold is_pdf in H.
  - rewrite H. by destruct (_read_pdf _).
  - by destruct (ends_with _ _).
Qed.

Lemma ingest_pdfs_from acc listing :
  fold_left ingest_step listing acc
  = (acc.1 ++ (paper_of <$> filter is_pdf listing),
     acc.2 ++ (filter is_pdf listing ≫= chunks_of)).
Proof.
  revert acc. induction listing as [|fname listing IH]; intros [ps cs]; simpl.
  - by rewrite !app_nil_r.
  - rewrite IH, ingest_step_eq. destruct (decide (is_pdf fname)) as [Hf|Hf].
    + rewrite filter_cons_True by done. simpl. by rewrite <- !app_assoc.
    + by rewrite filter_cons_False by done.
Qed.

Lemma ingest_pdfs_eq listing :
  ingest_pdfs listing
  = (paper_of <$> filter is_pdf listing, filter is_pdf listing ≫= chunks_of).
Proof. unfold ingest_pdfs. by rewrite ingest_pdfs_from. Qed.

Lemma elem_of_chunk_records pid title_ texts c :
  c ∈ chunk_records pid title_ texts ↔
  ∃ idx ch, texts !! idx = Some ch
    ∧ c = {| chunk_id := chunk_id_of pid idx; c_paper_id := pid;
             c_title := title_; text := ch |}.
Proof.
  unfold chunk_records. rewrite list_elem_of_lookup. split.
  - intros (i & Hi). rewrite list_lookup_imap in Hi.
    destruct (texts !! i) as [ch|] eqn:E; [|done]. injection Hi as <-. by exists i, ch.
  - intros (i & ch & Hi & ->). exists i. by rewrite list_lookup_imap, Hi.
Qed.

Lemma NoDup_chunk_records pid title_ texts :
  NoDup (chunk_id <$> chunk_records pid title_ texts).
Proof.
  apply NoDup_alt. intros i j x Hi Hj.
  unfold chunk_records in *. rewrite list_lookup_fmap, list_lookup_imap in Hi, Hj.
  destruct (texts !! i) as [ci|]; [|done]. destruct (texts !! j) as [cj|]; [|done].
  simpl in *. injection Hi as <-. injection Hj as Hj.
  by apply chunk_id_of_inj in Hj as [_ ->].
Qed.

(** X19. When the paper ids that [ingest_pdfs] produced are distinct,
    so are the chunk ids. *)
Theorem ingest_chunk_ids_unique (listing : list pystr) :
  NoDup (paper_id <$> (ingest_pdfs listing).1) →
  NoDup (chunk_id <$> (ingest_pdfs listing).2).
Proof.
  rewrite ingest_pdfs_eq. simpl. intros Hids.
  set (pdfs := filter is_pdf listing) in *.
  assert (Hroot : ∀ f g, f ∈ pdfs → g ∈ pdfs → splitext_root f = splitext_root g → f = g).
  { intros f g Hf Hg E. rewrite <- list_fmap_compose in Hids.
    by apply (NoDup_fmap_eq (paper_id ∘ paper_of) pdfs f g Hids). }
  assert (Hpdfs : NoDup pdfs).
  { rewrite <- list_fmap_compose in Hids. by apply NoDup_fmap_1 in Hids. }
  clear Hids. induction pdfs as [|f pdfs IH]; [constructor|].
  change ((f :: pdfs) ≫= chunks_of) with (chunks_of f ++ (pdfs ≫= chunks_of)).
  rewrite fmap_app. apply list.NoDup_app. split_and!.
  - apply NoDup_chunk_records.
  - intros x Hx Hx'.
    apply list_elem_of_fmap in Hx as (c & -> & Hc).
    apply list_elem_of_fmap in Hx' as (c' & E & Hc').
    apply list_elem_of_bind in Hc' as (g & Hc' & Hg).
    apply elem_of_chunk_records in Hc as (i & ch & _ & ->).
    apply elem_of_chunk_records in Hc' as (j & ch' & _ & ->). simpl in E.
    apply chunk_id_of_inj in E as [E _].
    assert (f = g) as <-.
    { apply Hroot; [by left | by right | done]. }
    by apply NoDup_cons in Hpdfs as [Hf _].
  - apply IH.
    + intros g h Hg Hh. apply Hroot; by right.
    + by apply NoDup_cons in Hpdfs as [_ ?].
Qed.

(** X20. [ingest_pdfs] makes one paper for each file of the listing
    whose lower-cased name ends in [.pdf], in the order of the listing,
    with the root of the file name as its id; every chunk has the id and
    title of one of these papers; and when the paper ids are distinct, the
    chunks of a paper are the pieces [_chunk_text] cuts its text into, in
    order and numbered from 0. *)
Theorem ingest_paper_chunks (listing : list pystr) :
  let papers := (ingest_pdfs listing).1 in
  let chunks := (ingest_pdfs listing).2 in
  paper_id <$> papers = splitext_root <$> filter is_pdf listing
  ∧ (∀ c, c ∈ chunks →
       ∃ p, p ∈ papers ∧ c_paper_id c = paper_id p ∧ c_title c = title p)
  ∧ (NoDup (paper_id <$> papers) →
     ∀ p, p ∈ papers →
       filter (λ c, c_paper_id c = paper_id p) chunks
       = chunk_records (paper_id p) (title p)
           (_chunk_text (_read_pdf (path p)).2 CHUNK_SIZE OVERLAP)).
Proof.
  intros papers chunks. unfold papers, chunks. rewrite ingest_pdfs_eq. simpl.
  set (pdfs := filter is_pdf listing).
  split_and!.
  - by rewrite <- list_fmap_compose.
  - intros c (f & Hc & Hf)%list_elem_of_bind.
    apply elem_of_chunk_records in Hc as (i & ch & _ & ->).
    exists (paper_of f). split; [|done]. apply list_elem_of_fmap. by exists f.
  - intros Hids p (f & -> & Hf)%list_elem_of_fmap.
    rewrite <- list_fmap_compose in Hids.
    assert (Hroot : ∀ g, g ∈ pdfs → splitext_root g = splitext_root f → g = f).
    { intros g Hg E. by apply (NoDup_fmap_eq (paper_id ∘ paper_of) pdfs g f Hids). }
    apply NoDup_fmap_1 in Hids. fold (chunks_of f). simpl.
    clear -Hroot Hids Hf. induction pdfs as [|g pdfs IH]; [by apply not_elem_of_nil in Hf|].
    change ((g :: pdfs) ≫= chunks_of) with (chunks_of g ++ (pdfs ≫= chunks_of)).
    rewrite list.filter_app. apply NoDup_cons in Hids as [Hg Hids].
    assert (Hall : ∀ h, filter (λ c, c_paper_id c = splitext_root f) (chunks_of h)
                        = if decide (splitext_root h = splitext_root f)
                          then chunks_of h else []).
    { intros h. destruct (decide _) as [E|E].
      - apply filter_all. intros c Hc.
        by apply elem_of_chunk_records in Hc as (i & ch & _ & ->).
      - apply filter_none. intros c Hc.
        by apply elem_of_chunk_records in Hc as (i & ch & _ & ->). }
    rewrite Hall. apply elem_of_cons in Hf as [->|Hf].
    + rewrite decide_True by done.
      rewrite (filter_none _ (pdfs ≫= chunks_of)); [by rewrite app_nil_r|].
      intros c (h & Hc & Hh)%list_elem_of_bind.
      apply elem_of_chunk_records in Hc as (i & ch & _ & ->). simpl. intros E.
      apply Hg. rewrite <- (Hroot h); [done | by right | done].
    + rewrite decide_False.
      * simpl. apply IH; try done. intros h Hh. apply Hroot. by right.
      * intros E. apply Hg. rewrite (Hroot g); [done | by left | done].
Qed.

End ingest.

(** ** A query after the two builds *)

Section served.

Variable extract_keywords : pystr → list pystr.
Variable lower : pystr → pystr.
Variables Vec Fitted : Type.
Variable encode : pystr → Vec.
Variable fit_transform : list pystr → Fitted * list Vec.
Variable transform : Fitted → pystr → Vec.
Variable dot : Vec → Vec → Q.
Variable argsort : list Q → list nat.
Variable faiss_search : list Vec → Vec → Z → result (list (Z * Q)).

(** The contracts of the libraries, as for [query]. *)
Hypothesis fit_rows : ∀ texts, length (fit_transform texts).2 = length texts.
Hypothesis argsort_perm : ∀ a, argsort a ≡ₚ seq 0 (length a).
Hypothesis faiss_topk : ∀ index q k,
  (1 <= k <= Z.of_nat (length index))%Z →
  ∃ hits, faiss_search index q k = Ok hits
          ∧ length hits = Z.to_nat k
          ∧ Forall (λ h, (0 <= h.1 < Z.of_nat (length index))%Z) hits
          ∧ StronglySorted (λ h1 h2, (h2.2 <= h1.2)%Q) hits.

Lemma query_nonempty (st : VectorIndex.state Vec Fitted) (fs : VectorIndex.files Vec)
    (text_ : pystr) (k : Z) :
  VectorIndex.meta Vec Fitted st ≠ [] →
  VectorIndex.query Vec Fitted encode fit_transform transform dot argsort faiss_search
    st fs text_ k
  = let k' := Z.min k (Z.of_nat (length (VectorIndex.meta Vec Fitted st))) in
    match VectorIndex.backend Vec Fitted st, VectorIndex.faiss_index Vec Fitted st with
    | VectorIndex.transformer, Some index =>
        hits ← faiss_search index (encode text_) k';
        r ← VectorIndex.dense_results (VectorIndex.meta Vec Fitted st) hits;
        Ok (st, r)
    | _, _ =>
        VectorIndex.query_tfidf Vec Fitted fit_transform transform dot argsort st text_ k'
    end.
Proof using Type.
  intros Hne. unfold VectorIndex.query, VectorIndex.ensure_loaded.
  destruct (VectorIndex.meta Vec Fitted st) as [|c m] eqn:Em; [done|]. simpl.
  by rewrite Em.
Qed.

Lemma query_returns (st : VectorIndex.state Vec Fitted) (fs : VectorIndex.files Vec)
    (text_ : pystr) (k : Z) :
  VectorIndex.meta Vec Fitted st ≠ [] → VectorIndex.consistent Vec Fitted st → (1 <= k)%Z →
  ∃ st2 r,
    VectorIndex.query Vec Fitted encode fit_transform transform dot argsort faiss_search
      st fs text_ k = Ok (st2, r)
    ∧ length r = Z.to_nat (Z.min k (Z.of_nat (length (VectorIndex.meta Vec Fitted st))))
    ∧ Forall (λ p, p.1 ∈ VectorIndex.meta Vec Fitted st) r.
Proof using fit_rows argsort_perm faiss_topk.
  intros Hne Hcons Hk. rewrite query_nonempty by done. cbv zeta.
  set (n := length (VectorIndex.meta Vec Fitted st)).
  assert (Hn : 1 ≤ n).
  { unfold n. destruct (VectorIndex.meta Vec Fitted st); [done | simpl; lia]. }
  assert (Hsparse : ∃ st2 r,
    VectorIndex.query_tfidf Vec Fitted fit_transform transform dot argsort
      st text_ (Z.min k (Z.of_nat n)) = Ok (st2, r)
    ∧ length r = Z.to_nat (Z.min k (Z.of_nat n))
    ∧ Forall (λ p, p.1 ∈ VectorIndex.meta Vec Fitted st) r).
  { destruct (VectorIndex.query_tfidf_spec Vec Fitted fit_transform transform dot argsort
                fit_rows argsort_perm st text_ (Z.min k (Z.of_nat n)) Hcons)
      as (st2 & rows & f & r & Hq & Hm & He & Hf & Hlen & Hall).
    exists st2, r. split_and!; [done | |].
    - rewrite <- (Forall2_length _ _ _ Hall), VectorIndex.length_slice_to by lia.
      rewrite (VectorIndex.length_argsort argsort argsort_perm), !length_fmap, Hlen.
      fold n. lia.
    - apply list.Forall_forall. intros p Hp.
      apply list_elem_of_lookup in Hp as [j Hj].
      destruct (Forall2_lookup_r _ _ _ _ _ Hall Hj) as (i & _ & Hi & _).
      by eapply list_elem_of_lookup_2. }
  destruct (VectorIndex.backend Vec Fitted st) eqn:Eb; [|exact Hsparse].
  destruct (VectorIndex.faiss_index Vec Fitted st) as [index|] eqn:Ei; [|exact Hsparse].
  destruct Hcons as (Hdense & _ & _).
  destruct (VectorIndex.query_dense_spec Vec faiss_search faiss_topk
              (VectorIndex.meta Vec Fitted st) index (encode text_) (Z.min k (Z.of_nat n)))
    as (hits & r & Hs & Hr & Hl & Hd & Hm).
  { by apply Hdense. }
  { fold n. lia. }
  rewrite Hs. simpl. rewrite Hr. simpl.
  exists st, r. by split_and!.
Qed.

Lemma load_built_consistent (b : VectorIndex.Backend) (fs : VectorIndex.files Vec)
    (chunks : list chunk) :
  ∃ st1,
    VectorIndex.load Vec Fitted (VectorIndex.init Vec Fitted b)
      (VectorIndex.build Vec Fitted encode fit_transform transform
         (VectorIndex.init Vec Fitted b) fs chunks).2 = Ok st1
    ∧ VectorIndex.meta Vec Fitted st1 = chunks
    ∧ VectorIndex.consistent Vec Fitted st1.
Proof using Type.
  destruct b.
  - eexists. split; [reflexivity|]. split; [done|]. unfold VectorIndex.consistent. simpl.
    split_and!.
    + intros index _ [= <-]. unfold VectorIndex._embed_transformer. by rewrite !length_fmap.
    + done.
    + by intros [? ?].
  - unfold VectorIndex.build, VectorIndex.load. simpl.
    eexists. split; [reflexivity|]. split; [done|]. unfold VectorIndex.consistent. simpl.
    split_and!; [done | done | by intros [? ?]].
Qed.

(** X21. After [build] has written [graph.json] and the index has been
    built from the same chunks, every chunk naming a paper of the list,
    [answer_query] with [k >= 1] raises nothing: it returns
    [min(k, len(chunks))] sources, each made from a chunk of the corpus,
    and a traversal path inside the graph. *)
Theorem answer_query_after_builds (b : VectorIndex.Backend) (fs : VectorIndex.files Vec)
    (papers : list paper) (chunks : list chunk) (env : environment)
    (question : pystr) (k : Z) :
  (∀ c, c ∈ chunks → c_paper_id c ∈ paper_id <$> papers) → (1 <= k)%Z →
  let built := build extract_keywords lower empty_graph papers chunks in
  let indexed :=
    VectorIndex.build Vec Fitted encode fit_transform transform
      (VectorIndex.init Vec Fitted b) fs chunks in
  ∃ a calls,
    answer_query Vec Fitted encode fit_transform transform dot argsort faiss_search
      b indexed.2 built.2 env question k = Ok (a, calls)
    ∧ length (sources a) = Z.to_nat (Z.min k (Z.of_nat (length chunks)))
    ∧ (∀ s, s ∈ sources a → ∃ c, c ∈ chunks ∧ s = to_source (c, s_score s))
    ∧ (∀ n, n ∈ traversal_path a → n ∈ nodes built.1).
Proof using fit_rows argsort_perm faiss_topk.
  intros Hids Hk built indexed. unfold answer_query.
  destruct (load_built_consistent b fs chunks) as (st1 & HL & Hm & Hcons).
  fold indexed in HL. rewrite HL, bind_Ok.
  assert (Hq : ∃ st2 r,
    VectorIndex.query Vec Fitted encode fit_transform transform dot argsort faiss_search
      st1 indexed.2 question k = Ok (st2, r)
    ∧ length r = Z.to_nat (Z.min k (Z.of_nat (length chunks)))
    ∧ Forall (λ p, p.1 ∈ chunks) r).
  { destruct (decide (chunks = [])) as [Ec|Ec].
    - rewrite Ec in Hm.
      destruct (VectorIndex.query_empty Vec Fitted encode fit_transform transform dot
                  argsort faiss_search st1 indexed.2 question k Hm) as (st2 & Hq).
      { right. unfold indexed. by rewrite Ec. }
      exists st2, []. rewrite Ec. split_and!; [done | simpl; lia | constructor].
    - rewrite <- Hm. apply query_returns; [by rewrite Hm | done | done]. }
  destruct Hq as (st2 & r & -> & Hlen & Hr). rewrite bind_Ok. cbn [snd].
  assert (HG : wf built.1) by (apply wf_build_graph, wf_empty_graph).
  destruct (load_persist built.1 HG) as (G' & HL' & HG' & Hn' & _).
  change (load empty_graph built.2) with (load empty_graph (Parsed (_persist built.1))).
  rewrite HL', bind_Ok.
  assert (Hnodes : ∀ n, n ∈ nodes G' ↔ n ∈ nodes built.1).
  { intros n. unfold nodes. by rewrite Hn'. }
  assert (Hstops : ∀ n, n ∈ ordered_paper_ids r → n ∈ nodes G').
  { intros n Hn. apply elem_of_ordered_paper_ids in Hn. apply list_elem_of_fmap in Hn as ([c q] & -> & Hc). simpl.
    rewrite list.Forall_forall in Hr. specialize (Hr _ Hc). simpl in Hr.
    apply Hids in Hr. apply list_elem_of_fmap in Hr as (p & -> & Hp).
    apply Hnodes. by apply build_graph_paper_node. }
  assert (Hs : ∃ path, stitch G' (ordered_paper_ids r) = Ok path
                       ∧ ∀ n, n ∈ path → n ∈ nodes G').
  { destruct (ordered_paper_ids r) as [|first rest] eqn:Eo.
    - exists []. split; [done|]. by intros n Hn%not_elem_of_nil.
    - simpl. rewrite (stitch_loop_rule G' HG').
      + eexists. split; [done|]. intros n Hn.
        assert (Hfold : ∀ pids path, (∀ x, x ∈ path → x ∈ nodes G') → path ≠ [] →
                  (∀ x, x ∈ pids → x ∈ nodes G') →
                  ∀ x, x ∈ fold_left (rule_step G') pids path → x ∈ nodes G').
        { intros pids. induction pids as [|pid pids IH]; intros path Hp Hne Hpids x;
            simpl; [by apply Hp|].
          destruct (stitch_step_rule G' HG' path pid Hne Hp) as (_ & Hne' & Hin).
          { apply Hpids. by left. }
          apply IH; [done | done |]. intros y Hy. apply Hpids. by right. }
        revert Hn. apply Hfold.
        * intros x ->%list_elem_of_singleton. apply Hstops. by left.
        * done.
        * intros x Hx. apply Hstops. by right.
      + done.
      + intros x ->%list_elem_of_singleton. apply Hstops. by left.
      + intros x Hx. apply Hstops. by right. }
  destruct Hs as (path & -> & Hpath). rewrite bind_Ok.
  destruct (compose_answer env question (to_source <$> r) path) as [text_ calls].
  eexists _, calls. split; [reflexivity|]. simpl. split_and!.
  - by rewrite length_fmap.
  - intros s ([c q] & -> & Hc)%list_elem_of_fmap. exists c. split; [|done].
    rewrite list.Forall_forall in Hr. by apply (Hr _ Hc).
  - intros n Hn. by apply Hnodes, Hpath.
Qed.

End served.

(** ** The endpoints of [main.py] over the graph *)

(** [GraphNode] and [GraphEdge] of [models.py]: every field is required,
    and a [None] is refused. *)
Record GraphNode := {
  gn_id : pystr;
  gn_label : pystr;
  gn_type : pystr
}.

Record GraphEdge := {
  ge_source : pystr;
  ge_target : pystr;
  ge_weight : Q;
  ge_relation : pystr
}.

(** [GraphNode] from the keywords of the dictionary [n]: [None] when
    pydantic raises [ValidationError]. *)
Definition validate_node (n : node_json) : option GraphNode :=
  i ← nj_id n; l ← nj_label n; t ← nj_type n;
  Some {| gn_id := i; gn_label := l; gn_type := t |}.

(** [GraphEdge] from the keywords of the dictionary [e]. *)
Definition validate_edge (e : edge_json) : option GraphEdge :=
  s ← ej_source e; t ← ej_target e; w ← ej_weight e; r ← ej_relation e;
  Some {| ge_source := s; ge_target := t; ge_weight := w; ge_relation := r |}.

(** What a handler comes to: the value returned, an exception of the
    application code, or pydantic's [ValidationError]. *)
Inductive outcome (A : Type) :=
  | Returned (a : A)
  | Raised (e : exn)
  | Invalid.
Arguments Returned {A} a.
Arguments Raised {A} e.
Arguments Invalid {A}.

(** [load_papers_and_chunks()], for [papers.json] and [chunks.jsonl]. *)
Definition load_papers_and_chunks (papers_file : snapshot (list paper))
    (chunks_file : snapshot (list chunk)) : result (list paper * list chunk) :=
  papers ← match papers_file with
           | Absent => Ok []
           | Unreadable => Raise JSONDecodeError
           | Parsed papers => Ok papers
           end;
  chunks ← match chunks_file with
           | Absent => Ok []
           | Unreadable => Raise JSONDecodeError
           | Parsed chunks => Ok chunks
           end;
  Ok (papers, chunks).

Module Api.

(** [GET /graph] *)
Definition get_graph (graph_file : snapshot graph_json)
  : outcome (list GraphNode * list GraphEdge) :=
  match load empty_graph graph_file with
  | Raise e => Raised e
  | Ok G =>
      let data := to_dict G in
      match mapM validate_node data.1 with
      | None => Invalid
      | Some ns =>
          match mapM validate_edge data.2 with
          | None => Invalid
          | Some es => Returned (ns, es)
          end
      end
  end.

Section build.

Variable extract_keywords : pystr → list pystr.
Variable lower : pystr → pystr.

(** [POST /build-graph]: the two counts of the response, and the
    [graph.json] written. *)
Definition build_graph (papers_file : snapshot (list paper))
    (chunks_file : snapshot (list chunk)) : result (nat * nat * snapshot graph_json) :=
  pc ← load_papers_and_chunks papers_file chunks_file;
  let '(G, file) := build extract_keywords lower empty_graph pc.1 pc.2 in
  Ok (length (nodes G), length (edges G), file).

End build.

End Api.

(** *** The two edge views of one set of edges have one length *)

Lemma edges_length_le G G' :
  wf G → wf G' →
  (∀ u v, is_Some (edge_data G' u v) → is_Some (edge_data G u v)) →
  length (edges G') ≤ length (edges G).
Proof.
  intros HG HG' Hsub.
  set (f := λ e : pystr * pystr, if decide (e ∈ edges G) then e else (e.2, e.1)).
  rewrite <- (length_fmap f (edges G')). apply submseteq_length, NoDup_submseteq.
  - apply NoDup_fmap_2_strong; [|by apply NoDup_edges].
    intros [u v] [x y] Huv Hxy. unfold f. simpl.
    destruct (decide ((u, v) ∈ edges G)), (decide ((x, y) ∈ edges G)); intros E.
    + done.
    + injection E as -> ->. f_equal; by apply (edges_antisym G').
    + injection E as <- <-. f_equal; by apply (edges_antisym G').
    + by injection E as -> ->.
  - intros e ([u v] & -> & Huv)%list_elem_of_fmap. unfold f.
    destruct (decide ((u, v) ∈ edges G)) as [|Hn]; [done|]. simpl.
    assert (H : is_Some (edge_data G u v)).
    { apply Hsub. apply edges_iff_data; auto. }
    apply edges_iff_data in H as [H|H]; done.
Qed.

Lemma edges_length G G' :
  wf G → wf G' → (∀ u v, edge_data G' u v = edge_data G u v) →
  length (edges G') = length (edges G).
Proof.
  intros HG HG' E. apply Nat.le_antisymm; apply edges_length_le; try done.
  - intros u v. by rewrite E.
  - intros u v. by rewrite E.
Qed.

Lemma mapM_validate_node (G : Graph) :
  (∀ n a, dict_get n (_node G) = Some a → is_Some (label a) ∧ is_Some (type a)) →
  NoDup (keys (_node G)) →
  ∃ ns, mapM validate_node (to_dict G).1 = Some ns
        ∧ length ns = length (nodes G) ∧ gn_id <$> ns = nodes G.
Proof.
  intros Hattr Hnd. unfold to_dict, nodes, keys. simpl.
  induction (_node G) as [|[n a] l IH].
  - by exists [].
  - destruct IH as (ns & Hns & Hlen & Hids).
    { intros m b Hm. apply (Hattr m b). simpl.
      destruct (decide (m = n)) as [->|]; [|done].
      apply NoDup_cons in Hnd as [Hn _]. apply dict_get_Some_keys in Hm. done. }
    { by apply NoDup_cons in Hnd as [_ ?]. }
    destruct (Hattr n a) as [[lb Hl] [ty Ht]].
    { simpl. by rewrite decide_True. }
    exists ({| gn_id := n; gn_label := lb; gn_type := ty |} :: ns).
    split_and!.
    + apply mapM_Some. rewrite fmap_cons. constructor; [|by apply mapM_Some].
      unfold validate_node, node_to_json. simpl. by rewrite Hl, Ht.
    + rewrite fmap_cons. cbn [length]. by f_equal.
    + rewrite !fmap_cons. cbn [gn_id fst]. by f_equal.
Qed.

Lemma mapM_validate_edge (G : Graph) :
  wf G → (∀ u v d, edge_data G u v = Some d → is_Some (relation d)) →
  ∃ es, mapM validate_edge (to_dict G).2 = Some es ∧ length es = length (edges G).
Proof.
  intros HG Hattr. destruct (omap_edge_to_json G (edges G) HG) as [L E]; [done|].
  assert (His : is_Some (mapM validate_edge (to_dict G).2)).
  { apply mapM_is_Some, list.Forall_forall. intros ej Hej.
    apply E in Hej as (u & v & d & _ & Hd & ->).
    destruct (Hattr u v d Hd) as [r Hr]. unfold validate_edge. simpl. rewrite Hr. by eexists. }
  destruct His as [es Hes]. exists es. split; [done|].
  apply mapM_Some_1, Forall2_length in Hes. unfold to_dict in Hes. simpl in Hes. lia.
Qed.

Section endpoints.

Variable extract_keywords : pystr → list pystr.
Variable lower : pystr → pystr.

(** X22. When [POST /build-graph] returns, a [GET /graph] on the file it
    wrote raises nothing and passes validation, and it lists as many nodes
    and as many edges as the counts that the build reported. *)
Theorem graph_endpoints_agree (papers_file : snapshot (list paper))
    (chunks_file : snapshot (list chunk)) (n m : nat) (file : snapshot graph_json) :
  Api.build_graph extract_keywords lower papers_file chunks_file = Ok (n, m, file) →
  ∃ ns es, Api.get_graph file = Returned (ns, es) ∧ length ns = n ∧ length es = m.
Proof.
  unfold Api.build_graph.
  destruct (load_papers_and_chunks papers_file chunks_file) as [[papers chunks]|];
    simpl; [|done].
  intros [= <- <- <-].
  set (G := build_graph extract_keywords lower empty_graph papers chunks).
  assert (HG : wf G) by (apply wf_build_graph, wf_empty_graph).
  destruct (typed_build_graph extract_keywords lower papers chunks) as (Hn & He).
  fold G in Hn, He.
  destruct (load_persist G HG) as (G' & HL & HG' & Hnode & Hedge).
  unfold Api.get_graph. rewrite HL.
  destruct (mapM_validate_node G') as (ns & -> & Hlen & _).
  { intros x a. rewrite Hnode. intros Hx. destruct (Hn x a Hx) as [Hl [Ht|Ht]];
      (split; [done | rewrite Ht; by eexists]). }
  { apply HG'. }
  destruct (mapM_validate_edge G' HG') as (es & -> & Hlen').
  { intros u v d. rewrite Hedge. intros Hd. destruct (He u v d Hd) as [[Hr|Hr] _];
      rewrite Hr; by eexists. }
  exists ns, es. split_and!; [done | |].
  - rewrite Hlen. unfold nodes. by rewrite Hnode.
  - rewrite Hlen'. by apply edges_length.
Qed.

End endpoints.

(** X23. When a [graph.json] whose entries have their keys holds an edge
    with an end that no node entry lists, [load] accepts it, and
    [GET /graph] fails in the validation of the response: the node made
    for that end has neither label nor type. *)
Theorem get_graph_dangling_edge (data : graph_json) (e : edge_json) (s : pystr) :
  complete_nodes (default [] (gj_nodes data)) →
  complete_edges (default [] (gj_edges data)) →
  e ∈ default [] (gj_edges data) →
  ej_source e = Some s ∨ ej_target e = Some s →
  Some s ∉ nj_id <$> default [] (gj_nodes data) →
  Api.get_graph (Parsed data) = Invalid.
Proof.
  intros Hn He Hin Hs Hno.
  destruct (load_parsed_spec empty_graph data) as [H1 _].
  destruct (H1 (conj Hn He)) as (G & HL & HG & Hnode & _).
  unfold Api.get_graph. rewrite HL.
  assert (Hbare : dict_get s (_node G) = Some bare).
  { rewrite Hnode. unfold last_node.
    rewrite (filter_none _ (default [] (gj_nodes data))).
    - simpl. rewrite decide_True; [done|]. apply elem_of_app.
      destruct Hs as [Hs|Hs]; [left | right]; rewrite <- Hs;
        apply list_elem_of_fmap; by exists e.
    - intros nj Hnj E. apply Hno. rewrite <- E. apply list_elem_of_fmap. by exists nj. }
  assert (Hnone : mapM validate_node (to_dict G).1 = None).
  { destruct (mapM validate_node (to_dict G).1) as [ns|] eqn:Em; [|done]. exfalso.
    apply mapM_Some_1 in Em. apply dict_get_elem_of in Hbare.
    assert (Hj : node_to_json (s, bare) ∈ (to_dict G).1).
    { unfold to_dict. simpl. apply list_elem_of_fmap. by exists (s, bare). }
    apply list_elem_of_lookup in Hj as [i Hi].
    destruct (Forall2_lookup_l _ _ _ _ _ Em Hi) as (y & _ & Hy). done. }
  by rewrite Hnone.
Qed.

(** ** A small corpus, and stand-ins for the libraries *)

Definition demo_A : pystr := lit "A".
Definition demo_B : pystr := lit "B".
Definition demo_concept : pystr := lit "concept::transformer".

Definition demo_papers : list paper :=
  [ {| paper_id := demo_A; title := lit "Paper A"; path := lit "pdfs/A.pdf" |};
    {| paper_id := demo_B; title := lit "Paper B"; path := lit "pdfs/B.pdf" |} ].

Definition demo_chunk_A : chunk :=
  {| chunk_id := lit "A::chunk_0000"; c_paper_id := demo_A; c_title := lit "Paper A";
     text := lit "transformer attention" |}.

Definition demo_chunk_B : chunk :=
  {| chunk_id := lit "B::chunk_0000"; c_paper_id := demo_B; c_title := lit "Paper B";
     text := lit "transformer decoding" |}.

Definition demo_chunks : list chunk := [demo_chunk_A; demo_chunk_B].

(** An extractor that finds the one phrase both papers share. *)
Definition demo_extract (joined : pystr) : list pystr := [lit "transformer"].

(** Two papers that mention one concept with weight [w] each and have no
    edge between them. *)
Definition demo_graph (w : Q) : Graph :=
  let paper_attr n := {| label := Some n; type := Some (lit "paper") |} in
  let G1 := add_node (add_node empty_graph demo_A (paper_attr demo_A)) demo_B (paper_attr demo_B) in
  let G2 := add_node G1 demo_concept
              {| label := Some (lit "transformer"); type := Some (lit "concept") |} in
  let mentions := {| relation := Some (lit "mentions"); weight := w |} in
  add_edge (add_edge G2 demo_A demo_concept mentions) demo_B demo_concept mentions.

Lemma wf_demo_graph w : wf (demo_graph w).
Proof. unfold demo_graph. repeat (apply wf_add_edge || apply wf_add_node). apply wf_empty_graph. Qed.

#[export] Instance Qle_dec (x y : Q) : Decision (x <= y)%Q.
Proof.
  destruct (Qlt_le_dec y x) as [H|H]; [right | by left].
  by apply Qlt_not_le.
Defined.

(** Rows of one number: every text is embedded as [1]. *)
Definition demo_encode (t : pystr) : Q := 1%Q.
Definition demo_fit (texts : list pystr) : unit * list Q := (tt, (λ _, 1%Q) <$> texts).
Definition demo_transform (f : unit) (t : pystr) : Q := 1%Q.

(** Two sorts of the indices by value: they differ on equal values. *)
Definition by_value (a : list Q) (i j : nat) : Prop :=
  (VectorIndex.key a i <= VectorIndex.key a j)%Q.

#[export] Instance by_value_dec a i j : Decision (by_value a i j).
Proof. unfold by_value. apply _. Defined.

Definition demo_argsort (a : list Q) : list nat :=
  merge_sort (by_value a) (seq 0 (length a)).

Definition demo_argsort_rev (a : list Q) : list nat :=
  merge_sort (by_value a) (reverse (seq 0 (length a))).

(** A flat index that scores every row [0]. *)
Definition demo_search (index : list Q) (q : Q) (k : Z) : result (list (Z * Q)) :=
  if decide (1 <= k <= Z.of_nat (length index))%Z then
    Ok ((λ i, (Z.of_nat i, 0%Q)) <$> seq 0 (Z.to_nat k))
  else Raise AssertionError.

Lemma demo_fit_rows texts : length (demo_fit texts).2 = length texts.
Proof. apply length_fmap. Qed.

#[export] Instance by_value_trans a : Transitive (by_value a).
Proof. intros i j k. unfold by_value. apply Qle_trans. Qed.

#[export] Instance by_value_total a : Total (by_value a).
Proof.
  intros i j. unfold by_value.
  destruct (Qlt_le_dec (VectorIndex.key a j) (VectorIndex.key a i)) as [H|H].
  - right. by apply Qlt_le_weak.
  - by left.
Qed.

Lemma demo_argsort_perm a : demo_argsort a ≡ₚ seq 0 (length a).
Proof. apply merge_sort_Permutation. Qed.

Lemma demo_argsort_sorted a : StronglySorted (by_value a) (demo_argsort a).
Proof. apply StronglySorted_merge_sort; apply _. Qed.

Lemma demo_argsort_rev_perm a : demo_argsort_rev a ≡ₚ seq 0 (length a).
Proof.
  unfold demo_argsort_rev. rewrite merge_sort_Permutation. apply reverse_Permutation.
Qed.

Lemma demo_argsort_rev_sorted a : StronglySorted (by_value a) (demo_argsort_rev a).
Proof. apply StronglySorted_merge_sort; apply _. Qed.

Lemma demo_search_topk (index : list Q) (q : Q) (k : Z) :
  (1 <= k <= Z.of_nat (length index))%Z →
  ∃ hits, demo_search index q k = Ok hits
          ∧ length hits = Z.to_nat k
          ∧ Forall (λ h, (0 <= h.1 < Z.of_nat (length index))%Z) hits
          ∧ StronglySorted (λ h1 h2, (h2.2 <= h1.2)%Q) hits.
Proof.
  intros Hk. unfold demo_search. rewrite decide_True by done.
  eexists. split_and!; [done | | |].
  - by rewrite length_fmap, length_seq.
  - apply Forall_fmap, list.Forall_forall. intros i Hi. simpl.
    apply elem_of_seq in Hi. lia.
  - apply (StronglySorted_fmap _ (λ _ _, True)).
    + intros x y _. simpl. lra.
    + generalize (seq 0 (Z.to_nat k)). intros l.
      induction l; constructor; [done|]. by apply Forall_true.
Qed.

(** The files after [VectorIndex.build(demo_chunks)] under the TF-IDF
    backend, and the index object of a new process. *)
Definition demo_files : VectorIndex.files Q :=
  {| VectorIndex.meta_file := Parsed demo_chunks; VectorIndex.index_file := Absent |}.

Definition demo_index : VectorIndex.state Q unit :=
  VectorIndex.init Q unit VectorIndex.tfidf.

Definition demo_loaded : VectorIndex.state Q unit :=
  {| VectorIndex.backend := VectorIndex.tfidf; VectorIndex.tfidf_vectorizer := None;
     VectorIndex.embeddings := None; VectorIndex.faiss_index := None;
     VectorIndex.meta := demo_chunks |}.

Lemma demo_loaded_consistent : VectorIndex.consistent Q unit demo_loaded.
Proof.
  split_and!; simpl.
  - done.
  - done.
  - by intros [? ?].
Qed.

(** [query] with the stand-ins, by the sort given. *)
Definition demo_query (argsort : list Q → list nat) (k : Z)
  : result (VectorIndex.state Q unit * list (chunk * Q)) :=
  VectorIndex.query Q unit demo_encode demo_fit demo_transform Qmult argsort demo_search
    demo_index demo_files (lit "attention") k.

(** ** The claims on the small corpus *)

(** C1, as stated, fails: with two edges of weight [0.0] the concept is a
    bridge by the stated rule, and the code jumps from [A] to [B]. *)
Lemma stitch_zero_weight_bridge :
  stitch (demo_graph 0) [demo_A; demo_B] = Ok [demo_A; demo_B]
  ∧ claimed_stitch (demo_graph 0) [demo_A; demo_B] = [demo_A; demo_concept; demo_B]
  ∧ stitch (demo_graph 0) [demo_A; demo_B]
    ≠ Ok (claimed_stitch (demo_graph 0) [demo_A; demo_B]).
Proof. split_and!; [by vm_compute | by vm_compute | by vm_compute]. Qed.

Lemma stitch_unknown_stop :
  stitch empty_graph [demo_A; demo_B] = Raise NetworkXError.
Proof.
  apply (stitch_raises_outside_graph empty_graph demo_A demo_B []).
  apply not_elem_of_nil.
Defined.

Lemma rebuild_keeps_rows_witness :
  let st := (VectorIndex.build Q unit demo_encode demo_fit demo_transform
               demo_index demo_files [demo_chunk_A]).1 in
  let st' := (VectorIndex.build Q unit demo_encode demo_fit demo_transform
                st demo_files demo_chunks).1 in
  VectorIndex.meta Q unit st' = demo_chunks
  ∧ VectorIndex.embeddings Q unit st' = Some [1%Q]
  ∧ VectorIndex.tfidf_vectorizer Q unit st' = Some tt.
Proof.
  apply (VectorIndex.rebuild_keeps_rows Q unit demo_encode demo_fit demo_transform
           (VectorIndex.build Q unit demo_encode demo_fit demo_transform
              demo_index demo_files [demo_chunk_A]).1 demo_files demo_chunks tt);
    reflexivity.
Defined.


Lemma stitch_follows_rule_witness :
  stitch (demo_graph 1) [demo_A; demo_B]
  = Ok (stitch_rule (demo_graph 1) [demo_A; demo_B]).
Proof.
  apply (stitch_follows_rule (demo_graph 1) [demo_A; demo_B] (wf_demo_graph 1)).
  intros n Hn. apply (proj1 (has_node_true (demo_graph 1) n)).
  apply elem_of_cons in Hn as [->|Hn]; [reflexivity|].
  apply list_elem_of_singleton in Hn as ->. reflexivity.
Defined.

Example stitch_demo_bridge :
  stitch (demo_graph 1) [demo_A; demo_B] = Ok [demo_A; demo_concept; demo_B].
Proof. by vm_compute. Qed.

Lemma weight_accumulation_witness :
  edge_data
    (_add_edge (_add_edge empty_graph demo_A demo_B (lit "mentions") 1) demo_B demo_A
       (lit "related") 2)
    demo_A demo_B
  = Some {| relation := Some (lit "mentions"); weight := (1 + 2)%Q |}.
Proof.
  apply (proj1 (weight_accumulation demo_extract id empty_graph demo_A demo_B demo_B demo_A
                  (lit "mentions") (lit "related") 1 2 wf_empty_graph)).
  - reflexivity.
  - right. split; reflexivity.
Defined.

Lemma relation_fixed_witness :
  edge_data (_add_edge (demo_graph 1) demo_concept demo_A (lit "related") 2)
    demo_A demo_concept
  = Some {| relation := Some (lit "mentions"); weight := (1 + 2)%Q |}.
Proof.
  apply (proj1 (relation_fixed (demo_graph 1) demo_A demo_concept
                  {| relation := Some (lit "mentions"); weight := 1 |}
                  (wf_demo_graph 1) eq_refl)).
  right. split; reflexivity.
Defined.

Lemma demo_ids_not_concepts (p q : paper) (kw : pystr) :
  p ∈ demo_papers → q ∈ demo_papers →
  kw ∈ keyphrases demo_extract demo_chunks (paper_id q) →
  paper_id p ≠ concept_id id kw.
Proof.
  intros Hp _ Hkw. apply list_elem_of_singleton in Hkw as ->.
  apply elem_of_cons in Hp as [->|Hp]; [by vm_compute|].
  apply list_elem_of_singleton in Hp as ->. by vm_compute.
Qed.

Lemma demo_ids_nodup : NoDup (paper_id <$> demo_papers).
Proof. apply (bool_decide_unpack _). by vm_compute. Qed.

Lemma build_related_edges_witness :
  let G := (build demo_extract id empty_graph demo_papers demo_chunks).1 in
  edge_data G demo_A demo_B = Some {| relation := Some (lit "related"); weight := 1 |}
  ∧ length (edges_between G demo_A demo_B) = 1
  ∧ length (subgraph_for_path G [demo_A; demo_B]).1 = 2.
Proof.
  destruct (build_related_edges demo_extract id demo_papers demo_chunks
              demo_ids_nodup demo_ids_not_concepts
              {| paper_id := demo_A; title := lit "Paper A"; path := lit "pdfs/A.pdf" |}
              {| paper_id := demo_B; title := lit "Paper B"; path := lit "pdfs/B.pdf" |})
    as [H _].
  - apply elem_of_cons. by left.
  - destruct H as (H1 & _ & H3 & H4 & _); [by vm_compute|].
    exact (conj H1 (conj H3 H4)).
Defined.

Lemma build_load_round_trip_witness :
  ∃ G', load empty_graph (build demo_extract id empty_graph demo_papers demo_chunks).2 = Ok G'
        ∧ _node G' = _node (build demo_extract id empty_graph demo_papers demo_chunks).1.
Proof.
  destruct (build_load_round_trip demo_extract id Q unit demo_encode demo_fit demo_transform
              empty_graph demo_papers demo_chunks demo_index demo_index demo_files
              wf_empty_graph) as [(G' & H1 & H2 & _) _].
  exists G'. exact (conj H1 H2).
Defined.

Lemma empty_state_safety_witness :
  answer_query Q unit demo_encode demo_fit demo_transform Qmult demo_argsort demo_search
    VectorIndex.tfidf
    {| VectorIndex.meta_file := Absent; VectorIndex.index_file := Absent |}
    Absent
    {| GROQ_API_KEY := Some (lit "key"); post := λ _, Content (lit "text") |}
    (lit "attention") 5
  = Ok ({| answer_text := NO_CONTENT; sources := []; traversal_path := [];
           subgraph := ([], []) |}, []).
Proof.
  apply (proj2 (empty_state_safety Q unit demo_encode demo_fit demo_transform Qmult
                  demo_argsort demo_search VectorIndex.tfidf demo_index
                  {| VectorIndex.meta_file := Absent; VectorIndex.index_file := Absent |}
                  Absent empty_graph
                  {| GROQ_API_KEY := Some (lit "key"); post := λ _, Content (lit "text") |}
                  (lit "attention") 5 (or_introl eq_refl))).
  reflexivity.
Defined.

(** C4, as stated, fails for a negative [k]: [min(k, n)] is [-1], and the
    slice [[:-1]] of the two sorted indices keeps one. *)
Lemma query_negative_k :
  ∃ st r, demo_query demo_argsort (-1) = Ok (st, r)
          ∧ length (VectorIndex.meta Q unit st) = 2
          ∧ length r = 1
          ∧ ¬ (Z.of_nat (length r) <= Z.min (-1) 2)%Z.
Proof.
  eexists _, _. split; [by vm_compute|]. split_and!; [done | done | simpl; lia].
Qed.

Lemma query_clamps_k_witness :
  ∃ st r, demo_query demo_argsort 5 = Ok (st, r) ∧ length r = 2.
Proof.
  destruct (VectorIndex.query_clamps_k Q unit demo_encode demo_fit demo_transform Qmult
              demo_argsort demo_search demo_fit_rows demo_argsort_perm demo_argsort_sorted
              demo_search_topk demo_index demo_files demo_loaded (lit "attention") 5)
    as (st & r & Hq & _ & Hn & _).
  - reflexivity.
  - exact demo_loaded_consistent.
  - lia.
  - exists st, r. split; [exact Hq|]. apply Hn. simpl. lia.
Defined.

(** C6, as stated, fails: a sort that meets the contract of [np.argsort]
    may return equal values in any order, and then two chunks with equal
    scores come back against their order in [meta]. *)
Lemma query_ties_out_of_order :
  ∃ argsort : list Q → list nat,
    (∀ a, argsort a ≡ₚ seq 0 (length a))
    ∧ (∀ a, StronglySorted (λ i j, (VectorIndex.key a i <= VectorIndex.key a j)%Q) (argsort a))
    ∧ ∃ st r, demo_query argsort 5 = Ok (st, r)
              ∧ VectorIndex.meta Q unit st = [demo_chunk_A; demo_chunk_B]
              ∧ r = [(demo_chunk_B, 1%Q); (demo_chunk_A, 1%Q)].
Proof.
  exists demo_argsort_rev. split_and!.
  - apply demo_argsort_rev_perm.
  - apply demo_argsort_rev_sorted.
  - eexists _, _. split; [by vm_compute|]. split; reflexivity.
Qed.

Lemma query_sparse_top_k_witness :
  ∃ st r, demo_query demo_argsort 1 = Ok (st, r) ∧ length r = 1
          ∧ VectorIndex.descending r.
Proof.
  destruct (VectorIndex.query_sparse_top_k Q unit demo_encode demo_fit demo_transform Qmult
              demo_argsort demo_search demo_fit_rows demo_argsort_perm demo_argsort_sorted
              demo_index demo_files demo_loaded (lit "attention") 1)
    as (st & rows & f & r & Hq & _ & _ & _ & _ & Hlen & Hdesc & _).
  - reflexivity.
  - exact demo_loaded_consistent.
  - reflexivity.
  - discriminate.
  - exists st, r. split_and!; [exact Hq | | exact Hdesc]. apply Hlen. lia.
Defined.

(** C2, as the code has it. The key is set, the request times out: the
    answer is the failure note, the first 500 characters of the prompt and
    the metadata footer; the heuristic text is not in it. *)
Theorem answer_on_failed_call :
  let env := {| GROQ_API_KEY := Some (lit "key"); post := λ _, Failed (lit "timed out") |} in
  ∃ a prompt,
    answer_query Q unit demo_encode demo_fit demo_transform Qmult demo_argsort demo_search
      VectorIndex.tfidf demo_files (Parsed (_persist (demo_graph 1))) env
      (lit "What is attention?") 5
    = Ok (a, [prompt])
    ∧ traversal_path a = [demo_A; demo_concept; demo_B]
    ∧ prompt = prompt_text (lit "What is attention?") (sources a) (traversal_path a)
    ∧ answer_text a
      = lit "(LLM call failed: timed out)" ++ nl ++ take 500 prompt
          ++ metadata_text (sources a) (traversal_path a)
    ∧ contains (heuristic_text (sources a) (traversal_path a)) (answer_text a) = false.
Proof.
  eexists _, _. split; [by vm_compute|].
  split_and!; by vm_compute.
Qed.

(** ** The further properties on the small corpus *)

Definition demo_env : environment :=
  {| GROQ_API_KEY := None; post := λ _, Failed [] |}.

Definition demo_graph_file : snapshot graph_json := Parsed (_persist (demo_graph 1)).

(** What a query over the small corpus returns. *)
Definition demo_answered : answer * list pystr :=
  match
    answer_query Q unit demo_encode demo_fit demo_transform Qmult demo_argsort demo_search
      VectorIndex.tfidf demo_files demo_graph_file demo_env (lit "What is attention?") 5
  with
  | Ok r => r
  | Raise _ =>
      ({| answer_text := []; sources := []; traversal_path := []; subgraph := ([], []) |}, [])
  end.

(** The graph a new process reads back. *)
Definition demo_reloaded : Graph :=
  match load empty_graph demo_graph_file with
  | Ok G => G
  | Raise _ => empty_graph
  end.

(** What [explain_node] returns for the concept. *)
Definition demo_explained : pystr * pystr * option pystr * list neighbor * list pystr :=
  match explain_node demo_graph_file demo_env demo_concept with
  | Ok (text_, Found _ label_ ntype summ, calls) => (text_, label_, ntype, summ, calls)
  | _ => ([], [], None, [], [])
  end.

(** A directory of two PDFs and a text file, and stand-ins for the
    libraries: every file reads as the same title and text. *)
Definition demo_listing : list pystr := [lit "A.pdf"; lit "notes.txt"; lit "B.pdf"].
Definition demo_root (fname : pystr) : pystr := take (length fname - 4) fname.
Definition demo_join (fname : pystr) : pystr := lit "pdfs/" ++ fname.
Definition demo_read (fpath : pystr) : pystr * pystr :=
  (lit "Title", lit "transformer attention").

Definition demo_dangling : graph_json :=
  {| gj_nodes := Some [];
     gj_edges := Some [ {| ej_source := Some demo_A; ej_target := Some demo_B;
                           ej_relation := Some (lit "related"); ej_weight := Some 1%Q |} ] |}.

Lemma stitch_path_shape_witness :
  NoDup [demo_A; demo_concept; demo_B]
  ∧ length [demo_A; demo_concept; demo_B] ≤ 2 * length [demo_A; demo_B] - 1.
Proof.
  destruct (stitch_path_shape (demo_graph 1) [demo_A; demo_B] [demo_A; demo_concept; demo_B])
    as (H1 & _ & _ & _ & H5).
  - by vm_compute.
  - exact (conj H1 H5).
Defined.

Lemma answer_query_shape_witness :
  NoDup (traversal_path demo_answered.1) ∧ length demo_answered.2 ≤ 1.
Proof.
  destruct (answer_query_shape Q unit demo_encode demo_fit demo_transform Qmult
              demo_argsort demo_search VectorIndex.tfidf demo_files demo_graph_file
              demo_env (lit "What is attention?") 5 demo_answered.1 demo_answered.2)
    as (_ & H & _ & _ & _ & Hc & _).
  - by vm_compute.
  - exact (conj H Hc).
Defined.

Lemma build_mentions_edges_witness :
  ∃ d, edge_data (build_graph demo_extract id empty_graph demo_papers demo_chunks)
         demo_A demo_concept = Some d
       ∧ relation d = Some (lit "mentions").
Proof.
  destruct (build_mentions_edges demo_extract id demo_papers demo_chunks
              demo_ids_nodup demo_ids_not_concepts
              {| paper_id := demo_A; title := lit "Paper A"; path := lit "pdfs/A.pdf" |}
              (lit "transformer"))
    as (d & H1 & _ & H3 & _).
  - apply elem_of_cons. by left.
  - apply elem_of_cons. by left.
  - exists d. exact (conj H1 H3).
Defined.

Lemma to_dict_closed_witness :
  length (to_dict (demo_graph 1)).1 = length (nodes (demo_graph 1))
  ∧ length (to_dict (demo_graph 1)).2 = length (edges (demo_graph 1))
  ∧ NoDup (nj_id <$> (to_dict (demo_graph 1)).1).
Proof.
  destruct (to_dict_closed (demo_graph 1) (wf_demo_graph 1)) as (H1 & H2 & H3 & _).
  exact (conj H1 (conj H2 H3)).
Defined.


Lemma load_contents_witness :
  wf demo_reloaded
  ∧ ∀ u v, edge_data demo_reloaded u v
           = edge_of_json <$> last_edge (default [] (gj_edges (_persist (demo_graph 1)))) u v.
Proof.
  destruct (load_contents empty_graph (_persist (demo_graph 1)) demo_reloaded)
    as (H1 & _ & H3).
  - by vm_compute.
  - exact (conj H1 H3).
Defined.

Lemma query_after_reload_witness :
  (st ← VectorIndex.load Q unit demo_index
          (VectorIndex.build Q unit demo_encode demo_fit demo_transform
             demo_index demo_files demo_chunks).2;
   retrieved Q unit demo_encode demo_fit demo_transform Qmult demo_argsort demo_search st
     (VectorIndex.build Q unit demo_encode demo_fit demo_transform
        demo_index demo_files demo_chunks).2 (lit "attention") 5)
  = retrieved Q unit demo_encode demo_fit demo_transform Qmult demo_argsort demo_search
      (VectorIndex.build Q unit demo_encode demo_fit demo_transform
         demo_index demo_files demo_chunks).1
      (VectorIndex.build Q unit demo_encode demo_fit demo_transform
         demo_index demo_files demo_chunks).2 (lit "attention") 5.
Proof.
  apply (query_after_reload Q unit demo_encode demo_fit demo_transform Qmult demo_argsort
           demo_search VectorIndex.tfidf demo_files demo_chunks (lit "attention") 5).
  discriminate.
Defined.

Lemma explain_node_neighbors_witness :
  explain_node demo_graph_file demo_env (lit "Z") = Ok (NODE_NOT_FOUND, NotFound, []).
Proof.
  apply (proj1 (explain_node_neighbors demo_graph_file demo_env (lit "Z") demo_reloaded
                  ltac:(by vm_compute))).
  by vm_compute.
Defined.

Lemma explain_node_text_witness :
  demo_explained.1.1.1.1
  = explain_heuristic demo_explained.1.1.1.2 demo_explained.1.1.2 demo_explained.1.2
      ++ lit " (LLM disabled)"
  ∧ demo_explained.2 = [].
Proof.
  apply (proj1 (explain_node_text demo_graph_file demo_env demo_concept
                  demo_explained.1.1.1.1 demo_explained.1.1.1.2 demo_explained.1.1.2
                  demo_explained.1.2 demo_explained.2 ltac:(by vm_compute))).
  reflexivity.
Defined.

Lemma chunk_text_covers_witness :
  length (_chunk_text (lit "a b c") 2 1)
  = ceil_div (length (split (lit "a b c"))) (Z.to_nat (2 - 1)).
Proof.
  apply (proj1 (chunk_text_covers (lit "a b c") 2 1 ltac:(lia))).
Defined.

Lemma chunk_text_degenerate_witness :
  _chunk_text (lit "a b c") 2 2
  = match split (lit "a b c") with
    | [] => []
    | words => [join (lit " ") (slice 0 2 words)]
    end.
Proof.
  apply (chunk_text_degenerate (lit "a b c") 2 2). lia.
Defined.

Lemma ingest_chunk_ids_unique_witness :
  NoDup (chunk_id <$> (ingest_pdfs id demo_root demo_join demo_read demo_listing).2).
Proof.
  apply (ingest_chunk_ids_unique id demo_root demo_join demo_read demo_listing).
  apply (bool_decide_unpack _). by vm_compute.
Defined.

Lemma answer_query_after_builds_witness :
  ∃ a calls,
    answer_query Q unit demo_encode demo_fit demo_transform Qmult demo_argsort demo_search
      VectorIndex.tfidf
      (VectorIndex.build Q unit demo_encode demo_fit demo_transform
         demo_index demo_files demo_chunks).2
      (build demo_extract id empty_graph demo_papers demo_chunks).2
      demo_env (lit "attention") 5
    = Ok (a, calls)
    ∧ length (sources a) = 2.
Proof.
  destruct (answer_query_after_builds demo_extract id Q unit demo_encode demo_fit
              demo_transform Qmult demo_argsort demo_search
              demo_fit_rows demo_argsort_perm demo_search_topk
              VectorIndex.tfidf demo_files demo_papers demo_chunks demo_env
              (lit "attention") 5)
    as (a & calls & H & Hl & _).
  - intros c Hc. apply (bool_decide_unpack _).
    apply elem_of_cons in Hc as [->|Hc]; [by vm_compute|].
    apply list_elem_of_singleton in Hc as ->. by vm_compute.
  - lia.
  - exists a, calls. exact (conj H Hl).
Defined.

Lemma graph_endpoints_agree_witness :
  ∃ ns es,
    Api.get_graph (build demo_extract id empty_graph demo_papers demo_chunks).2
    = Returned (ns, es)
    ∧ length ns = 3 ∧ length es = 3.
Proof.
  apply (graph_endpoints_agree demo_extract id (Parsed demo_papers) (Parsed demo_chunks)
           3 3 (build demo_extract id empty_graph demo_papers demo_chunks).2).
  by vm_compute.
Defined.

Lemma get_graph_dangling_edge_witness :
  Api.get_graph (Parsed demo_dangling) = Invalid.
Proof.
  apply (get_graph_dangling_edge demo_dangling
           {| ej_source := Some demo_A; ej_target := Some demo_B;
              ej_relation := Some (lit "related"); ej_weight := Some 1%Q |} demo_A).
  - constructor.
  - constructor; [|constructor]. split; by eexists.
  - apply elem_of_cons. by left.
  - by left.
  - apply not_elem_of_nil.
Defined.
